(** * compass-ocr: document-batch orchestration and extraction pipeline

    A shallow embedding of the TypeScript services of the repository
    (mapping.service.ts, flight.service.ts, hotel.service.ts,
    passport.service.ts, process.router.ts, config/redis.ts,
    utils/zip_extractor.ts and the S3 helpers) together with the
    properties of the specification that can be stated over them and
    further properties of the code.

    A JavaScript string is modelled as the list of its UTF-16 code units,
    restricted to the range 0..255 (the Latin-1 block); the OCR engine is
    configured with an ASCII white list, so recognised texts live in that
    range.  Numbers produced by the name matcher are ratios of small
    integers and the literals 1.0, 0.8 and 0.6; they are modelled as exact
    rationals, which orders them as IEEE doubles do for every string a
    JavaScript engine can hold. *)

From Stdlib Require Import Ascii String.
From Stdlib Require Import List Bool Arith Lia QArith Sorted Permutation.
Import ListNotations.

Set Implicit Arguments.
Close Scope Q_scope.
Close Scope Z_scope.
Open Scope nat_scope.

(** ** JavaScript strings *)

Module JS.

Definition jsstring := list ascii.

Definition js (s : string) : jsstring := list_ascii_of_string s.

Definition code (c : ascii) : nat := nat_of_ascii c.

Definition between (lo hi : nat) (c : ascii) : bool :=
  (lo <=? code c) && (code c <=? hi).

(** [\s] and the characters removed by [trim]: TAB, LF, VT, FF, CR, SP and
    NBSP (the other members are above code unit 255). *)
Definition is_space (c : ascii) : bool :=
  between 9 13 c || (code c =? 32) || (code c =? 160).

Definition is_digit (c : ascii) : bool := between 48 57 c.
Definition is_upper (c : ascii) : bool := between 65 90 c.
Definition is_lower (c : ascii) : bool := between 97 122 c.
Definition is_alpha (c : ascii) : bool := is_upper c || is_lower c.
(** [\w] *)
Definition is_word (c : ascii) : bool :=
  is_alpha c || is_digit c || (code c =? 95).

(** [String.prototype.toLowerCase], one code unit at a time: A-Z and the
    Latin-1 capitals U+00C0..U+00DE except the multiplication sign. *)
Definition lower_char (c : ascii) : ascii :=
  if is_upper c || (between 192 222 c && negb (code c =? 215))
  then ascii_of_nat (code c + 32) else c.

Definition toLowerCase (s : jsstring) : jsstring := map lower_char s.

(** [String.prototype.toUpperCase]; the program applies it only to matches
    of ASCII letter and digit classes, where it acts on a-z alone. *)
Definition upper_char (c : ascii) : ascii :=
  if is_lower c then ascii_of_nat (code c - 32) else c.

Definition toUpperCase (s : jsstring) : jsstring := map upper_char s.

Fixpoint trim_start (s : jsstring) : jsstring :=
  match s with
  | c :: r => if is_space c then trim_start r else s
  | [] => []
  end.

Fixpoint trim_end (s : jsstring) : jsstring :=
  match s with
  | [] => []
  | c :: r =>
      match trim_end r with
      | [] => if is_space c then [] else [c]
      | r' => c :: r'
      end
  end.

Definition trim (s : jsstring) : jsstring := trim_end (trim_start s).

(** [s.replace(/\s+/g, ' ')]: every maximal run of white space becomes one
    space; [in_run] records that the previous character was white space. *)
Fixpoint collapse_spaces (in_run : bool) (s : jsstring) : jsstring :=
  match s with
  | [] => []
  | c :: r =>
      if is_space c
      then (if in_run then collapse_spaces true r
            else " "%char :: collapse_spaces true r)
      else c :: collapse_spaces false r
  end.

Definition chr_eqb (a b : ascii) : bool := Ascii.eqb a b.

Fixpoint streq (a b : jsstring) : bool :=
  match a, b with
  | [], [] => true
  | x :: a', y :: b' => chr_eqb x y && streq a' b'
  | _, _ => false
  end.

Fixpoint starts_with (p s : jsstring) : bool :=
  match p, s with
  | [], _ => true
  | x :: p', y :: s' => chr_eqb x y && starts_with p' s'
  | _ :: _, [] => false
  end.

(** [s.includes(sub)] *)
Fixpoint includes (s sub : jsstring) : bool :=
  starts_with sub s ||
  match s with
  | [] => false
  | _ :: r => includes r sub
  end.

(** [s.split(' ')]: never the empty array; the empty string gives [[""]]. *)
Fixpoint split_space (s : jsstring) : list jsstring :=
  match s with
  | [] => [[]]
  | c :: r =>
      if chr_eqb c " "%char then [] :: split_space r
      else match split_space r with
           | w :: ws => (c :: w) :: ws
           | [] => [[c]]
           end
  end.

(** [Array.prototype.includes] on an array of strings. *)
Definition array_includes (ws : list jsstring) (w : jsstring) : bool :=
  existsb (streq w) ws.

(** Truthiness of an optional string: [undefined] and [""] are falsy. *)
Definition truthy (s : option jsstring) : bool :=
  match s with
  | Some (_ :: _) => true
  | _ => false
  end.

End JS.

Import JS.

Coercion js : string >-> jsstring.

(** ** mapping.service.ts *)

Module Mapping.

Record TravellerInfo := {
  traveller_id : jsstring;
  traveller_name : jsstring
}.

Definition normalize (name : jsstring) : jsstring :=
  collapse_spaces false (trim (toLowerCase name)).

Definition fuzzy_match_name (name1 name2 : jsstring) : Q :=
  let n1 := normalize name1 in
  let n2 := normalize name2 in
  if streq n1 n2 then 1%Q
  else if includes n1 n2 || includes n2 n1 then (8 # 10)%Q
  else
    let words1 := split_space n1 in
    let words2 := split_space n2 in
    let common_words := filter (array_includes words2) words1 in
    let total_words := Nat.max (length words1) (length words2) in
    if total_words =? 0 then 0%Q
    else (Z.of_nat (length common_words) # Pos.of_nat total_words)%Q.

Definition threshold : Q := (6 # 10)%Q.

(** [score > best_match.score] *)
Definition Qgtb (a b : Q) : bool := negb (Qle_bool a b).

(** One turn of the [for ... of travellers] loop. *)
Definition consider (extracted_name : jsstring)
    (best_match : option (jsstring * Q)) (traveller : TravellerInfo)
    : option (jsstring * Q) :=
  let score := fuzzy_match_name extracted_name (traveller_name traveller) in
  if Qle_bool threshold score &&
     match best_match with
     | None => true
     | Some (_, best) => Qgtb score best
     end
  then Some (traveller_id traveller, score)
  else best_match.

Definition map_ticket_to_passenger (extracted_name : option jsstring)
    (travellers : list TravellerInfo) : option jsstring :=
  match extracted_name with
  | Some name =>
      if negb (truthy extracted_name) || (length travellers =? 0) then None
      else
        match fold_left (consider name) travellers None with
        | Some (id, _) => Some id
        | None => None
        end
  | None => None
  end.

End Mapping.

(** ** Regular expressions

    A backtracking matcher in continuation-passing style for the fragment
    of ECMAScript regular expressions the services use: alternatives are
    tried left to right, quantifiers are greedy or lazy, and the first
    success in that order is the match.  No pattern of the program has a
    capture group under a quantifier, so captures are never reset. *)

Module Regex.

Inductive regex :=
| Eps
| Chr (p : ascii -> bool)
| Cat (r1 r2 : regex)
| Alt (r1 r2 : regex)
| Rep (r : regex) (min : nat) (max : option nat) (greedy : bool)
| Grp (n : nat) (r : regex)
| Bound
| Bol
| Eol
| NotAhead (r : regex).

Record mstate := {
  prev : option ascii;
  rest : jsstring;
  caps : list (nat * jsstring)
}.

Definition cont := mstate -> option mstate.

Definition word_before (st : mstate) : bool :=
  match prev st with Some c => is_word c | None => false end.

Definition word_after (st : mstate) : bool :=
  match rest st with c :: _ => is_word c | [] => false end.

Definition dec (max : option nat) : option nat :=
  match max with Some n => Some (pred n) | None => None end.

Definition exhausted (max : option nat) : bool :=
  match max with Some 0 => true | _ => false end.

Definition consumed (st st' : mstate) : jsstring :=
  firstn (length (rest st) - length (rest st')) (rest st).

(** Quantifier loop: [min] compulsory turns, then optional ones up to
    [max]; an optional turn that consumes nothing is rejected, as in the
    language definition. *)
Fixpoint rep (body : mstate -> cont -> option mstate) (fuel min : nat)
    (max : option nat) (greedy : bool) (st : mstate) (k : cont)
    : option mstate :=
  match fuel with
  | 0 => None
  | S fuel' =>
      match min with
      | S min' =>
          body st (fun st' => rep body fuel' min' (dec max) greedy st' k)
      | 0 =>
          if exhausted max then k st
          else if greedy then
            match body st (fun st' =>
                    if length (rest st') <? length (rest st)
                    then rep body fuel' 0 (dec max) greedy st' k
                    else None) with
            | Some r => Some r
            | None => k st
            end
          else
            match k st with
            | Some r => Some r
            | None =>
                body st (fun st' =>
                  if length (rest st') <? length (rest st)
                  then rep body fuel' 0 (dec max) greedy st' k
                  else None)
            end
      end
  end.

Fixpoint m (r : regex) (st : mstate) (k : cont) {struct r} : option mstate :=
  match r with
  | Eps => k st
  | Chr p =>
      match rest st with
      | c :: s =>
          if p c then k {| prev := Some c; rest := s; caps := caps st |}
          else None
      | [] => None
      end
  | Cat r1 r2 => m r1 st (fun st' => m r2 st' k)
  | Alt r1 r2 =>
      match m r1 st k with
      | Some res => Some res
      | None => m r2 st k
      end
  | Rep r0 min max greedy =>
      rep (m r0) (S (min + length (rest st))) min max greedy st k
  | Grp n r0 =>
      m r0 st (fun st' =>
        k {| prev := prev st'; rest := rest st';
             caps := (n, consumed st st') :: caps st' |})
  | Bound => if xorb (word_before st) (word_after st) then k st else None
  | Bol => match prev st with None => k st | Some _ => None end
  | Eol => match rest st with [] => k st | _ :: _ => None end
  | NotAhead r0 =>
      match m r0 st Some with
      | Some _ => None
      | None => k st
      end
  end.

(** A match object: [index], [match[0]] and the numbered groups. *)
Record rmatch := {
  index : nat;
  matched : jsstring;
  groups : list (nat * jsstring)
}.

Fixpoint assoc (n : nat) (l : list (nat * jsstring)) : option jsstring :=
  match l with
  | [] => None
  | (i, s) :: l' => if i =? n then Some s else assoc n l'
  end.

(** [match[n]], [undefined] when the group did not take part. *)
Definition group (n : nat) (mt : rmatch) : option jsstring :=
  assoc n (groups mt).

Definition char_before (text : jsstring) (i : nat) : option ascii :=
  match i with
  | 0 => None
  | S j => nth_error text j
  end.

Definition match_at (r : regex) (text : jsstring) (i : nat) : option rmatch :=
  let suffix := skipn i text in
  match m r {| prev := char_before text i; rest := suffix; caps := [] |}
          Some with
  | Some st' =>
      Some {| index := i;
              matched := firstn (length suffix - length (rest st')) suffix;
              groups := caps st' |}
  | None => None
  end.

Fixpoint search_from (fuel : nat) (r : regex) (text : jsstring) (i : nat)
    : option rmatch :=
  match fuel with
  | 0 => None
  | S fuel' =>
      match match_at r text i with
      | Some mt => Some mt
      | None =>
          if i <? length text then search_from fuel' r text (S i) else None
      end
  end.

(** [RegExp.prototype.exec] with [lastIndex = i]. *)
Definition exec_from (r : regex) (text : jsstring) (i : nat) : option rmatch :=
  if length text <? i then None
  else search_from (S (length text - i)) r text i.

(** [text.match(r)] for a regular expression without the [g] flag. *)
Definition str_match (r : regex) (text : jsstring) : option rmatch :=
  exec_from r text 0.

Fixpoint match_all_from (fuel : nat) (r : regex) (text : jsstring) (i : nat)
    : list rmatch :=
  match fuel with
  | 0 => []
  | S fuel' =>
      match exec_from r text i with
      | None => []
      | Some mt =>
          let last_index := index mt + length (matched mt) in
          mt :: match_all_from fuel' r text
                  (match matched mt with
                   | [] => S last_index
                   | _ :: _ => last_index
                   end)
      end
  end.

(** [text.matchAll(r)] for a regular expression with the [g] flag. *)
Definition matchAll (r : regex) (text : jsstring) : list rmatch :=
  match_all_from (S (length text)) r text 0.

(** *** Building patterns *)

Definition ci_char (l : ascii) : regex :=
  Chr (fun c => chr_eqb (upper_char c) (upper_char l)).

Definition cs_char (l : ascii) : regex := Chr (chr_eqb l).

Fixpoint seq (rs : list regex) : regex :=
  match rs with
  | [] => Eps
  | [r] => r
  | r :: rs' => Cat r (seq rs')
  end.

Fixpoint alt (rs : list regex) : regex :=
  match rs with
  | [] => NotAhead Eps
  | [r] => r
  | r :: rs' => Alt r (alt rs')
  end.

(** A literal under the [i] flag and a case-sensitive one. *)
Definition liti (s : string) : regex := seq (map ci_char (js s)).
Definition lit (s : string) : regex := seq (map cs_char (js s)).

Definition star (r : regex) : regex := Rep r 0 None true.
Definition plus (r : regex) : regex := Rep r 1 None true.
Definition opt (r : regex) : regex := Rep r 0 (Some 1) true.
Definition times (lo hi : nat) (r : regex) : regex := Rep r lo (Some hi) true.
Definition lazy_times (lo hi : nat) (r : regex) : regex :=
  Rep r lo (Some hi) false.

Definition one_of (s : string) (c : ascii) : bool :=
  existsb (chr_eqb c) (js s).

Definition digit : regex := Chr is_digit.
Definition space : regex := Chr is_space.
(** [[A-Z]] or [[a-z]] under the [i] flag, and [[A-Za-z]]. *)
Definition letter : regex := Chr is_alpha.
(** [[A-Z]] without the [i] flag. *)
Definition capital : regex := Chr is_upper.
(** [[A-Z0-9]] under the [i] flag. *)
Definition alnum : regex := Chr (fun c => is_alpha c || is_digit c).

End Regex.

(** ** Results shared by the three extractors *)

Inductive Status := success | error_status | invalid.

(** A thrown value: an [Error] with its message, or anything else. *)
Inductive exn :=
| JsError (message : jsstring)
| Thrown.

(** [error instanceof Error ? error.message : 'Unknown error'] *)
Definition message_of (e : exn) : jsstring :=
  match e with
  | JsError msg => msg
  | Thrown => js "Unknown error"
  end.

Record OCRResult (D : Type) := {
  status : Status;
  data : option D;
  error : option jsstring;
  raw_text : option jsstring
}.

Arguments status {D} _.
Arguments data {D} _.
Arguments error {D} _.
Arguments raw_text {D} _.

(** [for (const x of xs) { ...; if (...) { ...; break; } }] computing one
    value: the first element for which the body produces it. *)
Fixpoint first_of {A B : Type} (f : A -> option B) (xs : list A) : option B :=
  match xs with
  | [] => None
  | x :: xs' =>
      match f x with
      | Some y => Some y
      | None => first_of f xs'
      end
  end.

(** ** flight.service.ts *)

Module Flight.

Import Regex.

Record FlightData := {
  passenger_name : option jsstring;
  flight_number : option jsstring;
  pnr : option jsstring;
  departure_date : option jsstring;
  departure_time : option jsstring;
  arrival_date : option jsstring;
  arrival_time : option jsstring;
  departure_airport : option jsstring;
  arrival_airport : option jsstring;
  from : option jsstring;
  to : option jsstring;
  airline : option jsstring
}.

Definition FlightOCRResult := OCRResult FlightData.

Definition flight_keywords : list jsstring :=
  [ js "pnr"; js "booking reference"; js "flight"; js "airline";
    js "departure"; js "arrival"; js "passenger"; js "ticket";
    js "boarding"; js "gate"; js "seat"; js "airport" ].

Definition validate_flight_ticket (text : jsstring) : bool :=
  let lower_text := toLowerCase text in
  let found_keywords := filter (includes lower_text) flight_keywords in
  3 <=? length found_keywords.

(** *** The patterns of [extract_flight_data] *)

Definition colon_or_space (c : ascii) : bool := chr_eqb c ":" || is_space c.
Definition space_or_dot (c : ascii) : bool := is_space c || chr_eqb c ".".
Definition alpha_or_space (c : ascii) : bool := is_alpha c || is_space c.

(** [/(?:pnr|booking\s+reference)[:\s]*([A-Z0-9]{6})/i] and
    [/\b([A-Z0-9]{6})\b(?!\s*(?:hrs|hours|pm|am))/i] *)
Definition pnr_patterns : list regex :=
  [ seq [ alt [liti "pnr"; seq [liti "booking"; plus space; liti "reference"]];
          star (Chr colon_or_space);
          Grp 1 (times 6 6 alnum) ];
    seq [ Bound; Grp 1 (times 6 6 alnum); Bound;
          NotAhead
            (seq [ star space;
                   alt [liti "hrs"; liti "hours"; liti "pm"; liti "am"] ]) ] ].

(** [[A-Z][a-z]+] under the [i] flag *)
Definition name_word : regex := seq [letter; plus letter].
(** [[A-Z][a-z]+(?:\s+[A-Z][a-z]+)+] *)
Definition full_name : regex :=
  seq [name_word; plus (seq [plus space; name_word])].
(** [(?:Mr|Ms|Mrs|Miss|Dr)] *)
Definition title : regex :=
  alt [liti "Mr"; liti "Ms"; liti "Mrs"; liti "Miss"; liti "Dr"].

Definition name_patterns : list regex :=
  [ seq [title; plus (Chr space_or_dot); Grp 1 full_name];
    seq [ liti "passenger"; plus space; liti "information"; plus space;
          opt (seq [name_word; plus space]); Grp 1 full_name ];
    seq [ alt [liti "passenger"; liti "name"]; plus (Chr colon_or_space);
          Grp 1 full_name ] ].

Definition false_positives : list jsstring :=
  [ js "Information"; js "Booking Reference"; js "Payment Status";
    js "Complete"; js "Abu Dhabi"; js "Mumbai"; js "Travel Time" ].

(** [/passenger\s+information[\s\S]{0,100}?(?:Mr|Ms|Mrs|Miss|Dr)?[\s\.]*([A-Z][a-z]+\s+[A-Z][a-z]+)/i] *)
Definition name_fallback_pattern : regex :=
  seq [ liti "passenger"; plus space; liti "information";
        lazy_times 0 100 (Chr (fun _ => true));
        opt title; star (Chr space_or_dot);
        Grp 1 (seq [name_word; plus space; name_word]) ].

(** [/([A-Z]{2,3})\s*(\d{3,4})\b/i] and [/\b([A-Z]{2,3}\s?\d{3,4})\b/i] *)
Definition flight_patterns : list regex :=
  [ seq [Grp 1 (times 2 3 letter); star space; Grp 2 (times 3 4 digit); Bound];
    seq [ Bound;
          Grp 1 (seq [times 2 3 letter; opt space; times 3 4 digit]);
          Bound ] ].

(** [/^\d+$/] *)
Definition only_digits : regex := seq [Bol; plus digit; Eol].
(** [/^([A-Z]{2,3})/] *)
Definition airline_pattern : regex := seq [Bol; Grp 1 (times 2 3 capital)].

Definition months : regex :=
  alt [ liti "Jan"; liti "Feb"; liti "Mar"; liti "Apr"; liti "May";
        liti "Jun"; liti "Jul"; liti "Aug"; liti "Sep"; liti "Oct";
        liti "Nov"; liti "Dec" ].

(** [/(\d{1,2})\s+(Jan|...|Dec)[a-z]*\s+(\d{4})/gi] *)
Definition named_date_pattern : regex :=
  seq [ Grp 1 (times 1 2 digit); plus space; Grp 2 months; star letter;
        plus space; Grp 3 (times 4 4 digit) ].

(** [/(\d{1,2})[\/\-](\d{1,2})[\/\-](\d{2,4})/g] *)
Definition numeric_date_pattern : regex :=
  seq [ Grp 1 (times 1 2 digit); Chr (one_of "/-");
        Grp 2 (times 1 2 digit); Chr (one_of "/-");
        Grp 3 (times 2 4 digit) ].

Definition date_patterns : list regex :=
  [named_date_pattern; numeric_date_pattern].

(** [/(\d{1,2}):(\d{2})\s*(?:hrs|hours|am|pm)?/gi] *)
Definition time_patterns : list regex :=
  [ seq [ Grp 1 (times 1 2 digit); cs_char ":"; Grp 2 (times 2 2 digit);
          star space;
          opt (alt [liti "hrs"; liti "hours"; liti "am"; liti "pm"]) ] ].

Definition airport_suffix : regex :=
  alt [liti "Airport"; liti "International Airport"].

(** The three airport patterns, each recompiled with the flags [gi]. *)
Definition airport_patterns : list regex :=
  [ seq [ Grp 1 (times 3 3 letter); plus space; cs_char "-"; plus space;
          Grp 2 (seq [plus (Chr alpha_or_space); airport_suffix]) ];
    seq [ Grp 1 (times 3 3 letter); plus space; liti "to"; plus space;
          Grp 2 (times 3 3 letter) ];
    seq [ Grp 1 (times 3 3 letter); plus space; cs_char "-"; plus space;
          Grp 2 (plus (Chr alpha_or_space)) ] ].

(** [/([A-Z][a-zA-Z\s]+(?:Airport|International Airport))/g] *)
Definition airport_name_patterns : list regex :=
  [ Grp 1 (seq [ capital; plus (Chr alpha_or_space);
                 alt [lit "Airport"; lit "International Airport"] ]) ].

(** [s.replace(/\s/g, '')] *)
Definition remove_spaces (s : jsstring) : jsstring :=
  filter (fun c => negb (is_space c)) s.

Definition nonempty (s : jsstring) : bool :=
  match s with [] => false | _ :: _ => true end.

(** [a || b] on strings *)
Definition or_else (a : option jsstring) (b : option jsstring)
    : option jsstring :=
  if truthy a then a else b.

Definition extract_pnr (text : jsstring) : option jsstring :=
  first_of (fun pattern =>
    match str_match pattern text with
    | Some mt =>
        match group 1 mt with
        | Some g =>
            if nonempty g && (length g =? 6) then Some (toUpperCase g)
            else None
        | None => None
        end
    | None => None
    end) pnr_patterns.

Definition extract_passenger_name (text : jsstring) : option jsstring :=
  let labelled :=
    first_of (fun pattern =>
      match str_match pattern text with
      | Some mt =>
          match group 1 mt with
          | Some (c :: g) =>
              let name := trim (c :: g) in
              if negb (existsb (includes name) false_positives)
              then Some name else None
          | _ => None
          end
      | None => None
      end) name_patterns in
  if truthy labelled then labelled
  else
    match str_match name_fallback_pattern text with
    | Some mt =>
        match group 1 mt with
        | Some (c :: g) => Some (trim (c :: g))
        | _ => labelled
        end
    | None => labelled
    end.

Definition extract_flight_number (text : jsstring) : option jsstring :=
  first_of (fun pattern =>
    match str_match pattern text with
    | Some mt =>
        let flight_num := toUpperCase (remove_spaces (matched mt)) in
        match str_match only_digits flight_num with
        | None => if 4 <=? length flight_num then Some flight_num else None
        | Some _ => None
        end
    | None => None
    end) flight_patterns.

Definition extract_airline (flight_number : option jsstring)
    : option jsstring :=
  match flight_number with
  | Some (c :: fn) =>
      match str_match airline_pattern (c :: fn) with
      | Some mt => group 1 mt
      | None => None
      end
  | _ => None
  end.

(** The loop [for (const pattern of patterns) for (const match of
    text.matchAll(pattern)) if (match[0]) out.push(...)]: the matches it
    keeps, in the order it pushes them. *)
Definition kept (mt : rmatch) : bool := nonempty (matched mt).

Definition collect (patterns : list regex) (text : jsstring) : list rmatch :=
  flat_map (fun pattern => filter kept (matchAll pattern text)) patterns.

Definition extract_dates (text : jsstring) : list jsstring :=
  map matched (collect date_patterns text).

Definition extract_times (text : jsstring) : list jsstring :=
  map (fun mt => trim (matched mt)) (collect time_patterns text).

Record airport := { code : jsstring; name : jsstring }.

Definition airport_matches (text : jsstring) : list airport :=
  flat_map (fun pattern =>
    flat_map (fun mt =>
      match group 1 mt, group 2 mt with
      | Some (c :: g1), Some (d :: g2) =>
          [ {| code := toUpperCase (c :: g1); name := trim (d :: g2) |} ]
      | _, _ => []
      end) (matchAll pattern text)) airport_patterns.

(** The fallback list of bare airport names, without repetition. *)
Definition airport_names (text : jsstring) : list jsstring :=
  fold_left (fun airports mt =>
    match group 1 mt with
    | Some (c :: g) =>
        if negb (array_includes airports (c :: g))
        then airports ++ [trim (c :: g)] else airports
    | _ => airports
    end)
    (flat_map (fun pattern => matchAll pattern text) airport_name_patterns)
    [].

Definition extract_flight_data (text : jsstring) : FlightData :=
  let pnr := extract_pnr text in
  let passenger_name := extract_passenger_name text in
  let flight_number := extract_flight_number text in
  let airline := extract_airline flight_number in
  let dates := extract_dates text in
  let times := extract_times text in
  let found := airport_matches text in
  let departure := nth_error found 0 in
  let arrival := nth_error found 1 in
  let from1 :=
    match departure with
    | Some a => or_else (Some (name a)) (Some (code a))
    | None => None
    end in
  let to1 :=
    match arrival with
    | Some a => or_else (Some (name a)) (Some (code a))
    | None => None
    end in
  let airports :=
    if negb (truthy from1) || negb (truthy to1)
    then airport_names text else [] in
  {| passenger_name := passenger_name;
     flight_number := flight_number;
     pnr := pnr;
     departure_date := nth_error dates 0;
     departure_time := nth_error times 0;
     arrival_date := nth_error dates 1;
     arrival_time := nth_error times 1;
     departure_airport := option_map code departure;
     arrival_airport := option_map code arrival;
     from := if truthy from1 then from1
             else match nth_error airports 0 with
                  | Some a => Some a
                  | None => from1
                  end;
     to := if truthy to1 then to1
           else match nth_error airports 1 with
                | Some a => Some a
                | None => to1
                end;
     airline := airline |}.

(** [process_flight_ocr], from the point where the download and the
    recognition engine have answered: [recognised] is the recognised text,
    or the exception raised on the way. *)
Definition process_flight_ocr (recognised : exn + jsstring) : FlightOCRResult :=
  match recognised with
  | inr text =>
      if negb (validate_flight_ticket text) then
        {| status := invalid;
           data := None;
           error := Some (js "Text does not contain flight ticket information");
           raw_text := Some text |}
      else
        {| status := success;
           data := Some (extract_flight_data text);
           error := None;
           raw_text := Some text |}
  | inl e =>
      {| status := error_status;
         data := None;
         error := Some (message_of e);
         raw_text := None |}
  end.

End Flight.

(** ** hotel.service.ts *)

Module Hotel.

Import Regex.

Record HotelData := {
  guest_name : option jsstring;
  hotel_name : option jsstring;
  booking_reference : option jsstring;
  confirmation_code : option jsstring;
  check_in_date : option jsstring;
  check_in_time : option jsstring;
  check_out_date : option jsstring;
  check_out_time : option jsstring;
  place : option jsstring;
  address : option jsstring
}.

Definition HotelOCRResult := OCRResult HotelData.

Definition hotel_keywords : list jsstring :=
  [ js "hotel"; js "booking"; js "reservation"; js "check-in";
    js "check-out"; js "check in"; js "check out"; js "guest"; js "room";
    js "accommodation"; js "confirmation"; js "villa"; js "host" ].

Definition validate_hotel_booking (text : jsstring) : bool :=
  let lower_text := toLowerCase text in
  let found_keywords := filter (includes lower_text) hotel_keywords in
  3 <=? length found_keywords.

(** *** The patterns of [extract_hotel_data] *)

Definition colon_or_space (c : ascii) : bool := chr_eqb c ":" || is_space c.
Definition dot_or_space (c : ascii) : bool := chr_eqb c "." || is_space c.
Definition alnum_or_space (c : ascii) : bool :=
  is_alpha c || is_digit c || is_space c.
(** [[a-zA-Z\s&]], [[a-zA-Z\s,]] and [[a-zA-Z\s]] *)
Definition name_char (c : ascii) : bool :=
  is_alpha c || is_space c || chr_eqb c "&".
Definition list_char (c : ascii) : bool :=
  is_alpha c || is_space c || chr_eqb c ",".
Definition alpha_or_space (c : ascii) : bool := is_alpha c || is_space c.

(** [(?:Villa|Hotel|Resort|Lodge|Inn|Suites|Palace)] *)
Definition lodging : regex :=
  alt [ liti "Villa"; liti "Hotel"; liti "Resort"; liti "Lodge"; liti "Inn";
        liti "Suites"; liti "Palace" ].

(** [/^([A-Za-z0-9\s]+(?:Villa|...|Palace))[\.\s]/i],
    [/([A-Z][a-zA-Z\s&]+(?:Villa|...|Palace))/i] and
    [/hotel[:\s]+([A-Z][a-zA-Z\s&]+)/i] *)
Definition hotel_patterns : list regex :=
  [ seq [ Bol; Grp 1 (seq [plus (Chr alnum_or_space); lodging]);
          Chr dot_or_space ];
    Grp 1 (seq [letter; plus (Chr name_char); lodging]);
    seq [ liti "hotel"; plus (Chr colon_or_space);
          Grp 1 (seq [letter; plus (Chr name_char)]) ] ].

(** [[A-Z0-9]{6,12}] under the [i] flag *)
Definition code6 : regex := times 6 12 alnum.

Definition confirmation_patterns : list regex :=
  [ seq [ liti "confirmation"; plus space; liti "code";
          plus (Chr colon_or_space); Grp 1 code6 ];
    seq [ liti "booking"; plus space; liti "reference";
          plus (Chr colon_or_space); Grp 1 code6 ];
    seq [ liti "reservation"; plus space; liti "id";
          plus (Chr colon_or_space); Grp 1 code6 ];
    seq [ Bound; Grp 1 (times 8 12 alnum); Bound;
          NotAhead (seq [ star space;
                          alt [liti "paid"; liti "amount"; liti "guests"] ]) ] ].

(** [check[- ]?in] and [check[- ]?out] *)
Definition check (what : string) : regex :=
  seq [liti "check"; opt (Chr (one_of "- ")); liti what].

Definition meridiem : regex := alt [liti "AM"; liti "PM"].

(** [(\d{1,2}):(\d{2})\s*(AM|PM)] with groups [n], [n+1], [n+2] *)
Definition clock (n : nat) : regex :=
  seq [ Grp n (times 1 2 digit); cs_char ":"; Grp (n + 1) (times 2 2 digit);
        star space; Grp (n + 2) meridiem ].

(** [([A-Za-z]{3}),\s+([A-Za-z]{3})\s+(\d{1,2})] with groups [n], [n+1],
    [n+2] *)
Definition day_date (n : nat) : regex :=
  seq [ Grp n (times 3 3 letter); cs_char ","; plus space;
        Grp (n + 1) (times 3 3 letter); plus space;
        Grp (n + 2) (times 1 2 digit) ].

Definition check_in_time_pattern : regex :=
  seq [check "in"; star (Chr colon_or_space); clock 1].

Definition check_in_patterns : list regex :=
  [ check_in_time_pattern;
    seq [check "in"; star (Chr colon_or_space); day_date 1];
    seq [clock 1; plus space; day_date 4] ].

Definition check_out_patterns : list regex :=
  [ seq [check "out"; star (Chr colon_or_space); clock 1];
    seq [check "out"; star (Chr colon_or_space); day_date 1] ].

(** [/(\d{1,2}):(\d{2})\s*(AM|PM)\s+(\d{1,2}):(\d{2})\s*(AM|PM)/i] *)
Definition times_pattern : regex := seq [clock 1; plus space; clock 4].

Definition place_patterns : list regex :=
  [ seq [ liti "address"; plus (Chr colon_or_space);
          Grp 1 (seq [ letter; plus (Chr list_char);
                       alt [ liti "Emirates"; liti "Country"; liti "State";
                             liti "City" ] ]) ];
    Grp 1 (seq [ letter; plus (Chr alpha_or_space);
                 alt [ liti "Hills"; liti "City"; liti "Dubai";
                       liti "Abu Dhabi"; liti "Emirates" ] ]);
    Grp 1 (seq [ letter; plus (Chr list_char);
                 alt [ liti "United Arab Emirates"; liti "UAE"; liti "USA";
                       liti "UK" ] ]) ].

(** [/who'?s\s+coming[\s\n]+([A-Za-z\s,]+(?:Patel|Doe|Smith|etc))/i] and
    [/guests?[:\s]+([A-Za-z\s,]+)/i] *)
Definition guest_patterns : list regex :=
  [ seq [ liti "who"; opt (cs_char "'"); liti "s"; plus space; liti "coming";
          plus space;
          Grp 1 (seq [ plus (Chr list_char);
                       alt [liti "Patel"; liti "Doe"; liti "Smith"; liti "etc"] ]) ];
    seq [ liti "guest"; opt (liti "s"); plus (Chr colon_or_space);
          Grp 1 (plus (Chr list_char)) ] ].

(** [match[n]] as a string in a template literal. *)
Definition part (n : nat) (mt : rmatch) : jsstring :=
  match group n mt with Some g => g | None => js "undefined" end.

(** [`${match[n]}:${match[n+1]} ${match[n+2]}`] *)
Definition clock_text (n : nat) (mt : rmatch) : jsstring :=
  part n mt ++ js ":" ++ part (n + 1) mt ++ js " " ++ part (n + 2) mt.

(** [`${match[n]}, ${match[n+1]} ${match[n+2]}`] *)
Definition date_text (n : nat) (mt : rmatch) : jsstring :=
  part n mt ++ js ", " ++ part (n + 1) mt ++ js " " ++ part (n + 2) mt.

(** [s.replace(/\.$/, '')] *)
Fixpoint drop_final_dot (s : jsstring) : jsstring :=
  match s with
  | [] => []
  | [c] => if chr_eqb c "." then [] else [c]
  | c :: r => c :: drop_final_dot r
  end.

(** [s.split(',')[0]] *)
Fixpoint before_comma (s : jsstring) : jsstring :=
  match s with
  | [] => []
  | c :: r => if chr_eqb c "," then [] else c :: before_comma r
  end.

Definition extract_hotel_name (text : jsstring) : option jsstring :=
  first_of (fun pattern =>
    match str_match pattern text with
    | Some mt =>
        match group 1 mt with
        | Some (c :: g) => Some (drop_final_dot (trim (c :: g)))
        | _ => None
        end
    | None => None
    end) hotel_patterns.

Definition extract_confirmation_code (text : jsstring) : option jsstring :=
  first_of (fun pattern =>
    match str_match pattern text with
    | Some mt =>
        match group 1 mt with
        | Some (c :: g) => Some (toUpperCase (c :: g))
        | _ => None
        end
    | None => None
    end) confirmation_patterns.

(** The check-in loop: time and date found at the first pattern that
    matches. *)
Definition extract_check_in (text : jsstring)
    : option jsstring * option jsstring :=
  match first_of (fun pattern => str_match pattern text) check_in_patterns with
  | Some _ =>
      (option_map (clock_text 1) (str_match check_in_time_pattern text),
       option_map (date_text 1) (str_match (day_date 1) text))
  | None => (None, None)
  end.

(** The check-out loop, which has no [break]. *)
Definition extract_check_out_time (text : jsstring) : option jsstring :=
  fold_left (fun check_out_time pattern =>
    match str_match pattern text with
    | Some mt =>
        if truthy (group 1 mt) && truthy (group 2 mt) && truthy (group 3 mt)
           && (length (part 1 mt) <=? 2)
        then Some (clock_text 1 mt) else check_out_time
    | None => check_out_time
    end) check_out_patterns None.

Definition extract_place (text : jsstring) : option jsstring :=
  first_of (fun pattern =>
    match str_match pattern text with
    | Some mt =>
        match group 1 mt with
        | Some (c :: g) =>
            let place := trim (c :: g) in
            if negb (includes (toLowerCase place) (js "villa")) &&
               negb (includes (toLowerCase place) (js "hotel"))
            then Some place else None
        | _ => None
        end
    | None => None
    end) place_patterns.

(** The guest loop stops at the first pattern whose group is not empty,
    whether or not a first guest comes out of it. *)
Definition extract_guest_name (text : jsstring) : option jsstring :=
  match
    first_of (fun pattern =>
      match str_match pattern text with
      | Some mt =>
          match group 1 mt with
          | Some (c :: g) => Some (trim (before_comma (trim (c :: g))))
          | _ => None
          end
      | None => None
      end) guest_patterns
  with
  | Some (c :: first_guest) => Some (c :: first_guest)
  | _ => None
  end.

Definition extract_hotel_data (text : jsstring) : HotelData :=
  let hotel_name := extract_hotel_name text in
  let confirmation_code := extract_confirmation_code text in
  let '(check_in_time, check_in_date) := extract_check_in text in
  let check_out_time := extract_check_out_time text in
  let dates_array := map (date_text 1) (matchAll (day_date 1) text) in
  let times_match := str_match times_pattern text in
  {| guest_name := extract_guest_name text;
     hotel_name := hotel_name;
     booking_reference := confirmation_code;
     confirmation_code := confirmation_code;
     check_in_date :=
       if truthy check_in_date then check_in_date
       else match nth_error dates_array 0 with
            | Some d => Some d
            | None => check_in_date
            end;
     check_in_time :=
       if truthy check_in_time then check_in_time
       else match times_match with
            | Some mt => Some (clock_text 1 mt)
            | None => check_in_time
            end;
     check_out_date := nth_error dates_array 1;
     check_out_time :=
       if truthy check_out_time then check_out_time
       else match times_match with
            | Some mt => Some (clock_text 4 mt)
            | None => check_out_time
            end;
     place := extract_place text;
     address := extract_place text |}.

(** [process_hotel_ocr], from the point where the download and the
    recognition engine have answered. *)
Definition process_hotel_ocr (recognised : exn + jsstring) : HotelOCRResult :=
  match recognised with
  | inr text =>
      if negb (validate_hotel_booking text) then
        {| status := invalid;
           data := None;
           error := Some (js "Text does not contain hotel booking information");
           raw_text := Some text |}
      else
        {| status := success;
           data := Some (extract_hotel_data text);
           error := None;
           raw_text := Some text |}
  | inl e =>
      {| status := error_status;
         data := None;
         error := Some (message_of e);
         raw_text := None |}
  end.

End Hotel.

(** ** passport.service.ts *)

Module Passport.

(** The field set returned for a passport: the seven named fields and the
    pass-through of the remaining fields of the verification response. *)
Record PassportData := {
  full_name : option jsstring;
  passport_number : option jsstring;
  date_of_birth : option jsstring;
  expiry_date : option jsstring;
  nationality : option jsstring;
  place_of_birth : option jsstring;
  gender : option jsstring;
  others : list (jsstring * jsstring)
}.

Definition PassportOCRResult := OCRResult PassportData.

(** [process_passport_ocr], from the point where the two downloads and the
    verification service have answered: [answer] is the mapped field set,
    or the exception raised on the way (a failed download, a response that
    is not 2xx).  The [raw_result] copy of a success is not kept. *)
Definition process_passport_ocr (answer : exn + PassportData)
    : PassportOCRResult :=
  match answer with
  | inr extracted_data =>
      {| status := success;
         data := Some extracted_data;
         error := None;
         raw_text := None |}
  | inl e =>
      {| status := error_status;
         data := None;
         error := Some (message_of e);
         raw_text := None |}
  end.

End Passport.

(** ** process.router.ts and config/redis.ts *)

Inductive TicketType := passport | flight | hotel.

Inductive ProgressStatus := processing | mapped | failed.

Inductive OcrStatus := COMPLETED | FAILED.

Inductive ExtractedData :=
| PassportFields (d : Passport.PassportData)
| FlightFields (d : Flight.FlightData)
| HotelFields (d : Hotel.HotelData).

Inductive AnyResult :=
| PassportResult (r : Passport.PassportOCRResult)
| FlightResult (r : Flight.FlightOCRResult)
| HotelResult (r : Hotel.HotelOCRResult).

Module Payload.
Record DocumentPayload := {
  traveller_id : jsstring;
  traveller_name : jsstring;
  document_id : jsstring;
  file_url : jsstring;
  document_type : jsstring
}.
End Payload.

(** The argument of [publish_progress]; the [timestamp] added to the
    message is the wall clock and is left out. *)
Module Progress.
Record ProgressEvent := {
  order_id : jsstring;
  traveller_id : jsstring;
  traveller_name : jsstring;
  document_id : jsstring;
  document_type : TicketType;
  status : ProgressStatus;
  extracted_data : option ExtractedData;
  error : option jsstring
}.
End Progress.

(** The body posted to [/order/{order_id}/ocr-results]. *)
Module Webhook.
Record Body := {
  traveller_id : jsstring;
  ticket_type : TicketType;
  passport_front_doc_id : option jsstring;
  passport_back_doc_id : option jsstring;
  document_id : option jsstring;
  ocr_status : OcrStatus;
  ocr_extracted_data : AnyResult;
  mapped_to_traveller_id : option jsstring
}.
End Webhook.

Module Router.

Import Payload.

(** What the service does to the outside world, in order: a call of the
    Redis client's [publish] with its outcome, and a POST to the main
    backend (whose answer is only logged). *)
Inductive Effect :=
| Publish (channel : jsstring) (message : Progress.ProgressEvent)
          (delivered : bool)
| Post (url : jsstring) (body : Webhook.Body).

Record World := {
  publishes : nat;
  trace : list Effect
}.

(** A computation that may throw. *)
Inductive Res (A : Type) :=
| Ok (a : A)
| Raise (e : exn).

Arguments Ok {A} _.
Arguments Raise {A} _.

Definition M (A : Type) := World -> Res A * World.

Definition ret {A} (a : A) : M A := fun w => (Ok a, w).

Definition raise {A} (e : exn) : M A := fun w => (Raise e, w).

Definition bind {A B} (c : M A) (f : A -> M B) : M B :=
  fun w =>
    match c w with
    | (Ok a, w') => f a w'
    | (Raise e, w') => (Raise e, w')
    end.

(** [try { c } catch (error) { handler(error) }] *)
Definition try_catch {A} (c : M A) (handler : exn -> M A) : M A :=
  fun w =>
    match c w with
    | (Ok a, w') => (Ok a, w')
    | (Raise e, w') => handler e w'
    end.

Notation "c1 ;; c2" := (bind c1 (fun _ => c2))
  (at level 61, right associativity).

(** [for (const x of xs) { await body(x) }] *)
Fixpoint for_each {A} (body : A -> M unit) (xs : list A) : M unit :=
  match xs with
  | [] => ret tt
  | x :: xs' => body x ;; for_each body xs'
  end.

Definition emit (e : Effect) (w : World) : World :=
  {| publishes := publishes w; trace := trace w ++ [e] |}.

(** The two definitions of [publish_to_redis] in config/redis.ts: the
    first logs and rethrows, the second logs and returns. *)
Inductive RedisVersion := rethrowing | swallowing.

(** The collaborators of a run. *)
Record Env := {
  redis_version : RedisVersion;
  (** outcome of the n-th call of [publisher.publish]: resolved, or
      rejected with an exception *)
  redis : nat -> option exn;
  (** download and text recognition of the document behind a URL *)
  recognise : jsstring -> exn + jsstring;
  (** downloads, verification service and field mapping of a passport *)
  verify : jsstring -> jsstring -> exn + Passport.PassportData;
  ocr_progress_channel : jsstring;
  main_backend_url : jsstring
}.

Record PassportPair := {
  front : option DocumentPayload;
  back : option DocumentPayload
}.

(** [passport_docs], a [Map] from traveller id to pair: an association
    list in insertion order. *)
Definition PassportDocs := list (jsstring * PassportPair).

Fixpoint has (docs : PassportDocs) (id : jsstring) : bool :=
  match docs with
  | [] => false
  | (k, _) :: docs' => streq k id || has docs' id
  end.

(** Mutation of the pair stored under [id]. *)
Fixpoint update (docs : PassportDocs) (id : jsstring)
    (f : PassportPair -> PassportPair) : PassportDocs :=
  match docs with
  | [] => []
  | (k, passport_pair) :: docs' =>
      if streq k id then (k, f passport_pair) :: docs'
      else (k, passport_pair) :: update docs' id f
  end.

Record Groups := {
  passport_docs : PassportDocs;
  flight_docs : list DocumentPayload;
  hotel_docs : list DocumentPayload
}.

Definition is_type (doc : DocumentPayload) (t : string) : bool :=
  streq (document_type doc) (js t).

(** One turn of the grouping loop. *)
Definition group_step (g : Groups) (doc : DocumentPayload) : Groups :=
  if is_type doc "passport_front" || is_type doc "passport_back" then
    let docs :=
      if negb (has (passport_docs g) (traveller_id doc))
      then passport_docs g
             ++ [(traveller_id doc, {| front := None; back := None |})]
      else passport_docs g in
    {| passport_docs :=
         update docs (traveller_id doc) (fun passport_pair =>
           if is_type doc "passport_front"
           then {| front := Some doc; back := back passport_pair |}
           else {| front := front passport_pair; back := Some doc |});
       flight_docs := flight_docs g;
       hotel_docs := hotel_docs g |}
  else if is_type doc "flight" then
    {| passport_docs := passport_docs g;
       flight_docs := flight_docs g ++ [doc];
       hotel_docs := hotel_docs g |}
  else if is_type doc "hotel" then
    {| passport_docs := passport_docs g;
       flight_docs := flight_docs g;
       hotel_docs := hotel_docs g ++ [doc] |}
  else g.

Definition group_documents (documents : list DocumentPayload) : Groups :=
  fold_left group_step documents
    {| passport_docs := []; flight_docs := []; hotel_docs := [] |}.

(** [a || b] on strings and [find] on the traveller list. *)
Definition str_or (a b : jsstring) : jsstring :=
  match a with [] => b | _ :: _ => a end.

Definition opt_or (a : option jsstring) (b : jsstring) : jsstring :=
  match a with Some (c :: s) => c :: s | _ => b end.

Definition all_travellers (documents : list DocumentPayload)
    : list Mapping.TravellerInfo :=
  map (fun d => {| Mapping.traveller_id := traveller_id d;
                   Mapping.traveller_name := traveller_name d |}) documents.

Definition name_of (travellers : list Mapping.TravellerInfo)
    (id : jsstring) : option jsstring :=
  option_map Mapping.traveller_name
    (find (fun t => streq (Mapping.traveller_id t) id) travellers).

(** [result.status] of a result passed as [any]. *)
Definition any_status (r : AnyResult) : Status :=
  match r with
  | PassportResult r' => status r'
  | FlightResult r' => status r'
  | HotelResult r' => status r'
  end.

(** [result.status === 'success' ? 'COMPLETED' : 'FAILED'] *)
Definition ocr_status_of (r : AnyResult) : OcrStatus :=
  match any_status r with success => COMPLETED | _ => FAILED end.

Section Run.

Variable env : Env.

Definition publisher_publish (channel : jsstring)
    (message : Progress.ProgressEvent) : M unit :=
  fun w =>
    match redis env (publishes w) with
    | None =>
        (Ok tt, {| publishes := S (publishes w);
                   trace := trace w ++ [Publish channel message true] |})
    | Some e =>
        (Raise e, {| publishes := S (publishes w);
                     trace := trace w ++ [Publish channel message false] |})
    end.

Definition publish_to_redis (channel : jsstring)
    (message : Progress.ProgressEvent) : M unit :=
  try_catch (publisher_publish channel message)
    (fun e =>
       match redis_version env with
       | rethrowing => raise e
       | swallowing => ret tt
       end).

Definition publish_progress (channel : jsstring)
    (data : Progress.ProgressEvent) : M unit :=
  publish_to_redis channel data.

Definition results_url (order_id : jsstring) : jsstring :=
  main_backend_url env ++ js "/order/" ++ order_id ++ js "/ocr-results".

Definition update_main_backend_with_passport (order_id traveller_id
    passport_front_doc_id passport_back_doc_id : jsstring)
    (passport_result : AnyResult) : M unit :=
  fun w =>
    (Ok tt,
     emit (Post (results_url order_id)
       {| Webhook.traveller_id := traveller_id;
          Webhook.ticket_type := passport;
          Webhook.passport_front_doc_id := Some passport_front_doc_id;
          Webhook.passport_back_doc_id := Some passport_back_doc_id;
          Webhook.document_id := None;
          Webhook.ocr_status := ocr_status_of passport_result;
          Webhook.ocr_extracted_data := passport_result;
          Webhook.mapped_to_traveller_id := None |}) w).

Definition update_main_backend_with_ticket (order_id traveller_id
    document_id : jsstring) (ticket_type : TicketType)
    (ticket_result : AnyResult) : M unit :=
  fun w =>
    (Ok tt,
     emit (Post (results_url order_id)
       {| Webhook.traveller_id := traveller_id;
          Webhook.ticket_type := ticket_type;
          Webhook.passport_front_doc_id := None;
          Webhook.passport_back_doc_id := None;
          Webhook.document_id := Some document_id;
          Webhook.ocr_status := ocr_status_of ticket_result;
          Webhook.ocr_extracted_data := ticket_result;
          Webhook.mapped_to_traveller_id := Some traveller_id |}) w).

Definition progress (order_id traveller_id traveller_name document_id
    : jsstring) (document_type : TicketType) (st : ProgressStatus)
    (extracted_data : option ExtractedData) (err : option jsstring)
    : Progress.ProgressEvent :=
  {| Progress.order_id := order_id;
     Progress.traveller_id := traveller_id;
     Progress.traveller_name := traveller_name;
     Progress.document_id := document_id;
     Progress.document_type := document_type;
     Progress.status := st;
     Progress.extracted_data := extracted_data;
     Progress.error := err |}.

(** The [try] block of a passport turn. *)
Definition passport_attempt (channel order_id traveller_id : jsstring)
    (front_doc back_doc : DocumentPayload) : M unit :=
  let traveller_name := Payload.traveller_name front_doc in
  publish_progress channel
    (progress order_id traveller_id traveller_name
       (document_id front_doc) passport processing None None) ;;
  let passport_result :=
    Passport.process_passport_ocr
      (verify env (file_url front_doc) (file_url back_doc)) in
  publish_progress channel
    (progress order_id traveller_id traveller_name
       (document_id front_doc) passport
       (match status passport_result with
        | success => mapped
        | _ => failed
        end)
       (option_map PassportFields (data passport_result))
       (error passport_result)) ;;
  update_main_backend_with_passport order_id traveller_id
    (document_id front_doc) (document_id back_doc)
    (PassportResult passport_result).

(** Its [catch] block. *)
Definition passport_failed (channel order_id traveller_id : jsstring)
    (front_doc : DocumentPayload) (e : exn) : M unit :=
  publish_progress channel
    (progress order_id traveller_id
       (str_or (Payload.traveller_name front_doc) [])
       (str_or (document_id front_doc) [])
       passport failed None (Some (message_of e))).

(** The body of the loop over [passport_docs.entries()]. *)
Definition passport_unit (channel order_id : jsstring)
    (entry : jsstring * PassportPair) : M unit :=
  let '(traveller_id, passport_pair) := entry in
  match front passport_pair, back passport_pair with
  | Some front_doc, Some back_doc =>
      try_catch
        (passport_attempt channel order_id traveller_id front_doc back_doc)
        (passport_failed channel order_id traveller_id front_doc)
  | _, _ => ret tt
  end.

(** The [try] block of a flight turn. *)
Definition flight_attempt (channel order_id : jsstring)
    (documents : list DocumentPayload) (flight_doc : DocumentPayload)
    : M unit :=
  publish_progress channel
    (progress order_id (traveller_id flight_doc)
       (traveller_name flight_doc) (document_id flight_doc)
       flight processing None None) ;;
  let flight_result :=
    Flight.process_flight_ocr (recognise env (file_url flight_doc)) in
  match status flight_result, data flight_result with
  | success, Some d =>
      let travellers := all_travellers documents in
      let mapped_traveller_id :=
        opt_or (Mapping.map_ticket_to_passenger
                  (Flight.passenger_name d) travellers)
               (traveller_id flight_doc) in
      publish_progress channel
        (progress order_id mapped_traveller_id
           (opt_or (name_of travellers mapped_traveller_id)
                   (traveller_name flight_doc))
           (document_id flight_doc) flight mapped
           (Some (FlightFields d)) None) ;;
      update_main_backend_with_ticket order_id mapped_traveller_id
        (document_id flight_doc) flight (FlightResult flight_result)
  | _, _ =>
      publish_progress channel
        (progress order_id (traveller_id flight_doc)
           (traveller_name flight_doc) (document_id flight_doc)
           flight failed None (error flight_result))
  end.

(** Its [catch] block. *)
Definition flight_failed (channel order_id : jsstring)
    (flight_doc : DocumentPayload) (e : exn) : M unit :=
  publish_progress channel
    (progress order_id (traveller_id flight_doc)
       (traveller_name flight_doc) (document_id flight_doc)
       flight failed None (Some (message_of e))).

(** The body of the loop over [flight_docs]. *)
Definition flight_unit (channel order_id : jsstring)
    (documents : list DocumentPayload) (flight_doc : DocumentPayload)
    : M unit :=
  try_catch (flight_attempt channel order_id documents flight_doc)
            (flight_failed channel order_id flight_doc).

(** The [try] block of a hotel turn. *)
Definition hotel_attempt (channel order_id : jsstring)
    (documents : list DocumentPayload) (hotel_doc : DocumentPayload)
    : M unit :=
  publish_progress channel
    (progress order_id (traveller_id hotel_doc)
       (traveller_name hotel_doc) (document_id hotel_doc)
       hotel processing None None) ;;
  let hotel_result :=
    Hotel.process_hotel_ocr (recognise env (file_url hotel_doc)) in
  match status hotel_result, data hotel_result with
  | success, Some d =>
      let travellers := all_travellers documents in
      let mapped_traveller_id :=
        opt_or (Mapping.map_ticket_to_passenger
                  (Hotel.guest_name d) travellers)
               (traveller_id hotel_doc) in
      publish_progress channel
        (progress order_id mapped_traveller_id
           (opt_or (name_of travellers mapped_traveller_id)
                   (traveller_name hotel_doc))
           (document_id hotel_doc) hotel mapped
           (Some (HotelFields d)) None) ;;
      update_main_backend_with_ticket order_id mapped_traveller_id
        (document_id hotel_doc) hotel (HotelResult hotel_result)
  | _, _ =>
      publish_progress channel
        (progress order_id (traveller_id hotel_doc)
           (traveller_name hotel_doc) (document_id hotel_doc)
           hotel failed None (error hotel_result))
  end.

(** Its [catch] block. *)
Definition hotel_failed (channel order_id : jsstring)
    (hotel_doc : DocumentPayload) (e : exn) : M unit :=
  publish_progress channel
    (progress order_id (traveller_id hotel_doc)
       (traveller_name hotel_doc) (document_id hotel_doc)
       hotel failed None (Some (message_of e))).

(** The body of the loop over [hotel_docs]. *)
Definition hotel_unit (channel order_id : jsstring)
    (documents : list DocumentPayload) (hotel_doc : DocumentPayload)
    : M unit :=
  try_catch (hotel_attempt channel order_id documents hotel_doc)
            (hotel_failed channel order_id hotel_doc).

Definition channel_of (order_id : jsstring) : jsstring :=
  ocr_progress_channel env ++ js ":" ++ order_id.

Definition process_documents_async (order_id : jsstring)
    (documents : list DocumentPayload) : M unit :=
  let channel := channel_of order_id in
  try_catch
    (let g := group_documents documents in
     for_each (passport_unit channel order_id) (passport_docs g) ;;
     for_each (flight_unit channel order_id documents) (flight_docs g) ;;
     for_each (hotel_unit channel order_id documents) (hotel_docs g))
    (fun e => raise e).

End Run.

Definition start : World := {| publishes := 0; trace := [] |}.

End Router.

(** ** The S3 helpers (config/s3.ts and utils/s3_uploader.ts) *)

Module S3.

Import Regex.

(** [s.indexOf(c)] for a string [c] of one character; [None] is -1. *)
Fixpoint index_of (c : ascii) (s : jsstring) : option nat :=
  match s with
  | [] => None
  | x :: r => if chr_eqb x c then Some 0 else option_map S (index_of c r)
  end.

(** [s.replace(p, '')] for a string [p]: the first occurrence goes. *)
Fixpoint remove_first (p s : jsstring) : jsstring :=
  if starts_with p s then skipn (length p) s
  else match s with
       | [] => []
       | c :: r => c :: remove_first p r
       end.

Definition not_dot (c : ascii) : bool := negb (chr_eqb c ".").
Definition not_slash (c : ascii) : bool := negb (chr_eqb c "/").
(** [.] without the [s] flag: no line terminator. *)
Definition not_newline (c : ascii) : bool :=
  negb ((JS.code c =? 10) || (JS.code c =? 13)).

(** [/https?:\/\/([^.]+)\.s3/] *)
Definition bucket_pattern : regex :=
  seq [ lit "http"; opt (cs_char "s"); lit "://"; Grp 1 (plus (Chr not_dot));
        lit ".s3" ].

(** [/https?:\/\/[^\/]+\/(.+)/] *)
Definition path_pattern : regex :=
  seq [ lit "http"; opt (cs_char "s"); lit "://"; plus (Chr not_slash);
        cs_char "/"; Grp 1 (plus (Chr not_newline)) ].

(** A value in a template literal. *)
Definition shown (s : option jsstring) : jsstring :=
  match s with Some v => v | None => js "undefined" end.

Record UploadToS3Options := {
  file_path : jsstring;
  s3_key : jsstring;
  content_type : option jsstring
}.

(** The command sent to the bucket; the file content and the metadata are
    left out. *)
Record PutObject := {
  Bucket : option jsstring;
  Key : jsstring;
  ContentType : jsstring
}.

Section Configured.

(** [env.s3]: bucket name and credentials, each possibly missing. *)
Variable bucket_name : option jsstring.
Variable access_key_id : option jsstring.
Variable secret_access_key : option jsstring.
(** [fs.existsSync] *)
Variable exists_sync : jsstring -> bool.
(** [fs.readFileSync]: the file is read, or an exception is thrown *)
Variable read_file_sync : jsstring -> option exn.
(** [client.send]: resolved, or rejected with an exception *)
Variable send : PutObject -> option exn.
(** [new URL(u).pathname], or the exception of the constructor *)
Variable pathname : jsstring -> exn + jsstring.

Definition get_s3_client : exn + unit :=
  if negb (truthy access_key_id) || negb (truthy secret_access_key) then
    inl (JsError (js "AWS credentials not configured. Please set AWS_ACCESS_KEY_ID and AWS_SECRET_ACCESS_KEY environment variables."))
  else inr tt.

(** [upload_to_s3]: the address of the uploaded object, or the exception
    thrown. *)
Definition upload_to_s3 (options : UploadToS3Options) : exn + jsstring :=
  if negb (exists_sync (file_path options)) then
    inl (JsError (js "File not found: " ++ file_path options))
  else
    match get_s3_client with
    | inl e => inl e
    | inr _ =>
        match read_file_sync (file_path options) with
        | Some e => inl e
        | None =>
            match send {| Bucket := bucket_name;
                          Key := s3_key options;
                          ContentType :=
                            match content_type options with
                            | Some (c :: t) => c :: t
                            | _ => js "application/octet-stream"
                            end |} with
            | Some e => inl e
            | None =>
                inr (js "s3://" ++ shown bucket_name ++ js "/"
                     ++ s3_key options)
            end
        end
    end.

(** The functions below return a string; [None] stands for the
    [undefined] of a group that took no part in a match. *)
Definition extract_bucket_from_url (s3_url : jsstring) : option jsstring :=
  if starts_with (js "s3://") s3_url then
    let without_protocol := remove_first (js "s3://") s3_url in
    match index_of "/" without_protocol with
    | Some first_slash => Some (firstn first_slash without_protocol)
    | None => Some without_protocol
    end
  else
    match
      (if starts_with (js "https://") s3_url
       then str_match bucket_pattern s3_url else None)
    with
    | Some mt => group 1 mt
    | None =>
        Some (match bucket_name with Some (c :: b) => c :: b | _ => [] end)
    end.

Definition extract_s3_key_from_url (s3_url : jsstring) : option jsstring :=
  if starts_with (js "s3://") s3_url then
    let without_protocol := remove_first (js "s3://") s3_url in
    match index_of "/" without_protocol with
    | Some first_slash => Some (skipn (first_slash + 1) without_protocol)
    | None => Some without_protocol
    end
  else if starts_with (js "https://") s3_url then
    match pathname s3_url with
    | inr path =>
        Some (if starts_with (js "/") path then skipn 1 path else path)
    | inl _ =>
        match str_match path_pattern s3_url with
        | Some mt => group 1 mt
        | None => Some s3_url
        end
    end
  else Some s3_url.

End Configured.

End S3.

(** ** utils/zip_extractor.ts *)

Module Zip.

Import Regex.

(** [s.split(sep)] for a separator of one character. *)
Fixpoint split_on (sep : ascii) (s : jsstring) : list jsstring :=
  match s with
  | [] => [[]]
  | c :: r =>
      if chr_eqb c sep then [] :: split_on sep r
      else match split_on sep r with
           | w :: ws => (c :: w) :: ws
           | [] => [[c]]
           end
  end.

Record Entry := {
  entryName : jsstring;
  isDirectory : bool
}.

Record PassengerFile := {
  filename : jsstring;
  file_path : jsstring;
  file_type : jsstring
}.

Record PassengerFolder := {
  passenger_name : jsstring;
  files : list PassengerFile
}.

(** [entry_path.split('/').filter(p => p.length > 0)] *)
Definition path_parts_of (entry_path : jsstring) : list jsstring :=
  filter (fun p => 0 <? length p) (split_on "/" entry_path).

Definition is_empty (s : jsstring) : bool :=
  match s with [] => true | _ :: _ => false end.

(** The passenger name and the file name the loop takes from an entry;
    [None] where it goes on to the next entry. *)
Definition locate (entry : Entry) : option (jsstring * jsstring) :=
  if isDirectory entry then None
  else
    let path_parts := path_parts_of (entryName entry) in
    if length path_parts <? 2 then None
    else
      let '(passenger_name, filename) :=
        if (3 <=? length path_parts)
           && streq (toLowerCase (nth 1 path_parts [])) (js "passengers")
        then (nth 2 path_parts [], last path_parts [])
        else if 2 <=? length path_parts
        then (nth 1 path_parts [], last path_parts [])
        else (nth 0 path_parts [], last path_parts []) in
      if is_empty passenger_name || is_empty filename then None
      else Some (passenger_name, filename).

(** [passenger_map], a [Map] from passenger name to file paths, in
    insertion order. *)
Definition PassengerMap := list (jsstring * list jsstring).

Fixpoint has (passenger_map : PassengerMap) (name : jsstring) : bool :=
  match passenger_map with
  | [] => false
  | (k, _) :: rest => streq k name || has rest name
  end.

(** [passenger_map.get(name).push(file_path)] *)
Fixpoint push (passenger_map : PassengerMap) (name file_path : jsstring)
    : PassengerMap :=
  match passenger_map with
  | [] => []
  | (k, existing_files) :: rest =>
      if streq k name then (k, existing_files ++ [file_path]) :: rest
      else (k, existing_files) :: push rest name file_path
  end.

(** [/\bppf\b/i], [/\bppb\b/i], [/passport.*front/i], [/passport.*back/i],
    [/^front/i] and [/^back/i] *)
Definition not_newline (c : ascii) : bool :=
  negb ((JS.code c =? 10) || (JS.code c =? 13)).
Definition word_pattern (w : string) : regex := seq [Bound; liti w; Bound].
Definition passport_pattern (side : string) : regex :=
  seq [liti "passport"; star (Chr not_newline); liti side].
Definition start_pattern (w : string) : regex := seq [Bol; liti w].

(** [s.match(r)] as a condition. *)
Definition matches (s : jsstring) (r : regex) : bool :=
  match str_match r s with Some _ => true | None => false end.

(** [s.includes(w)] *)
Definition has_word (s : jsstring) (w : string) : bool := includes s (js w).

(** The file type the conversion gives to a file name. *)
Definition file_type_of (filename : jsstring) : jsstring :=
  let lower_filename := toLowerCase filename in
  if has_word lower_filename "ppf"
     || matches lower_filename (word_pattern "ppf")
  then js "passport_front"
  else if has_word lower_filename "ppb"
          || matches lower_filename (word_pattern "ppb")
  then js "passport_back"
  else if has_word lower_filename "passport" then
    if has_word lower_filename "front" || has_word lower_filename "_f"
       || matches lower_filename (passport_pattern "front")
    then js "passport_front"
    else if has_word lower_filename "back" || has_word lower_filename "_b"
            || matches lower_filename (passport_pattern "back")
    then js "passport_back"
    else js "passport"
  else if has_word lower_filename "front"
          && (has_word lower_filename "passport"
              || matches lower_filename (start_pattern "front"))
  then js "passport_front"
  else if has_word lower_filename "back"
          && (has_word lower_filename "passport"
              || matches lower_filename (start_pattern "back"))
  then js "passport_back"
  else if has_word lower_filename "flight"
          || (has_word lower_filename "ticket"
              && negb (has_word lower_filename "hotel"))
  then js "flight"
  else if has_word lower_filename "visa" then js "visa"
  else if has_word lower_filename "photo" || has_word lower_filename "picture"
  then js "photo"
  else if has_word lower_filename "hotel"
          || has_word lower_filename "accommodation"
  then js "hotel"
  else if has_word lower_filename "bank" || has_word lower_filename "statement"
  then js "bank_statement"
  else if has_word lower_filename "aadhaar" then js "aadhaar"
  else if has_word lower_filename "pan" then js "pan"
  else js "other".

Section Extraction.

(** [process.cwd()], [path.join] and [path.basename] *)
Variable cwd : jsstring.
Variable join : list jsstring -> jsstring.
Variable basename : jsstring -> jsstring.

(** Where the file of an entry is extracted to. *)
Definition path_of (passenger_name filename : jsstring) : jsstring :=
  let temp_dir := join [cwd; js "temp"; passenger_name] in
  join [temp_dir; filename].

(** One turn of the loop over the entries. *)
Definition store (passenger_map : PassengerMap) (entry : Entry)
    : PassengerMap :=
  match locate entry with
  | None => passenger_map
  | Some (passenger_name, filename) =>
      let passenger_map :=
        if negb (has passenger_map passenger_name)
        then passenger_map ++ [(passenger_name, [])]
        else passenger_map in
      push passenger_map passenger_name (path_of passenger_name filename)
  end.

Definition to_file (file_path : jsstring) : PassengerFile :=
  let filename := basename file_path in
  {| filename := filename;
     file_path := file_path;
     file_type := file_type_of filename |}.

(** [extract_zip_file] on the entries of the archive, when no operation
    on the file system throws. *)
Definition extract_zip_file (zip_entries : list Entry)
    : list PassengerFolder :=
  map (fun '(passenger_name, file_paths) =>
         {| passenger_name := passenger_name;
            files := map to_file file_paths |})
      (fold_left store zip_entries []).

End Extraction.

End Zip.

(** ** config/redis.ts: the publisher behind [publish_to_redis] *)

Module RedisClient.

Import Router.

(** The object held by [redis_publisher]: a client made by the ioredis
    constructor (numbered by the call that made it), or the stand-in of
    the second version, whose [publish] only logs. *)
Inductive Client :=
| Connection (serial : nat)
| Dummy.

Record Store := {
  redis_publisher : option Client;
  (** calls of the constructor so far *)
  constructions : nat;
  (** calls of [publish] on a connection so far *)
  sent : nat;
  (** the messages Redis has accepted, with their channels *)
  delivered : list (jsstring * jsstring)
}.

(** The outcome of the n-th call of the constructor and of the n-th call of
    [publish] on a connection: done, or an exception. *)
Record Server := {
  construct : nat -> option exn;
  accept : nat -> option exn
}.

Section Versions.

Variable version : RedisVersion.
Variable server : Server.

Definition get_redis_publisher (s : Store) : (exn + Client) * Store :=
  match redis_publisher s with
  | Some publisher => (inr publisher, s)
  | None =>
      match construct server (constructions s) with
      | None =>
          let publisher := Connection (constructions s) in
          (inr publisher,
           {| redis_publisher := Some publisher;
              constructions := S (constructions s);
              sent := sent s;
              delivered := delivered s |})
      | Some e =>
          match version with
          | rethrowing =>
              (inl e,
               {| redis_publisher := None;
                  constructions := S (constructions s);
                  sent := sent s;
                  delivered := delivered s |})
          | swallowing =>
              (inr Dummy,
               {| redis_publisher := Some Dummy;
                  constructions := S (constructions s);
                  sent := sent s;
                  delivered := delivered s |})
          end
      end
  end.

(** [publish_to_redis]: [None] when it returns, [Some e] when it throws. *)
Definition publish_to_redis (channel message : jsstring) (s : Store)
    : option exn * Store :=
  let caught (e : exn) :=
    match version with rethrowing => Some e | swallowing => None end in
  match get_redis_publisher s with
  | (inl e, s1) => (caught e, s1)
  | (inr Dummy, s1) => (None, s1)
  | (inr (Connection _), s1) =>
      match accept server (sent s1) with
      | None =>
          (None,
           {| redis_publisher := redis_publisher s1;
              constructions := constructions s1;
              sent := S (sent s1);
              delivered := delivered s1 ++ [(channel, message)] |})
      | Some e =>
          (caught e,
           {| redis_publisher := redis_publisher s1;
              constructions := constructions s1;
              sent := S (sent s1);
              delivered := delivered s1 |})
      end
  end.

(** The outcomes of publishing the messages one after the other. *)
Fixpoint publish_all (messages : list (jsstring * jsstring)) (s : Store)
    : list (option exn) * Store :=
  match messages with
  | [] => ([], s)
  | (channel, message) :: rest =>
      let '(outcome, s1) := publish_to_redis channel message s in
      let '(outcomes, s2) := publish_all rest s1 in
      (outcome :: outcomes, s2)
  end.

End Versions.

End RedisClient.


(** ** The scoring function as the specification words it *)

Module Reference.

(** The white-space-delimited tokens of a string. *)
Fixpoint tokens (s : jsstring) : list jsstring :=
  match s with
  | [] => []
  | c :: r =>
      if is_space c then tokens r
      else
        match r with
        | [] => [[c]]
        | c' :: _ =>
            if is_space c' then [c] :: tokens r
            else match tokens r with
                 | t :: ts => (c :: t) :: ts
                 | [] => [[c]]
                 end
        end
  end.

Fixpoint join_space (ws : list jsstring) : jsstring :=
  match ws with
  | [] => []
  | [w] => w
  | w :: ws' => w ++ " "%char :: join_space ws'
  end.

(** "Normalize both names (lower-case, collapse whitespace)": the words of
    the lower-cased name, one space between two of them. *)
Definition normalize (name : jsstring) : jsstring :=
  join_space (tokens (toLowerCase name)).

(** "One normalized name is a substring of the other". *)
Definition substring (a b : jsstring) : bool := includes b a.

(** The tokens of [a] that are shared with [b]. *)
Definition shared (a b : list jsstring) : nat :=
  length (filter (fun t => existsb (streq t) b) a).

Definition score (a b : jsstring) : Q :=
  let na := normalize a in
  let nb := normalize b in
  if streq na nb then 1%Q
  else if substring na nb || substring nb na then (8 # 10)%Q
  else
    let ta := tokens na in
    let tb := tokens nb in
    if (length ta =? 0) || (length tb =? 0) then 0%Q
    else (Z.of_nat (shared ta tb)
          # Pos.of_nat (Nat.max (length ta) (length tb)))%Q.

End Reference.

(** ** Observations on a run *)

Module Observe.

Import Router.

Definition publications (tr : list Effect) : list Progress.ProgressEvent :=
  flat_map (fun e => match e with Publish _ msg _ => [msg] | Post _ _ => [] end)
    tr.

Definition deliveries (tr : list Effect) : list Progress.ProgressEvent :=
  flat_map (fun e => match e with Publish _ msg true => [msg] | _ => [] end) tr.

Definition posts (tr : list Effect) : list Webhook.Body :=
  flat_map (fun e => match e with Post _ body => [body] | Publish _ _ _ => [] end)
    tr.

(** A terminal progress event: [mapped] or [failed]. *)
Definition terminal (ev : Progress.ProgressEvent) : bool :=
  match Progress.status ev with
  | processing => false
  | mapped | failed => true
  end.

(** An entry of [passport_docs] that the passport loop processes. *)
Definition complete (entry : jsstring * PassportPair) : bool :=
  match front (snd entry), back (snd entry) with
  | Some _, Some _ => true
  | _, _ => false
  end.

(** The processing units of a batch: the complete passport pairs, the
    flight documents and the hotel documents. *)
Definition unit_count (documents : list Payload.DocumentPayload) : nat :=
  let g := group_documents documents in
  length (filter complete (passport_docs g))
  + length (flight_docs g) + length (hotel_docs g).

(** No call of [publish_progress] throws during the next [k] publishes:
    the publisher swallows failures, or Redis accepts them. *)
Definition quiet (env : Env) (w : World) (k : nat) : Prop :=
  redis_version env = swallowing \/
  forall i, publishes w <= i < publishes w + k -> redis env i = None.

Definition has_type (t : string) (d : Payload.DocumentPayload) : Prop :=
  Payload.document_type d = js t.

End Observe.

(** ** Vocabulary of the statements *)

Module MatcherTerms.

Import Mapping.

Definition score_of (name : jsstring) (t : TravellerInfo) : Q :=
  fuzzy_match_name name (traveller_name t).

(** The running best stays below a score that every traveller seen so far
    misses. *)
Definition below (bound : Q) (best : option (jsstring * Q)) : Prop :=
  match best with
  | None => True
  | Some (_, s) => (s < bound)%Q
  end.

(** [t] is the earliest traveller of the list whose score is maximal, and
    that score reaches the threshold. *)
Definition earliest_best (name : jsstring) (travellers : list TravellerInfo)
    (t : TravellerInfo) : Prop :=
  exists pre post,
    travellers = pre ++ t :: post
    /\ (threshold <= score_of name t)%Q
    /\ (forall u, In u pre -> (score_of name u < score_of name t)%Q)
    /\ (forall u, In u post -> (score_of name u <= score_of name t)%Q).

Definition ann : TravellerInfo :=
  {| traveller_id := js "t1"; traveller_name := js "Ann Lee" |}.
Definition john : TravellerInfo :=
  {| traveller_id := js "t2"; traveller_name := js "John Doe" |}.
Definition johnny : TravellerInfo :=
  {| traveller_id := js "t3"; traveller_name := js "JOHN  DOE" |}.

End MatcherTerms.

Module Words.

Definition blank (s : jsstring) : Prop := forallb is_space s = true.

(** A word: not empty and free of white space. *)
Definition word (t : jsstring) : Prop :=
  t <> [] /\ forallb (fun c => negb (is_space c)) t = true.

End Words.

Module Keywords.

(** The keywords of a set that occur in the lower-cased text. *)
Definition hits (keywords : list jsstring) (text : jsstring) : nat :=
  length (filter (fun k => includes (toLowerCase text) k) keywords).

Fixpoint distinct (l : list jsstring) : bool :=
  match l with
  | [] => true
  | x :: l' => negb (existsb (streq x) l') && distinct l'
  end.

End Keywords.

Module DocumentOrder.

Import Regex.

(** [s] stands in [text] at position [i]. *)
Definition occurs_at (text : jsstring) (i : nat) (s : jsstring) : Prop :=
  firstn (length s) (skipn i text) = s.

Definition genuine (text : jsstring) (mt : rmatch) : Prop :=
  occurs_at text (index mt) (matched mt).

Definition before (a b : rmatch) : Prop := index a < index b.

(** The matches are occurrences in the text at strictly increasing
    positions. *)
Definition in_document_order (text : jsstring) (l : list rmatch) : Prop :=
  Forall (genuine text) l /\ StronglySorted before l.

End DocumentOrder.

Module Grouping.

Import Router Payload.

Local Unset Implicit Arguments.

Definition is_front (d : DocumentPayload) : bool := is_type d "passport_front".
Definition is_back (d : DocumentPayload) : bool := is_type d "passport_back".
Definition is_flight (d : DocumentPayload) : bool := is_type d "flight".
Definition is_hotel (d : DocumentPayload) : bool := is_type d "hotel".

(** What the grouping loop has established after the documents [seen]. *)
Record grouped (seen : list DocumentPayload) (g : Groups) : Prop := {
  keys_unique : NoDup (map fst (passport_docs g));
  front_sound : forall t p f,
    In (t, p) (passport_docs g) -> front p = Some f ->
    In f seen /\ is_front f = true /\ traveller_id f = t;
  back_sound : forall t p b,
    In (t, p) (passport_docs g) -> back p = Some b ->
    In b seen /\ is_back b = true /\ traveller_id b = t;
  front_complete : forall d,
    In d seen -> is_front d = true ->
    exists p f, In (traveller_id d, p) (passport_docs g) /\ front p = Some f;
  back_complete : forall d,
    In d seen -> is_back d = true ->
    exists p b, In (traveller_id d, p) (passport_docs g) /\ back p = Some b;
  flights_kept : flight_docs g = filter is_flight seen;
  hotels_kept : hotel_docs g = filter is_hotel seen
}.

Definition blank_pair : PassportPair := {| front := None; back := None |}.

(** [if (!passport_docs.has(id)) passport_docs.set(id, {})] *)
Definition ensure (docs : PassportDocs) (id : jsstring) : PassportDocs :=
  if negb (has docs id) then docs ++ [(id, blank_pair)] else docs.

(** The assignment to [passport_pair.front] or [passport_pair.back]. *)
Definition assign (doc : DocumentPayload) (passport_pair : PassportPair)
    : PassportPair :=
  if is_type doc "passport_front"
  then {| front := Some doc; back := back passport_pair |}
  else {| front := front passport_pair; back := Some doc |}.

End Grouping.

Module Outcomes.

Import Router Payload Observe.

Local Unset Implicit Arguments.

Definition accepted (env : Env) (w : World) : bool :=
  match redis env (publishes w) with None => true | Some _ => false end.

Definition after_publish (env : Env) (channel : jsstring)
    (ev : Progress.ProgressEvent) (w : World) : World :=
  {| publishes := S (publishes w);
     trace := trace w ++ [Publish channel ev (accepted env w)] |}.

(** The body posted for a ticket that stays with its own traveller. *)
Definition own_ticket_body (doc : DocumentPayload) (kind : TicketType)
    (result : AnyResult) : Webhook.Body :=
  {| Webhook.traveller_id := traveller_id doc;
     Webhook.ticket_type := kind;
     Webhook.passport_front_doc_id := None;
     Webhook.passport_back_doc_id := None;
     Webhook.document_id := Some (document_id doc);
     Webhook.ocr_status := COMPLETED;
     Webhook.ocr_extracted_data := result;
     Webhook.mapped_to_traveller_id := Some (traveller_id doc) |}.

(** The body posted for a passport whose verification failed. *)
Definition failed_passport_body (t : jsstring) (f b : DocumentPayload)
    (result : Passport.PassportOCRResult) : Webhook.Body :=
  {| Webhook.traveller_id := t;
     Webhook.ticket_type := passport;
     Webhook.passport_front_doc_id := Some (document_id f);
     Webhook.passport_back_doc_id := Some (document_id b);
     Webhook.document_id := None;
     Webhook.ocr_status := FAILED;
     Webhook.ocr_extracted_data := PassportResult result;
     Webhook.mapped_to_traveller_id := None |}.

(** Every effect a computation adds to the trace satisfies [Q]. *)
Definition appends {A : Type} (Q : Effect -> Prop) (c : M A) : Prop :=
  forall w, exists delta,
    trace (snd (c w)) = trace w ++ delta /\ Forall Q delta.

(** No passport effect for traveller [t]. *)
Definition passport_free (t : jsstring) (e : Effect) : Prop :=
  match e with
  | Publish _ ev _ =>
      Progress.document_type ev = passport -> Progress.traveller_id ev <> t
  | Post _ body =>
      Webhook.ticket_type body = passport -> Webhook.traveller_id body <> t
  end.

(** The terminal progress events among the effects. *)
Definition terminals (delta : list Effect) : nat :=
  length (filter terminal (publications delta)).

(** While no publish throws, [c] returns normally after [2 * n] publishes,
    [n] of them terminal. *)
Definition completes (env : Env) (c : M unit) (n : nat) : Prop :=
  forall w k, quiet env w (2 * n + k) ->
    exists delta,
      c w = (Ok tt, {| publishes := 2 * n + publishes w;
                       trace := trace w ++ delta |})
      /\ terminals delta = n
      /\ quiet env {| publishes := 2 * n + publishes w;
                      trace := trace w ++ delta |} k.

Fixpoint total {A : Type} (cnt : A -> nat) (xs : list A) : nat :=
  match xs with
  | [] => 0
  | x :: xs' => cnt x + total cnt xs'
  end.

Definition weight (entry : jsstring * PassportPair) : nat :=
  if complete entry then 1 else 0.

(** Traveller [t] has both passport sides in the batch. *)
Definition paired (documents : list DocumentPayload) (t : jsstring) : Prop :=
  (exists f, In f documents /\ has_type "passport_front" f
             /\ traveller_id f = t)
  /\ (exists b, In b documents /\ has_type "passport_back" b
                /\ traveller_id b = t).

End Outcomes.

(** ** The processing units of a batch *)

Module Units.

Import Router Payload Observe.

Local Unset Implicit Arguments.

(** A work item of the batch, as the three loops take them up: a passport
    pair with both sides, a flight document, a hotel document. *)
Inductive ProcessingUnit :=
| PassportUnit (traveller_id : jsstring) (front back : DocumentPayload)
| FlightUnit (doc : DocumentPayload)
| HotelUnit (doc : DocumentPayload).

(** The entries of [passport_docs] that pass the test
    [passport_pair.front && passport_pair.back], in the order of the map. *)
Definition pairs (docs : PassportDocs)
    : list (jsstring * (DocumentPayload * DocumentPayload)) :=
  flat_map (fun entry =>
              match front (snd entry), back (snd entry) with
              | Some f, Some b => [(fst entry, (f, b))]
              | _, _ => []
              end) docs.

Definition pair_unit (x : jsstring * (DocumentPayload * DocumentPayload))
    : ProcessingUnit :=
  PassportUnit (fst x) (fst (snd x)) (snd (snd x)).

(** The units of a batch, in the order the loops take them up. *)
Definition units (documents : list DocumentPayload) : list ProcessingUnit :=
  let g := group_documents documents in
  map pair_unit (pairs (passport_docs g))
  ++ map FlightUnit (flight_docs g)
  ++ map HotelUnit (hotel_docs g).

(** The turn of a loop on a unit: its [try] block under its [catch]
    block. *)
Definition run_unit (env : Env) (channel order_id : jsstring)
    (documents : list DocumentPayload) (u : ProcessingUnit) : M unit :=
  match u with
  | PassportUnit t f b =>
      try_catch (passport_attempt env channel order_id t f b)
                (passport_failed env channel order_id t f)
  | FlightUnit d => flight_unit env channel order_id documents d
  | HotelUnit d => hotel_unit env channel order_id documents d
  end.

(** The progress event that announces a unit: [processing], under the id
    of the document (of the front side, for a passport). *)
Definition announcement (order_id : jsstring) (u : ProcessingUnit)
    : Progress.ProgressEvent :=
  match u with
  | PassportUnit t f b =>
      progress order_id t (traveller_name f) (document_id f)
        passport processing None None
  | FlightUnit d =>
      progress order_id (traveller_id d) (traveller_name d) (document_id d)
        flight processing None None
  | HotelUnit d =>
      progress order_id (traveller_id d) (traveller_name d) (document_id d)
        hotel processing None None
  end.

(** The [processing] events among the effects, delivered or not. *)
Definition announced (delta : list Effect) : list Progress.ProgressEvent :=
  filter (fun ev => negb (terminal ev)) (publications delta).

(** An effect that announces nothing. *)
Definition silent (e : Effect) : Prop :=
  match e with
  | Publish _ ev _ => terminal ev = true
  | Post _ _ => True
  end.

End Units.

(** ** Sample batches *)

Module Samples.

Import Router Payload.

Definition closed : exn := JsError (js "Connection is closed.").

(** An environment whose recognition engine reads [text] from every
    document, whose verification service is down, and whose Redis outcome
    is [outcome]. *)
Definition env_of (version : RedisVersion) (outcome : nat -> option exn)
    (text : jsstring) : Env :=
  {| redis_version := version;
     redis := outcome;
     recognise := fun _ => inr text;
     verify := fun _ _ => inl (JsError (js "Gridlines API error: 503 - "));
     ocr_progress_channel := js "ocr_progress";
     main_backend_url := js "http://localhost:3000" |}.

Definition up : nat -> option exn := fun _ => None.
Definition down : nat -> option exn := fun _ => Some closed.
(** Redis rejects the first publish only. *)
Definition hiccup : nat -> option exn :=
  fun n => match n with 0 => Some closed | S _ => None end.

Definition boarding_pass : jsstring := js "Boarding pass: seat 12A, gate 4".
Definition shopping_list : jsstring := js "milk, eggs, bread".

Definition document (id type : string) : DocumentPayload :=
  {| traveller_id := js "t1";
     traveller_name := js "Ann Lee";
     document_id := js id;
     file_url := js "https://bucket.s3.amazonaws.com/doc";
     document_type := js type |}.

Definition two_flights : list DocumentPayload :=
  [document "f1" "flight"; document "f2" "flight"].

Definition summary (ev : Progress.ProgressEvent)
    : jsstring * ProgressStatus :=
  (Progress.document_id ev, Progress.status ev).

Definition nl : ascii := ascii_of_nat 10.

(** The text of the scenario, one item a line. *)
Definition scenario : jsstring :=
  js "PNR: SISCPF" ++ nl :: js "6E 1402" ++ nl :: js "21 Apr 2025" ++ nl ::
  js "23 Apr 2025" ++ nl :: js "06:20 hrs" ++ nl :: js "21:55 hrs" ++ nl ::
  js "BOM - Chhatrapati Shivaji Maharaj International Airport" ++ nl ::
  js "AUH - Abu Dhabi International Airport".

Definition out_of_order : jsstring :=
  js "Issued 12/04/2025, departs 21 Apr 2025".

(** The lone front side of a second traveller. *)
Definition lone_front : DocumentPayload :=
  {| traveller_id := js "t2";
     traveller_name := js "Bo Ray";
     document_id := js "p3";
     file_url := js "https://bucket.s3.amazonaws.com/doc";
     document_type := js "passport_front" |}.

(** A batch with a passport pair, a lone front side, a flight ticket and
    a document of a type the loops leave out. *)
Definition mixed_batch : list DocumentPayload :=
  [ document "p1" "passport_front"; lone_front; document "f1" "flight";
    document "v1" "visa"; document "p2" "passport_back" ].

(** A ticket in the name of nobody in the batch. *)
Definition johns_ticket : jsstring :=
  js "Flight ticket, PNR: SISCPF" ++ nl :: js "Boarding gate 4" ++ nl ::
  js "Passenger Name: John Smith".

(** Redis rejects the second publish only. *)
Definition stumble : nat -> option exn :=
  fun n => match n with 1 => Some closed | _ => None end.

End Samples.

(** ** Vocabulary for archives *)

Module ZipTerms.

Import Zip.

(** A path segment: not empty and free of slashes. *)
Definition segment (s : jsstring) : Prop :=
  s <> [] /\ forallb (fun c => negb (chr_eqb c "/")) s = true.

(** The segments with a slash between two of them. *)
Fixpoint join_slash (parts : list jsstring) : jsstring :=
  match parts with
  | [] => []
  | [p] => p
  | p :: ps => p ++ "/"%char :: join_slash ps
  end.

Definition file_entry (parts : list jsstring) : Entry :=
  {| entryName := join_slash parts; isDirectory := false |}.

(** The entries the loop keeps, as passenger name and file name. *)
Definition located (entries : list Entry) : list (jsstring * jsstring) :=
  flat_map (fun e => match locate e with Some x => [x] | None => [] end)
    entries.

(** The file type read off the lower-cased name by substrings and
    prefixes alone. *)
Definition plain_file_type (lower_filename : jsstring) : jsstring :=
  if has_word lower_filename "ppf" then js "passport_front"
  else if has_word lower_filename "ppb" then js "passport_back"
  else if has_word lower_filename "passport" then
    if has_word lower_filename "front" || has_word lower_filename "_f"
    then js "passport_front"
    else if has_word lower_filename "back" || has_word lower_filename "_b"
    then js "passport_back"
    else js "passport"
  else if starts_with (js "front") lower_filename then js "passport_front"
  else if starts_with (js "back") lower_filename then js "passport_back"
  else if has_word lower_filename "flight"
          || (has_word lower_filename "ticket"
              && negb (has_word lower_filename "hotel"))
  then js "flight"
  else if has_word lower_filename "visa" then js "visa"
  else if has_word lower_filename "photo" || has_word lower_filename "picture"
  then js "photo"
  else if has_word lower_filename "hotel"
          || has_word lower_filename "accommodation"
  then js "hotel"
  else if has_word lower_filename "bank" || has_word lower_filename "statement"
  then js "bank_statement"
  else if has_word lower_filename "aadhaar" then js "aadhaar"
  else if has_word lower_filename "pan" then js "pan"
  else js "other".

(** A string that lower-casing leaves alone. *)
Definition lowered (s : jsstring) : Prop := Forall (fun c => lower_char c = c) s.

Definition of_passenger (name : jsstring) (x : jsstring * jsstring) : bool :=
  streq (fst x) name.

Section Paths.

Variable cwd : jsstring.
Variable join : list jsstring -> jsstring.

(** The path the file of a kept entry is extracted to. *)
Definition path_to (x : jsstring * jsstring) : jsstring :=
  path_of cwd join (fst x) (snd x).

(** What the loop has established after the entries [seen]. *)
Definition filed (seen : list Entry) (m : PassengerMap) : Prop :=
  NoDup (map fst m)
  /\ (forall name paths, In (name, paths) m ->
        paths <> [] /\
        paths = map path_to (filter (of_passenger name) (located seen)))
  /\ (forall x, In x (located seen) -> In (fst x) (map fst m)).

End Paths.

End ZipTerms.

(** ** What a pattern reads *)

Module Denotation.

Import Regex.

(** [reaches r st st']: read from [st], the pattern [r] can stop at [st']. *)
Inductive reaches : regex -> mstate -> mstate -> Prop :=
| reach_eps st : reaches Eps st st
| reach_chr p c s st :
    rest st = c :: s -> p c = true ->
    reaches (Chr p) st {| prev := Some c; rest := s; caps := caps st |}
| reach_cat r1 r2 st st1 st2 :
    reaches r1 st st1 -> reaches r2 st1 st2 -> reaches (Cat r1 r2) st st2
| reach_alt_l r1 r2 st st' : reaches r1 st st' -> reaches (Alt r1 r2) st st'
| reach_alt_r r1 r2 st st' : reaches r2 st st' -> reaches (Alt r1 r2) st st'
| reach_rep_stop r max greedy st : reaches (Rep r 0 max greedy) st st
| reach_rep_turn r min max greedy st st1 st2 :
    (min = 0 -> exhausted max = false) ->
    reaches r st st1 ->
    reaches (Rep r (pred min) (dec max) greedy) st1 st2 ->
    reaches (Rep r min max greedy) st st2
| reach_grp n r st st' :
    reaches r st st' ->
    reaches (Grp n r) st
      {| prev := prev st'; rest := rest st';
         caps := (n, consumed st st') :: caps st' |}
| reach_bound st :
    xorb (word_before st) (word_after st) = true -> reaches Bound st st
| reach_bol st : prev st = None -> reaches Bol st st
| reach_eol st : rest st = [] -> reaches Eol st st
| reach_not_ahead r st : m r st Some = None -> reaches (NotAhead r) st st.

(** The number of turns of a quantifier stays within its bounds. *)
Definition within (min : nat) (max : option nat) (n : nat) : Prop :=
  min <= n /\ match max with Some hi => min <= hi -> n <= hi | None => True end.

(** The strings a pattern can read, assertions left aside. *)
Fixpoint shape (r : regex) (l : jsstring) : Prop :=
  match r with
  | Eps | Bound | Bol | Eol | NotAhead _ => l = []
  | Chr p => exists c, l = [c] /\ p c = true
  | Cat r1 r2 => exists l1 l2, l = l1 ++ l2 /\ shape r1 l1 /\ shape r2 l2
  | Alt r1 r2 => shape r1 l \/ shape r2 l
  | Rep r0 min max _ =>
      exists ls, l = concat ls /\ Forall (shape r0) ls
                 /\ within min max (length ls)
  | Grp _ r0 => shape r0 l
  end.

(** [Grp n r0] occurs in [r], outside any look-ahead. *)
Fixpoint grp_in (n : nat) (r0 r : regex) : Prop :=
  match r with
  | Cat r1 r2 | Alt r1 r2 => grp_in n r0 r1 \/ grp_in n r0 r2
  | Rep r1 _ _ _ => grp_in n r0 r1
  | Grp k r1 => (k = n /\ r1 = r0) \/ grp_in n r0 r1
  | _ => False
  end.

Definition capital_or_digit (c : ascii) : bool := is_upper c || is_digit c.

(** [Grp n] takes part in every match of [r]. *)
Fixpoint sets (n : nat) (r : regex) : bool :=
  match r with
  | Cat r1 r2 => sets n r1 || sets n r2
  | Alt r1 r2 => sets n r1 && sets n r2
  | Rep r1 min _ _ => (1 <=? min) && sets n r1
  | Grp k r1 => (k =? n) || sets n r1
  | _ => false
  end.

(** [h:mm AM] or [h:mm PM], the meridiem in either case. *)
Definition clock_format (t : jsstring) : Prop :=
  exists h mm ap,
    t = h ++ js ":" ++ mm ++ js " " ++ ap
    /\ 1 <= length h <= 2 /\ forallb is_digit h = true
    /\ length mm = 2 /\ forallb is_digit mm = true
    /\ (toUpperCase ap = js "AM" \/ toUpperCase ap = js "PM").

(** [Mon, Apr 21]: three letters, three letters, one or two digits. *)
Definition day_format (t : jsstring) : Prop :=
  exists day month n,
    t = day ++ js ", " ++ month ++ js " " ++ n
    /\ length day = 3 /\ forallb is_alpha day = true
    /\ length month = 3 /\ forallb is_alpha month = true
    /\ 1 <= length n <= 2 /\ forallb is_digit n = true.

(** Two words or more: letters and white space, a first word of two
    letters or more, then white space, and a letter at the end. *)
Definition full_name_format (name : jsstring) : Prop :=
  forallb Flight.alpha_or_space name = true
  /\ exists first c middle z,
       name = first ++ c :: middle ++ [z]
       /\ 2 <= length first /\ forallb is_alpha first = true
       /\ is_space c = true /\ is_alpha z = true.

(** No slash in the string. *)
Definition slashless (s : jsstring) : Prop := forallb S3.not_slash s = true.

(** [21:55], alone or followed by [hrs], [hours], [am] or [pm] in either
    case, with or without white space before the unit. *)
Definition time_format (t : jsstring) : Prop :=
  exists h mm unit,
    t = h ++ js ":" ++ mm ++ unit
    /\ 1 <= length h <= 2 /\ forallb is_digit h = true
    /\ length mm = 2 /\ forallb is_digit mm = true
    /\ (unit = [] \/
        exists sp u,
          unit = sp ++ u /\ forallb is_space sp = true
          /\ In (toUpperCase u) [js "HRS"; js "HOURS"; js "AM"; js "PM"]).

(** [21 Apr 2025] (a day, a month name of three letters or more, a year
    of four digits) or [21/04/2025] (three numbers, / or - between). *)
Definition date_format (d : jsstring) : Prop :=
  (exists day sp1 month sp2 year,
      d = day ++ sp1 ++ month ++ sp2 ++ year
      /\ 1 <= length day <= 2 /\ forallb is_digit day = true
      /\ sp1 <> [] /\ forallb is_space sp1 = true
      /\ 3 <= length month /\ forallb is_alpha month = true
      /\ sp2 <> [] /\ forallb is_space sp2 = true
      /\ length year = 4 /\ forallb is_digit year = true)
  \/ (exists a s1 b s2 c,
        d = a ++ s1 :: b ++ s2 :: c
        /\ 1 <= length a <= 2 /\ forallb is_digit a = true
        /\ 1 <= length b <= 2 /\ forallb is_digit b = true
        /\ 2 <= length c <= 4 /\ forallb is_digit c = true
        /\ In s1 [ "/"%char; "-"%char ] /\ In s2 [ "/"%char; "-"%char ]).

(** The state after reading the characters [l]. *)
Fixpoint after (l : jsstring) (st : mstate) : mstate :=
  match l with
  | [] => st
  | c :: l' =>
      after l' {| prev := Some c; rest := tl (rest st); caps := caps st |}
  end.

End Denotation.

(** ** Effects of a batch *)

Module Frame.

Import Router Payload.

Local Unset Implicit Arguments.

(** An effect that belongs to the batch [order_id] of [documents]: an
    event on the channel of the order, or a post to its results address,
    about a traveller and a document of the batch. *)
Definition own_effect (env : Env) (order_id : jsstring)
    (documents : list DocumentPayload) (e : Effect) : Prop :=
  match e with
  | Publish channel ev _ =>
      channel = channel_of env order_id
      /\ Progress.order_id ev = order_id
      /\ In (Progress.traveller_id ev) (map traveller_id documents)
      /\ In (Progress.document_id ev) (map document_id documents)
  | Post url body =>
      url = results_url env order_id
      /\ In (Webhook.traveller_id body) (map traveller_id documents)
      /\ forall id,
           Webhook.document_id body = Some id
           \/ Webhook.passport_front_doc_id body = Some id
           \/ Webhook.passport_back_doc_id body = Some id ->
           In id (map document_id documents)
  end.

(** The kind of document an effect is about. *)
Definition about (kind : TicketType) (e : Effect) : Prop :=
  match e with
  | Publish _ ev _ => Progress.document_type ev = kind
  | Post _ body => Webhook.ticket_type body = kind
  end.

(** The last document of [documents] of type [t] for [traveller]. *)
Definition last_side (t : string) (traveller : jsstring)
    (documents : list DocumentPayload) : option DocumentPayload :=
  find (fun d => is_type d t && streq (traveller_id d) traveller)
       (rev documents).

(** Every stored pair holds the last front and the last back seen for
    its traveller. *)
Definition latest (seen : list DocumentPayload) (g : Groups) : Prop :=
  forall t p, In (t, p) (passport_docs g) ->
    front p = last_side "passport_front" t seen
    /\ back p = last_side "passport_back" t seen.

End Frame.

(** ** More samples *)

Module Cases.

Import Zip ZipTerms RedisClient.

(** A booking as the recognition engine reads the page of a hotel. *)
Definition stay : jsstring :=
  js "Checkin Checkout" ++ Samples.nl :: js "3:00PM 11:00AM" ++ Samples.nl ::
  js "Mon, Apr 21. Wed, Apr 23".

(** An archive of two passengers with a directory entry. *)
Definition archive : list Entry :=
  [ file_entry [js "batch"; js "passengers"; js "john"; js "ppf.jpg"];
    {| entryName := js "batch/passengers/ann/"; isDirectory := true |};
    file_entry [js "batch"; js "passengers"; js "ann"; js "ticket.pdf"];
    file_entry [js "batch"; js "passengers"; js "john"; js "ppb.jpg"] ].

(** [path.basename] on paths without a trailing slash. *)
Definition base (p : jsstring) : jsstring := last (split_on "/" p) [].

(** A server that refuses every connection. *)
Definition refusing : Server :=
  {| construct := fun _ => Some Samples.closed; accept := fun _ => None |}.

(** The module as loaded: no publisher yet. *)
Definition unopened : Store :=
  {| redis_publisher := None; constructions := 0; sent := 0;
     delivered := [] |}.

Definition two_messages : list (jsstring * jsstring) :=
  [(js "ocr_progress", js "m1"); (js "ocr_progress", js "m2")].

End Cases.


(** * Properties *)

(** ** Strings *)

Section StringFacts.

Lemma streq_spec a b : streq a b = true <-> a = b.
Proof.
  revert b; induction a as [|x a IH]; intros [|y b]; simpl; split;
    try congruence; try reflexivity.
  - rewrite andb_true_iff. intros [Hc Hs].
    apply Ascii.eqb_eq in Hc. apply IH in Hs. congruence.
  - intros E; inversion E; subst. rewrite andb_true_iff. split.
    + apply Ascii.eqb_refl.
    + now apply IH.
Qed.

Lemma streq_refl a : streq a a = true.
Proof. now apply streq_spec. Qed.

Lemma includes_nil s : includes s [] = true.
Proof. destruct s; reflexivity. Qed.

Lemma space_char_is_space c : chr_eqb c " "%char = true -> is_space c = true.
Proof.
  unfold chr_eqb. intros H. apply Ascii.eqb_eq in H. subst. reflexivity.
Qed.

End StringFacts.

(** ** The identity matcher *)

Module MappingFacts.

Import Mapping MatcherTerms.

Lemma Qgtb_true a b : Qgtb a b = true <-> (b < a)%Q.
Proof.
  unfold Qgtb. rewrite negb_true_iff. split.
  - intros H. apply Qnot_le_lt. intros Hle.
    apply Qle_bool_iff in Hle. congruence.
  - intros H. destruct (Qle_bool a b) eqn:E; [|reflexivity].
    apply Qle_bool_iff in E. exfalso. eapply Qlt_not_le; eauto.
Qed.

Lemma Qgtb_false a b : Qgtb a b = false <-> (a <= b)%Q.
Proof.
  unfold Qgtb. rewrite negb_false_iff. apply Qle_bool_iff.
Qed.

Lemma consider_below name bound best u :
  below bound best -> (score_of name u < bound)%Q ->
  below bound (consider name best u).
Proof.
  intros Hb Hu. unfold consider. fold (score_of name u).
  destruct (Qle_bool threshold (score_of name u) && _); simpl; auto.
Qed.

Lemma fold_below name bound pre : forall best,
  below bound best ->
  (forall u, In u pre -> (score_of name u < bound)%Q) ->
  below bound (fold_left (consider name) pre best).
Proof.
  induction pre as [|u pre IH]; simpl; intros best Hb Hpre; auto.
  apply IH.
  - apply consider_below; auto.
  - intros v Hv. apply Hpre. now right.
Qed.

Lemma fold_keeps name id s post :
  (forall u, In u post -> (score_of name u <= s)%Q) ->
  fold_left (consider name) post (Some (id, s)) = Some (id, s).
Proof.
  induction post as [|u post IH]; simpl; intros Hpost; auto.
  assert (Hu : (score_of name u <= s)%Q) by (apply Hpost; now left).
  unfold consider at 2. fold (score_of name u).
  apply Qgtb_false in Hu. rewrite Hu, andb_false_r.
  apply IH. intros v Hv. apply Hpost. now right.
Qed.

Lemma fold_none name travellers :
  (forall u, In u travellers -> (score_of name u < threshold)%Q) ->
  fold_left (consider name) travellers None = None.
Proof.
  induction travellers as [|u l IH]; simpl; intros H; auto.
  assert (Hu : (score_of name u < threshold)%Q) by (apply H; now left).
  unfold consider at 2. fold (score_of name u).
  destruct (Qle_bool threshold (score_of name u)) eqn:E.
  - apply Qle_bool_iff in E. exfalso. eapply Qlt_not_le; eauto.
  - simpl. apply IH. intros v Hv. apply H. now right.
Qed.

Lemma select_first_best name pre t post :
  (threshold <= score_of name t)%Q ->
  (forall u, In u pre -> (score_of name u < score_of name t)%Q) ->
  (forall u, In u post -> (score_of name u <= score_of name t)%Q) ->
  fold_left (consider name) (pre ++ t :: post) None
  = Some (traveller_id t, score_of name t).
Proof.
  intros Ht Hpre Hpost. rewrite fold_left_app. simpl.
  assert (Hb : below (score_of name t)
                 (fold_left (consider name) pre None))
    by (apply fold_below; simpl; auto).
  assert (Hc : consider name (fold_left (consider name) pre None) t
               = Some (traveller_id t, score_of name t)).
  { set (best := fold_left (consider name) pre None) in *.
    unfold consider. fold (score_of name t).
    apply Qle_bool_iff in Ht. rewrite Ht. cbn [andb].
    destruct best as [[i s]|]; auto.
    cbn [below] in Hb. apply Qgtb_true in Hb. now rewrite Hb. }
  rewrite Hc. now apply fold_keeps.
Qed.

(** Either nobody reaches the threshold, or there is an earliest best. *)
Lemma nobody_or_earliest_best name travellers :
  (forall u, In u travellers -> (score_of name u < threshold)%Q)
  \/ (exists t, earliest_best name travellers t).
Proof.
  induction travellers as [|u l IH].
  - left. intros u [].
  - destruct (Qlt_le_dec (score_of name u) threshold) as [Hu | Hu].
    + destruct IH as [Hall | [t [pre [post [-> [Ht [Hpre Hpost]]]]]]].
      * left. intros v [<- | Hv]; auto.
      * right. exists t, (u :: pre), post. repeat split; auto.
        intros v [<- | Hv]; auto. eapply Qlt_le_trans; eauto.
    + destruct IH as [Hall | [t [pre [post [-> [Ht [Hpre Hpost]]]]]]].
      * right. exists u, [], l. repeat split; auto.
        -- intros v [].
        -- intros v Hv. apply Qlt_le_weak. eapply Qlt_le_trans; eauto.
      * destruct (Qlt_le_dec (score_of name u) (score_of name t)) as [Hlt | Hge].
        -- right. exists t, (u :: pre), post. repeat split; auto.
           intros v [<- | Hv]; auto.
        -- right. exists u, [], (pre ++ t :: post). repeat split; auto.
           ++ intros v [].
           ++ intros v Hv. apply in_app_or in Hv.
              destruct Hv as [Hv | [<- | Hv]]; auto.
              ** apply Qlt_le_weak. eapply Qlt_le_trans; eauto.
              ** eapply Qle_trans; eauto.
Qed.

(** C3. The identity matcher walks the travellers in their order and
    returns the earliest traveller whose score is maximal and at least 0.6:
    every traveller before the chosen one scores strictly less and every
    later one scores at most as much, so a later traveller takes over only
    on a strictly greater score.  It returns nothing when every score is
    below 0.6, when the extracted name is absent (undefined or the empty
    string) and when the traveller list is empty; and it returns nothing
    else than these cases say. *)
Theorem C3_matcher_selects_earliest_best
    (extracted_name : option jsstring) (travellers : list TravellerInfo) :
  (forall name t,
      extracted_name = Some name -> name <> [] ->
      earliest_best name travellers t ->
      map_ticket_to_passenger extracted_name travellers
      = Some (traveller_id t))
  /\ (forall name,
      extracted_name = Some name ->
      (forall u, In u travellers -> (score_of name u < threshold)%Q) ->
      map_ticket_to_passenger extracted_name travellers = None)
  /\ (extracted_name = None \/ extracted_name = Some [] \/ travellers = [] ->
      map_ticket_to_passenger extracted_name travellers = None)
  /\ (forall id,
      map_ticket_to_passenger extracted_name travellers = Some id ->
      exists name t,
        extracted_name = Some name /\ name <> [] /\
        earliest_best name travellers t /\ id = traveller_id t).
Proof.
  assert (Hbest : forall name t,
    extracted_name = Some name -> name <> [] ->
    earliest_best name travellers t ->
    map_ticket_to_passenger extracted_name travellers
    = Some (traveller_id t)).
  { intros name t -> Hne [pre [post [-> [Ht [Hpre Hpost]]]]].
    unfold map_ticket_to_passenger.
    destruct name as [|c name]; [congruence|]. simpl truthy.
    rewrite length_app. simpl length.
    replace (length pre + S (length post) =? 0) with false
      by (symmetry; apply Nat.eqb_neq; lia).
    simpl. now rewrite select_first_best. }
  assert (Hnone : forall name,
    extracted_name = Some name ->
    (forall u, In u travellers -> (score_of name u < threshold)%Q) ->
    map_ticket_to_passenger extracted_name travellers = None).
  { intros name -> Hall. unfold map_ticket_to_passenger.
    destruct (negb (truthy (Some name)) || (length travellers =? 0)); auto.
    now rewrite fold_none. }
  split; [exact Hbest|]. split; [exact Hnone|]. split.
  - intros [-> | [-> | ->]]; try reflexivity.
    unfold map_ticket_to_passenger. destruct extracted_name; auto.
    now rewrite orb_true_r.
  - intros id H. destruct extracted_name as [name|]; [|discriminate].
    destruct name as [|c name]; [discriminate|].
    exists (c :: name).
    destruct (nobody_or_earliest_best (c :: name) travellers)
      as [Hall | [t Ht]].
    + rewrite (Hnone _ eq_refl Hall) in H. discriminate.
    + exists t. repeat split; auto; try discriminate.
      rewrite (Hbest _ t eq_refl) in H; [congruence|discriminate|exact Ht].
Qed.

Lemma C3_matcher_witness :
  map_ticket_to_passenger (Some (js "john doe")) [ann; john; johnny]
  = Some (js "t2")
  /\ map_ticket_to_passenger (Some (js "Zed")) [ann; john; johnny] = None
  /\ map_ticket_to_passenger (Some (js "john doe")) [] = None.
Proof.
  split; [|split].
  - apply (proj1 (C3_matcher_selects_earliest_best (Some (js "john doe"))
                    [ann; john; johnny]) (js "john doe") john).
    + reflexivity.
    + discriminate.
    + exists [ann], [johnny]. split; [reflexivity|]. split.
      * vm_compute. discriminate.
      * split; intros u [<- | []]; vm_compute; [reflexivity|discriminate].
  - apply (proj1 (proj2 (C3_matcher_selects_earliest_best (Some (js "Zed"))
                    [ann; john; johnny])) (js "Zed")).
    + reflexivity.
    + intros u [<- | [<- | [<- | []]]]; vm_compute; reflexivity.
  - apply (proj1 (proj2 (proj2 (C3_matcher_selects_earliest_best
                    (Some (js "john doe")) [])))).
    right. right. reflexivity.
Defined.

(** C9. A name scores 1.0 against itself, and the score is not symmetric:
    the shared words are counted in the first name, so a word repeated
    there counts each time. *)
Theorem C9_score_reflexive_not_symmetric :
  (forall a, fuzzy_match_name a a = 1%Q)
  /\ (exists a b, ~ (fuzzy_match_name a b == fuzzy_match_name b a)%Q).
Proof.
  split.
  - intros a. unfold fuzzy_match_name. now rewrite streq_refl.
  - exists (js "x x y"), (js "x z w"). vm_compute. discriminate.
Qed.

End MappingFacts.

(** ** The scoring function against its reference *)

Module ScoreFacts.

Import Mapping Words.

Lemma trim_end_nil s : trim_end s = [] <-> blank s.
Proof.
  unfold blank. induction s as [|c r IH]; simpl; [tauto|].
  destruct (trim_end r) eqn:E.
  - destruct (is_space c); simpl; split; try discriminate; try tauto.
  - split; [discriminate|]. rewrite andb_true_iff. intros [_ H].
    apply IH in H. discriminate.
Qed.

Lemma tokens_nil s : Reference.tokens s = [] <-> blank s.
Proof.
  unfold blank. induction s as [|c r IH]; simpl; [tauto|].
  destruct (is_space c); simpl; [exact IH|].
  split; [|discriminate].
  destruct r as [|c' r']; [discriminate|].
  destruct (is_space c'); [discriminate|].
  destruct (Reference.tokens (c' :: r')); discriminate.
Qed.

Lemma tokens_trim_start s :
  Reference.tokens (trim_start s) = Reference.tokens s.
Proof.
  induction s as [|c r IH]; simpl; auto.
  destruct (is_space c) eqn:E; auto. simpl. now rewrite E.
Qed.

Lemma trim_start_head s c r :
  trim_start s = c :: r -> is_space c = false.
Proof.
  induction s as [|x s IH]; simpl; [discriminate|].
  destruct (is_space x) eqn:E; auto. intros H. now inversion H; subst.
Qed.

Lemma join_cons c t ts :
  Reference.join_space ((c :: t) :: ts) = c :: Reference.join_space (t :: ts).
Proof. destruct ts; reflexivity. Qed.

Lemma collapse_cons b c r :
  collapse_spaces b (c :: r)
  = if is_space c
    then (if b then collapse_spaces true r
          else " "%char :: collapse_spaces true r)
    else c :: collapse_spaces false r.
Proof. reflexivity. Qed.

(** Collapsing the trimmed string: inside a run of white space the result
    is the joined words, otherwise a leading run still leaves one space. *)
Lemma collapse_trim_end s :
  collapse_spaces true (trim_end s)
  = Reference.join_space (Reference.tokens s)
  /\ collapse_spaces false (trim_end s)
     = match s with
       | c :: _ =>
           if is_space c && negb (forallb is_space s)
           then " "%char :: Reference.join_space (Reference.tokens s)
           else Reference.join_space (Reference.tokens s)
       | [] => []
       end.
Proof.
  induction s as [|c r [IHt IHf]]; [split; reflexivity|].
  cbn [trim_end Reference.tokens forallb].
  destruct (trim_end r) as [|x r'] eqn:E.
  - (* the rest is blank *)
    assert (Hb : blank r) by (now apply trim_end_nil).
    assert (Ht : Reference.tokens r = []) by (now apply tokens_nil).
    unfold blank in Hb. rewrite Hb, Ht.
    destruct (is_space c) eqn:Ec; simpl; rewrite ?Ec; simpl.
    + split; reflexivity.
    + destruct r as [|c' r0]; [split; reflexivity|].
      simpl in Hb. apply andb_true_iff in Hb. destruct Hb as [Hc' _].
      rewrite Hc'. split; reflexivity.
  - (* the rest holds a word *)
    assert (Hnb : forallb is_space r = false).
    { destruct (forallb is_space r) eqn:B; auto.
      apply trim_end_nil in B. congruence. }
    rewrite Hnb in *. rewrite !(collapse_cons _ c).
    destruct (is_space c) eqn:Ec.
    + cbn [andb negb]. rewrite IHt. split; reflexivity.
    + cbn [andb]. rewrite IHf.
      destruct r as [|c' r0]; [discriminate|].
      destruct (is_space c') eqn:Ec'; cbn [andb negb].
      * assert (Hne : Reference.tokens (c' :: r0) <> []).
        { intros H. apply tokens_nil in H. unfold blank in H. congruence. }
        destruct (Reference.tokens (c' :: r0)) as [|t ts]; [congruence|].
        split; reflexivity.
      * assert (Hne : Reference.tokens (c' :: r0) <> []).
        { intros H. apply tokens_nil in H. unfold blank in H. congruence. }
        destruct (Reference.tokens (c' :: r0)) as [|t ts]; [congruence|].
        rewrite join_cons. split; reflexivity.
Qed.

(** The normaliser of the program is the normaliser of the reference. *)
Lemma normalize_reference name : normalize name = Reference.normalize name.
Proof.
  unfold normalize, Reference.normalize, trim.
  rewrite <- (tokens_trim_start (toLowerCase name)).
  destruct (collapse_trim_end (trim_start (toLowerCase name))) as [_ H].
  rewrite H. destruct (trim_start (toLowerCase name)) as [|c r] eqn:E; auto.
  now rewrite (trim_start_head _ E).
Qed.

Lemma tokens_words s : Forall word (Reference.tokens s).
Proof.
  induction s as [|c r IH]; simpl; [constructor|].
  destruct (is_space c) eqn:Ec; auto.
  assert (Hc : word [c]).
  { split; [discriminate|]. simpl. now rewrite Ec. }
  destruct r as [|c' r0]; [repeat constructor; apply Hc|].
  destruct (is_space c') eqn:Ec'; [constructor; auto|].
  destruct (Reference.tokens (c' :: r0)) as [|t ts];
    [repeat constructor; apply Hc|].
  inversion IH as [|? ? [Hne Hw] Hts]; subst. constructor; auto.
  split; [discriminate|]. simpl. now rewrite Ec, Hw.
Qed.

Lemma split_word t : word t -> split_space t = [t].
Proof.
  intros [_ Hw]. induction t as [|c t IH]; [reflexivity|].
  simpl in Hw. apply andb_true_iff in Hw. destruct Hw as [Hc Hw].
  simpl. destruct (chr_eqb c " "%char) eqn:E.
  - apply space_char_is_space in E. rewrite E in Hc. discriminate.
  - now rewrite IH.
Qed.

Lemma split_word_app t rest :
  word t -> split_space (t ++ " "%char :: rest) = t :: split_space rest.
Proof.
  intros [_ Hw]. induction t as [|c t IH]; [reflexivity|].
  simpl in Hw. apply andb_true_iff in Hw. destruct Hw as [Hc Hw].
  simpl. destruct (chr_eqb c " "%char) eqn:E.
  - apply space_char_is_space in E. rewrite E in Hc. discriminate.
  - now rewrite IH.
Qed.

Lemma split_join ts :
  ts <> [] -> Forall word ts ->
  split_space (Reference.join_space ts) = ts.
Proof.
  induction ts as [|t ts IH]; [congruence|]. intros _ Hall.
  inversion Hall as [|? ? Ht Hts]; subst.
  destruct ts as [|t' ts'].
  - simpl. now apply split_word.
  - change (Reference.join_space (t :: t' :: ts'))
      with (t ++ " "%char :: Reference.join_space (t' :: ts')).
    rewrite split_word_app by assumption. f_equal. apply IH; auto.
    discriminate.
Qed.

Lemma tokens_word t : word t -> Reference.tokens t = [t].
Proof.
  intros [Hne Hw]. induction t as [|c t IH]; [congruence|].
  simpl in Hw. apply andb_true_iff in Hw. destruct Hw as [Hc Hw].
  apply negb_true_iff in Hc. simpl. rewrite Hc.
  destruct t as [|c' t']; [reflexivity|].
  assert (Hc' : is_space c' = false).
  { simpl in Hw. apply andb_true_iff in Hw. destruct Hw as [H _].
    now apply negb_true_iff in H. }
  rewrite Hc'. rewrite IH; [reflexivity|discriminate|assumption].
Qed.

Lemma tokens_word_app t rest :
  word t ->
  Reference.tokens (t ++ " "%char :: rest) = t :: Reference.tokens rest.
Proof.
  intros [Hne Hw]. induction t as [|c t IH]; [congruence|].
  simpl in Hw. apply andb_true_iff in Hw. destruct Hw as [Hc Hw].
  apply negb_true_iff in Hc.
  cbn [app Reference.tokens]. rewrite Hc.
  destruct t as [|c' t'].
  - reflexivity.
  - assert (Hc' : is_space c' = false).
    { simpl in Hw. apply andb_true_iff in Hw. destruct Hw as [H _].
      now apply negb_true_iff in H. }
    cbn [app] in *. rewrite Hc'.
    rewrite IH; [reflexivity|discriminate|assumption].
Qed.

Lemma tokens_join ts :
  Forall word ts -> Reference.tokens (Reference.join_space ts) = ts.
Proof.
  induction ts as [|t ts IH]; [reflexivity|]. intros Hall.
  inversion Hall as [|? ? Ht Hts]; subst.
  destruct ts as [|t' ts'].
  - simpl. now apply tokens_word.
  - change (Reference.join_space (t :: t' :: ts'))
      with (t ++ " "%char :: Reference.join_space (t' :: ts')).
    rewrite tokens_word_app by assumption. f_equal. now apply IH.
Qed.

Lemma join_nil ts :
  Forall word ts -> Reference.join_space ts = [] -> ts = [].
Proof.
  intros Hall H. destruct ts as [|t ts]; auto.
  inversion Hall as [|? ? [Hne _] _]; subst.
  destruct t; [congruence|]. destruct ts; discriminate.
Qed.

(** On a normalised name that is not empty, splitting at single spaces
    yields the white-space-delimited tokens. *)
Lemma split_normalized name :
  Reference.normalize name <> [] ->
  split_space (Reference.normalize name)
  = Reference.tokens (Reference.normalize name)
  /\ Reference.tokens (Reference.normalize name) <> [].
Proof.
  unfold Reference.normalize. intros Hne.
  pose proof (tokens_words (toLowerCase name)) as Hall.
  assert (Hts : Reference.tokens (toLowerCase name) <> []).
  { intros H. rewrite H in Hne. now apply Hne. }
  rewrite split_join, tokens_join by assumption. auto.
Qed.

(** C4. For every pair of names the score of the program is the score of
    the reference definition: both names lower-cased with white space
    collapsed; 1.0 when the two are equal, else 0.8 when one is a substring
    of the other, else the number of tokens of the first name shared with
    the second over the larger token count, and 0 when a name has no
    token. *)
Theorem C4_score_is_reference (a b : jsstring) :
  fuzzy_match_name a b = Reference.score a b.
Proof.
  unfold fuzzy_match_name, Reference.score, Reference.substring.
  rewrite !normalize_reference.
  set (na := Reference.normalize a). set (nb := Reference.normalize b).
  destruct (streq na nb); [reflexivity|].
  rewrite (orb_comm (includes nb na)).
  destruct (includes na nb || includes nb na) eqn:Hsub; [reflexivity|].
  apply orb_false_iff in Hsub. destruct Hsub as [Hab Hba].
  assert (Ha : na <> []).
  { intros H. rewrite H, includes_nil in Hba. discriminate. }
  assert (Hb : nb <> []).
  { intros H. rewrite H, includes_nil in Hab. discriminate. }
  destruct (split_normalized a Ha) as [Sa Ta].
  destruct (split_normalized b Hb) as [Sb Tb].
  fold na in Sa, Ta. fold nb in Sb, Tb. rewrite Sa, Sb.
  unfold Reference.shared, array_includes.
  destruct (Reference.tokens na) as [|ta tas]; [congruence|].
  destruct (Reference.tokens nb) as [|tb tbs]; [congruence|].
  reflexivity.
Qed.

(** The clause on names without tokens is never reached: an empty name is
    a substring of every name, so it scores 0.8 against one that is not
    empty. *)
Lemma empty_name_scores_as_contained (b : jsstring) :
  normalize b <> [] -> fuzzy_match_name [] b = (8 # 10)%Q.
Proof.
  intros Hb. unfold fuzzy_match_name.
  change (normalize []) with (@nil ascii).
  destruct (normalize b) as [|c n]; [congruence|].
  reflexivity.
Qed.

End ScoreFacts.

(** ** Keyword validation *)

Module ValidationFacts.

Import Keywords Samples.

Lemma distinct_NoDup l : distinct l = true -> NoDup l.
Proof.
  induction l as [|x l IH]; simpl; intros H; constructor.
  - apply andb_true_iff in H. destruct H as [H _].
    apply negb_true_iff in H. intros Hin.
    assert (existsb (streq x) l = true); [|congruence].
    apply existsb_exists. exists x. split; auto. apply streq_refl.
  - apply IH. apply andb_true_iff in H. tauto.
Qed.

(** C6. Flight validation counts the keywords of its fixed set of twelve
    that occur in the lower-cased text, hotel validation those of its set
    of thirteen; the keywords of a set are pairwise distinct.  A text of
    any length with fewer than three hits is answered with status invalid
    and carries the raw text; with three hits or more it passes. *)
Theorem C6_keyword_validation (text : jsstring) :
  (length Flight.flight_keywords = 12 /\ NoDup Flight.flight_keywords /\
   length Hotel.hotel_keywords = 13 /\ NoDup Hotel.hotel_keywords)
  /\ (hits Flight.flight_keywords text < 3 ->
      Flight.validate_flight_ticket text = false /\
      Flight.process_flight_ocr (inr text)
      = {| status := invalid; data := None;
           error := Some (js "Text does not contain flight ticket information");
           raw_text := Some text |})
  /\ (3 <= hits Flight.flight_keywords text ->
      Flight.validate_flight_ticket text = true /\
      status (Flight.process_flight_ocr (inr text)) = success)
  /\ (hits Hotel.hotel_keywords text < 3 ->
      Hotel.validate_hotel_booking text = false /\
      Hotel.process_hotel_ocr (inr text)
      = {| status := invalid; data := None;
           error := Some (js "Text does not contain hotel booking information");
           raw_text := Some text |})
  /\ (3 <= hits Hotel.hotel_keywords text ->
      Hotel.validate_hotel_booking text = true /\
      status (Hotel.process_hotel_ocr (inr text)) = success).
Proof.
  split; [|split; [|split; [|split]]].
  - repeat split; try reflexivity; apply distinct_NoDup; reflexivity.
  - intros H.
    assert (V : Flight.validate_flight_ticket text = false).
    { unfold Flight.validate_flight_ticket. apply Nat.leb_gt. exact H. }
    split; auto. unfold Flight.process_flight_ocr. now rewrite V.
  - intros H.
    assert (V : Flight.validate_flight_ticket text = true).
    { unfold Flight.validate_flight_ticket. apply Nat.leb_le. exact H. }
    split; auto. unfold Flight.process_flight_ocr. now rewrite V.
  - intros H.
    assert (V : Hotel.validate_hotel_booking text = false).
    { unfold Hotel.validate_hotel_booking. apply Nat.leb_gt. exact H. }
    split; auto. unfold Hotel.process_hotel_ocr. now rewrite V.
  - intros H.
    assert (V : Hotel.validate_hotel_booking text = true).
    { unfold Hotel.validate_hotel_booking. apply Nat.leb_le. exact H. }
    split; auto. unfold Hotel.process_hotel_ocr. now rewrite V.
Qed.

Lemma C6_validation_witness :
  Flight.validate_flight_ticket (js "Seat 12A, Gate 4") = false
  /\ Flight.validate_flight_ticket boarding_pass = true
  /\ Hotel.validate_hotel_booking (js "Room for one guest") = false
  /\ Hotel.validate_hotel_booking (js "Hotel room for one guest") = true.
Proof.
  split; [|split; [|split]].
  - apply (C6_keyword_validation (js "Seat 12A, Gate 4")).
    vm_compute. lia.
  - apply (C6_keyword_validation boarding_pass).
    vm_compute. lia.
  - apply (C6_keyword_validation (js "Room for one guest")).
    vm_compute. lia.
  - apply (C6_keyword_validation (js "Hotel room for one guest")).
    vm_compute. lia.
Defined.

End ValidationFacts.

(** ** Matches of a global pattern come in document order *)

Module RegexFacts.

Import Regex DocumentOrder.

Lemma firstn_length_firstn (A : Type) n (l : list A) :
  firstn (length (firstn n l)) l = firstn n l.
Proof.
  revert l; induction n as [|n IH]; intros [|x l]; simpl; auto.
  now rewrite IH.
Qed.

Lemma match_at_sound r text i mt :
  match_at r text i = Some mt -> index mt = i /\ genuine text mt.
Proof.
  unfold match_at, genuine, occurs_at.
  destruct (m r _ Some) as [st'|]; [|discriminate].
  intros H; inversion H; subst; clear H. simpl. split; auto.
  apply firstn_length_firstn.
Qed.

Lemma search_from_sound r text fuel : forall i mt,
  search_from fuel r text i = Some mt -> i <= index mt /\ genuine text mt.
Proof.
  induction fuel as [|fuel IH]; simpl; intros i mt H; [discriminate|].
  destruct (match_at r text i) as [mt'|] eqn:E.
  - inversion H; subst. apply match_at_sound in E. destruct E. split; auto.
    lia.
  - destruct (i <? length text); [|discriminate].
    apply IH in H. destruct H. split; auto. lia.
Qed.

Lemma exec_from_sound r text i mt :
  exec_from r text i = Some mt -> i <= index mt /\ genuine text mt.
Proof.
  unfold exec_from. destruct (length text <? i); [discriminate|].
  apply search_from_sound.
Qed.

Lemma match_all_from_sound r text fuel : forall i,
  Forall (fun mt => i <= index mt) (match_all_from fuel r text i)
  /\ in_document_order text (match_all_from fuel r text i).
Proof.
  unfold in_document_order.
  induction fuel as [|fuel IH]; simpl; intros i.
  - repeat split; constructor.
  - destruct (exec_from r text i) as [mt|] eqn:E.
    + apply exec_from_sound in E. destruct E as [Hi Hg].
      set (next := match matched mt with
                   | [] => S (index mt + length (matched mt))
                   | _ :: _ => index mt + length (matched mt)
                   end).
      assert (Hnext : index mt < next).
      { unfold next. destruct (matched mt); simpl; lia. }
      destruct (IH next) as [Hge [Hall Hs]].
      split; [|split].
      * constructor; auto.
        eapply Forall_impl; [|exact Hge]. simpl. intros; lia.
      * constructor; auto.
      * constructor; auto.
        eapply Forall_impl; [|exact Hge]. unfold before. simpl. intros; lia.
    + repeat split; constructor.
Qed.

Lemma matchAll_in_document_order r text :
  in_document_order text (matchAll r text).
Proof. apply match_all_from_sound. Qed.

Lemma filter_in_document_order text f l :
  in_document_order text l -> in_document_order text (filter f l).
Proof.
  unfold in_document_order. intros [Hall Hs]. split.
  - apply Forall_forall. intros x Hx. apply filter_In in Hx.
    rewrite Forall_forall in Hall. now apply Hall.
  - induction Hs as [|a l Hs IH Ha]; simpl; [constructor|].
    inversion Hall; subst.
    destruct (f a); auto. constructor; auto.
    apply Forall_forall. intros x Hx. apply filter_In in Hx.
    rewrite Forall_forall in Ha. now apply Ha.
Qed.

End RegexFacts.

(** ** Field extraction of a flight ticket *)

Module FlightFacts.

Import Regex Flight DocumentOrder Samples RegexFacts.

(** C7. On the scenario text the extractor yields the PNR, dates, times and
    airports of the scenario, but the flight number "APR2025" and the
    airline "APR": both flight patterns begin with two or three letters,
    which "6E" is not, and the first place where letters are followed by
    three or four digits is "Apr 2025". *)
Theorem C7_scenario_fields :
  let d := extract_flight_data scenario in
  pnr d = Some (js "SISCPF")
  /\ flight_number d = Some (js "APR2025")
  /\ airline d = Some (js "APR")
  /\ departure_date d = Some (js "21 Apr 2025")
  /\ arrival_date d = Some (js "23 Apr 2025")
  /\ departure_time d = Some (js "06:20 hrs")
  /\ arrival_time d = Some (js "21:55 hrs")
  /\ departure_airport d = Some (js "BOM")
  /\ arrival_airport d = Some (js "AUH").
Proof. vm_compute. repeat split. Qed.

(** C8, as the code has it. The dates are collected pattern by pattern:
    first every match of the day-month-name-year pattern, then every match
    of the numeric pattern, each group in document order (occurrences at
    increasing positions); the first collected date becomes the departure
    date and the second the arrival date, whatever the dates say. *)
Theorem C8_dates_by_pattern (text : jsstring) :
  let named := filter kept (matchAll named_date_pattern text) in
  let numeric := filter kept (matchAll numeric_date_pattern text) in
  extract_dates text = map matched named ++ map matched numeric
  /\ in_document_order text named
  /\ in_document_order text numeric
  /\ departure_date (extract_flight_data text) = nth_error (extract_dates text) 0
  /\ arrival_date (extract_flight_data text) = nth_error (extract_dates text) 1.
Proof.
  cbv zeta. split; [|split; [|split; [|split]]].
  - unfold extract_dates, collect, date_patterns. simpl flat_map.
    now rewrite app_nil_r, map_app.
  - apply filter_in_document_order, matchAll_in_document_order.
  - apply filter_in_document_order, matchAll_in_document_order.
  - reflexivity.
  - reflexivity.
Qed.

(** C8, as stated, fails: a numeric date that stands first in the text is
    collected after a later date with a month name, and the later date
    becomes the departure date. *)
Lemma C8_not_across_patterns :
  map (fun mt => (index mt, matched mt)) (collect date_patterns out_of_order)
  = [(27, js "21 Apr 2025"); (7, js "12/04/2025")]
  /\ departure_date (extract_flight_data out_of_order)
     = Some (js "21 Apr 2025")
  /\ ~ in_document_order out_of_order (collect date_patterns out_of_order).
Proof.
  split; [vm_compute; reflexivity|]. split; [vm_compute; reflexivity|].
  intros [_ H]. vm_compute in H.
  inversion H as [|a l _ Hlt]; subst.
  inversion Hlt as [|b l' Hb _]; subst.
  unfold before in Hb. simpl in Hb. lia.
Qed.

End FlightFacts.

(** ** The flight number never begins with a digit *)

Module FlightNumberFacts.

Import Regex Flight DocumentOrder RegexFacts.

Local Unset Implicit Arguments.

Lemma flight_pattern_needs_letter p st k res :
  In p flight_patterns -> m p st k = Some res ->
  exists c s, rest st = c :: s /\ is_alpha c = true.
Proof.
  intros [<- | [<- | []]] H; cbn in H.
  - destruct (rest st) as [|c s]; [discriminate|].
    destruct (is_alpha c) eqn:E; [eauto|discriminate].
  - destruct (xorb (word_before st) (word_after st)); [|discriminate].
    destruct (rest st) as [|c s]; [discriminate|].
    destruct (is_alpha c) eqn:E; [eauto|discriminate].
Qed.

Lemma first_of_some (A B : Type) (f : A -> option B) xs y :
  first_of f xs = Some y -> exists x, In x xs /\ f x = Some y.
Proof.
  induction xs as [|x xs IH]; simpl; [discriminate|].
  destruct (f x) eqn:E.
  - intros H; inversion H; subst. exists x. auto.
  - intros H. destruct (IH H) as [x' [Hin Hx]]. exists x'. auto.
Qed.

Lemma search_from_match_at r text fuel : forall i mt,
  search_from fuel r text i = Some mt ->
  exists j, match_at r text j = Some mt.
Proof.
  induction fuel as [|fuel IH]; simpl; intros i mt H; [discriminate|].
  destruct (match_at r text i) eqn:E.
  - inversion H; subst. eauto.
  - destruct (i <? length text); [eauto|discriminate].
Qed.

Lemma flight_match_starts_with_letter p text mt :
  In p flight_patterns -> str_match p text = Some mt ->
  matched mt = [] \/ exists c s, matched mt = c :: s /\ is_alpha c = true.
Proof.
  intros Hp H. unfold str_match, exec_from in H.
  destruct (length text <? 0); [discriminate|].
  apply search_from_match_at in H. destruct H as [j H].
  unfold match_at in H.
  destruct (m p _ Some) as [st'|] eqn:E; [|discriminate].
  inversion H; subst; clear H. cbn [matched].
  destruct (flight_pattern_needs_letter _ _ _ _ Hp E) as [c [s [Hr Hc]]].
  cbn [rest] in Hr. rewrite Hr.
  destruct (length (c :: s) - length (rest st')); simpl; eauto.
Qed.

Lemma letter_is_not_space_or_six c :
  is_alpha c = true -> is_space c = false /\ upper_char c <> "6"%char.
Proof.
  destruct c as [[] [] [] [] [] [] [] []]; vm_compute;
    intros H; try discriminate H; split; try reflexivity; discriminate.
Qed.

(** Whatever the text, the extractor never yields the flight number
    "6E1402": what it yields begins with a letter. *)
Lemma flight_number_never_6E1402 (text : jsstring) :
  flight_number (extract_flight_data text) <> Some (js "6E1402").
Proof.
  cbn [flight_number extract_flight_data]. unfold extract_flight_number.
  intros H. apply first_of_some in H. destruct H as [p [Hp H]].
  destruct (str_match p text) as [mt|] eqn:E; [|discriminate].
  destruct (str_match only_digits _); [discriminate|].
  destruct (4 <=? _); [|discriminate].
  inversion H as [H']; clear H.
  destruct (flight_match_starts_with_letter _ _ _ Hp E)
    as [Hm | [c [s [Hm Hc]]]]; rewrite Hm in H'.
  - discriminate.
  - destruct (letter_is_not_space_or_six _ Hc) as [Hs H6].
    cbn [remove_spaces filter] in H'. rewrite Hs in H'.
    cbn [negb toUpperCase map] in H'. inversion H'. contradiction.
Qed.

End FlightNumberFacts.

(** ** Units of the orchestrator *)

Module RouterFacts.

Import Router Payload Observe Outcomes.

Lemma publish_progress_run env channel ev w :
  publish_progress env channel ev w
  = (match redis env (publishes w), redis_version env with
     | Some e, rethrowing => Raise e
     | _, _ => Ok tt
     end,
     after_publish env channel ev w).
Proof.
  unfold publish_progress, publish_to_redis, try_catch, publisher_publish,
    after_publish, accepted.
  destruct (redis env (publishes w)); [destruct (redis_version env)|];
    reflexivity.
Qed.

Lemma publish_quiet env channel ev w k :
  quiet env w (S k) ->
  publish_progress env channel ev w = (Ok tt, after_publish env channel ev w)
  /\ quiet env (after_publish env channel ev w) k.
Proof.
  intros Hq. rewrite publish_progress_run. split.
  - destruct Hq as [Hv | Hq].
    + rewrite Hv. now destruct (redis env (publishes w)).
    + rewrite (Hq (publishes w)) by lia. reflexivity.
  - destruct Hq as [Hv | Hq]; [now left|right].
    simpl. intros i Hi. apply Hq. lia.
Qed.

Lemma flight_success_has_data recognised :
  status (Flight.process_flight_ocr recognised) = success ->
  exists d, data (Flight.process_flight_ocr recognised) = Some d.
Proof.
  unfold Flight.process_flight_ocr. destruct recognised as [e|text].
  - discriminate.
  - destruct (negb (Flight.validate_flight_ticket text)); [discriminate|].
    eexists; reflexivity.
Qed.

Lemma hotel_success_has_data recognised :
  status (Hotel.process_hotel_ocr recognised) = success ->
  exists d, data (Hotel.process_hotel_ocr recognised) = Some d.
Proof.
  unfold Hotel.process_hotel_ocr. destruct recognised as [e|text].
  - discriminate.
  - destruct (negb (Hotel.validate_hotel_booking text)); [discriminate|].
    eexists; reflexivity.
Qed.

Lemma snoc3 (A : Type) (l : list A) a b c :
  ((l ++ [a]) ++ [b]) ++ [c] = l ++ [a; b; c].
Proof. now rewrite <- !app_assoc. Qed.

Lemma snoc2 (A : Type) (l : list A) a b :
  (l ++ [a]) ++ [b] = l ++ [a; b].
Proof. now rewrite <- !app_assoc. Qed.

(** With the second [publish_to_redis] (the one that swallows), or while
    Redis accepts the two publishes of the unit, a flight or hotel unit
    whose extraction succeeds and whose extracted name the matcher maps to
    nobody ends as mapped: the mapped progress event and the webhook body
    carry the traveller id of the document itself, and the webhook reports
    COMPLETED. *)
Lemma unmatched_ticket_keeps_own_traveller
    (env : Env) (channel order_id : jsstring)
    (documents : list DocumentPayload) (doc : DocumentPayload) (w : World) :
  quiet env w 2 ->
  (let r := Flight.process_flight_ocr (recognise env (file_url doc)) in
   status r = success ->
   (forall d, data r = Some d ->
      Mapping.map_ticket_to_passenger (Flight.passenger_name d)
        (all_travellers documents) = None) ->
   exists d delta,
     data r = Some d /\
     flight_unit env channel order_id documents doc w
     = (Ok tt, {| publishes := 2 + publishes w; trace := trace w ++ delta |}) /\
     publications delta
     = [ progress order_id (traveller_id doc) (traveller_name doc)
           (document_id doc) flight processing None None;
         progress order_id (traveller_id doc)
           (opt_or (name_of (all_travellers documents) (traveller_id doc))
                   (traveller_name doc))
           (document_id doc) flight mapped (Some (FlightFields d)) None ] /\
     posts delta = [own_ticket_body doc flight (FlightResult r)])
  /\
  (let r := Hotel.process_hotel_ocr (recognise env (file_url doc)) in
   status r = success ->
   (forall d, data r = Some d ->
      Mapping.map_ticket_to_passenger (Hotel.guest_name d)
        (all_travellers documents) = None) ->
   exists d delta,
     data r = Some d /\
     hotel_unit env channel order_id documents doc w
     = (Ok tt, {| publishes := 2 + publishes w; trace := trace w ++ delta |}) /\
     publications delta
     = [ progress order_id (traveller_id doc) (traveller_name doc)
           (document_id doc) hotel processing None None;
         progress order_id (traveller_id doc)
           (opt_or (name_of (all_travellers documents) (traveller_id doc))
                   (traveller_name doc))
           (document_id doc) hotel mapped (Some (HotelFields d)) None ] /\
     posts delta = [own_ticket_body doc hotel (HotelResult r)]).
Proof.
  intros Hq. split; cbv zeta; intros Hs Hm.
  - destruct (flight_success_has_data _ Hs) as [d Hd].
    specialize (Hm d Hd). exists d.
    unfold flight_unit, try_catch, flight_attempt, bind.
    destruct (publish_quiet channel
                (progress order_id (traveller_id doc) (traveller_name doc)
                   (document_id doc) flight processing None None) Hq)
      as [E1 Hq1].
    rewrite E1, Hs, Hd, Hm. cbn [opt_or].
    match goal with
    | |- context [publish_progress env channel ?ev (after_publish _ _ _ _)] =>
        destruct (publish_quiet channel ev Hq1) as [E2 _]
    end.
    rewrite E2.
    unfold update_main_backend_with_ticket, emit, after_publish.
    cbn [trace publishes]. rewrite snoc3.
    eexists. split; [reflexivity|]. split; [reflexivity|].
    unfold own_ticket_body, ocr_status_of, any_status. now rewrite Hs.
  - destruct (hotel_success_has_data _ Hs) as [d Hd].
    specialize (Hm d Hd). exists d.
    unfold hotel_unit, try_catch, hotel_attempt, bind.
    destruct (publish_quiet channel
                (progress order_id (traveller_id doc) (traveller_name doc)
                   (document_id doc) hotel processing None None) Hq)
      as [E1 Hq1].
    rewrite E1, Hs, Hd, Hm. cbn [opt_or].
    match goal with
    | |- context [publish_progress env channel ?ev (after_publish _ _ _ _)] =>
        destruct (publish_quiet channel ev Hq1) as [E2 _]
    end.
    rewrite E2.
    unfold update_main_backend_with_ticket, emit, after_publish.
    cbn [trace publishes]. rewrite snoc3.
    eexists. split; [reflexivity|]. split; [reflexivity|].
    unfold own_ticket_body, ocr_status_of, any_status. now rewrite Hs.
Qed.

(** *** Failed units *)

Lemma flight_failure_has_message recognised :
  status (Flight.process_flight_ocr recognised) <> success ->
  exists msg,
    error (Flight.process_flight_ocr recognised) = Some msg /\
    data (Flight.process_flight_ocr recognised) = None.
Proof.
  unfold Flight.process_flight_ocr. destruct recognised as [e|text].
  - eexists; split; reflexivity.
  - destruct (negb (Flight.validate_flight_ticket text)).
    + eexists; split; reflexivity.
    + simpl. congruence.
Qed.

Lemma hotel_failure_has_message recognised :
  status (Hotel.process_hotel_ocr recognised) <> success ->
  exists msg,
    error (Hotel.process_hotel_ocr recognised) = Some msg /\
    data (Hotel.process_hotel_ocr recognised) = None.
Proof.
  unfold Hotel.process_hotel_ocr. destruct recognised as [e|text].
  - eexists; split; reflexivity.
  - destruct (negb (Hotel.validate_hotel_booking text)).
    + eexists; split; reflexivity.
    + simpl. congruence.
Qed.

Lemma passport_failure_has_message answer :
  status (Passport.process_passport_ocr answer) <> success ->
  exists msg,
    error (Passport.process_passport_ocr answer) = Some msg /\
    data (Passport.process_passport_ocr answer) = None /\
    status (Passport.process_passport_ocr answer) = error_status.
Proof.
  destruct answer as [e|d]; simpl.
  - eexists; repeat split; reflexivity.
  - congruence.
Qed.

Lemma flight_unit_failure env channel order_id documents doc w :
  quiet env w 2 ->
  status (Flight.process_flight_ocr (recognise env (file_url doc))) <> success ->
  exists msg delta,
    error (Flight.process_flight_ocr (recognise env (file_url doc)))
    = Some msg /\
    flight_unit env channel order_id documents doc w
    = (Ok tt, {| publishes := 2 + publishes w; trace := trace w ++ delta |}) /\
    publications delta
    = [ progress order_id (traveller_id doc) (traveller_name doc)
          (document_id doc) flight processing None None;
        progress order_id (traveller_id doc) (traveller_name doc)
          (document_id doc) flight failed None (Some msg) ] /\
    posts delta = [].
Proof.
  intros Hq Hs. destruct (flight_failure_has_message _ Hs) as [msg [He Hd]].
  exists msg. unfold flight_unit, try_catch, flight_attempt, bind.
  destruct (publish_quiet channel
              (progress order_id (traveller_id doc) (traveller_name doc)
                 (document_id doc) flight processing None None) Hq)
    as [E1 Hq1].
  rewrite E1, Hd, He.
  assert (E2 : forall ev,
             publish_progress env channel ev
               (after_publish env channel
                  (progress order_id (traveller_id doc) (traveller_name doc)
                     (document_id doc) flight processing None None) w)
             = (Ok tt, after_publish env channel ev
                  (after_publish env channel
                     (progress order_id (traveller_id doc)
                        (traveller_name doc) (document_id doc) flight
                        processing None None) w)))
    by (intros ev; apply (publish_quiet channel ev Hq1)).
  destruct (status (Flight.process_flight_ocr (recognise env (file_url doc))));
    rewrite E2; unfold after_publish; cbn [trace publishes]; rewrite snoc2;
    eexists; repeat split; reflexivity.
Qed.

Lemma hotel_unit_failure env channel order_id documents doc w :
  quiet env w 2 ->
  status (Hotel.process_hotel_ocr (recognise env (file_url doc))) <> success ->
  exists msg delta,
    error (Hotel.process_hotel_ocr (recognise env (file_url doc))) = Some msg /\
    hotel_unit env channel order_id documents doc w
    = (Ok tt, {| publishes := 2 + publishes w; trace := trace w ++ delta |}) /\
    publications delta
    = [ progress order_id (traveller_id doc) (traveller_name doc)
          (document_id doc) hotel processing None None;
        progress order_id (traveller_id doc) (traveller_name doc)
          (document_id doc) hotel failed None (Some msg) ] /\
    posts delta = [].
Proof.
  intros Hq Hs. destruct (hotel_failure_has_message _ Hs) as [msg [He Hd]].
  exists msg. unfold hotel_unit, try_catch, hotel_attempt, bind.
  destruct (publish_quiet channel
              (progress order_id (traveller_id doc) (traveller_name doc)
                 (document_id doc) hotel processing None None) Hq)
    as [E1 Hq1].
  rewrite E1, Hd, He.
  assert (E2 : forall ev,
             publish_progress env channel ev
               (after_publish env channel
                  (progress order_id (traveller_id doc) (traveller_name doc)
                     (document_id doc) hotel processing None None) w)
             = (Ok tt, after_publish env channel ev
                  (after_publish env channel
                     (progress order_id (traveller_id doc)
                        (traveller_name doc) (document_id doc) hotel
                        processing None None) w)))
    by (intros ev; apply (publish_quiet channel ev Hq1)).
  destruct (status (Hotel.process_hotel_ocr (recognise env (file_url doc))));
    rewrite E2; unfold after_publish; cbn [trace publishes]; rewrite snoc2;
    eexists; repeat split; reflexivity.
Qed.

Lemma passport_unit_failure env channel order_id t f b w :
  quiet env w 2 ->
  status (Passport.process_passport_ocr
            (verify env (file_url f) (file_url b))) <> success ->
  exists msg delta,
    error (Passport.process_passport_ocr
             (verify env (file_url f) (file_url b))) = Some msg /\
    passport_unit env channel order_id
      (t, {| front := Some f; back := Some b |}) w
    = (Ok tt, {| publishes := 2 + publishes w; trace := trace w ++ delta |}) /\
    publications delta
    = [ progress order_id t (traveller_name f) (document_id f) passport
          processing None None;
        progress order_id t (traveller_name f) (document_id f) passport
          failed None (Some msg) ] /\
    posts delta
    = [ failed_passport_body t f b
          (Passport.process_passport_ocr
             (verify env (file_url f) (file_url b))) ].
Proof.
  intros Hq Hs.
  destruct (passport_failure_has_message _ Hs) as [msg [He [Hd Hst]]].
  exists msg.
  unfold passport_unit, try_catch, passport_attempt, bind. cbn [front back].
  destruct (publish_quiet channel
              (progress order_id t (traveller_name f) (document_id f)
                 passport processing None None) Hq) as [E1 Hq1].
  rewrite E1, Hd, He, Hst. cbn [option_map].
  match goal with
  | |- context [publish_progress env channel ?ev (after_publish _ _ _ _)] =>
      destruct (publish_quiet channel ev Hq1) as [E2 _]
  end.
  rewrite E2.
  unfold update_main_backend_with_passport, emit, after_publish.
  cbn [trace publishes]. rewrite snoc3.
  eexists. split; [reflexivity|]. split; [reflexivity|]. split; [reflexivity|].
  unfold failed_passport_body, ocr_status_of, any_status.
  now rewrite Hst.
Qed.

Ltac crunch :=
  repeat first
    [ progress (rewrite publish_progress_run)
    | progress (unfold bind, try_catch, update_main_backend_with_ticket,
                  update_main_backend_with_passport, emit, after_publish)
    | progress (cbn [fst snd trace publishes])
    | match goal with
      | |- context [match status ?r with _ => _ end] =>
          destruct (status r) eqn:?
      | |- context [match data ?r with _ => _ end] =>
          destruct (data r) eqn:?
      | |- context [match redis ?env ?n with _ => _ end] =>
          destruct (redis env n) eqn:?
      | |- context [match redis_version ?env with _ => _ end] =>
          destruct (redis_version env) eqn:?
      end ].

Ltac raised :=
  let H := fresh in
  intros H; inversion H; subst; clear H;
  eexists; split; [rewrite <- ?app_assoc; reflexivity | reflexivity].

Lemma flight_attempt_raises env channel order_id documents doc w e w1 :
  flight_attempt env channel order_id documents doc w = (Raise e, w1) ->
  exists delta, trace w1 = trace w ++ delta /\ posts delta = [].
Proof.
  unfold flight_attempt. crunch; try discriminate; raised.
Qed.

Lemma hotel_attempt_raises env channel order_id documents doc w e w1 :
  hotel_attempt env channel order_id documents doc w = (Raise e, w1) ->
  exists delta, trace w1 = trace w ++ delta /\ posts delta = [].
Proof.
  unfold hotel_attempt. crunch; try discriminate; raised.
Qed.

Lemma passport_attempt_raises env channel order_id t f b w e w1 :
  passport_attempt env channel order_id t f b w = (Raise e, w1) ->
  exists delta, trace w1 = trace w ++ delta /\ posts delta = [].
Proof.
  unfold passport_attempt. crunch; try discriminate; raised.
Qed.

End RouterFacts.

(** ** The document grouper *)

Module GroupFacts.

Import Router Payload Observe Grouping.

Local Unset Implicit Arguments.

Lemma is_type_spec d t : is_type d t = true <-> has_type t d.
Proof. unfold is_type, has_type. apply streq_spec. Qed.

Lemma has_spec docs id : has docs id = true <-> In id (map fst docs).
Proof.
  induction docs as [|[k p] docs IH]; simpl.
  - split; [discriminate|tauto].
  - rewrite orb_true_iff, streq_spec, IH. tauto.
Qed.

Lemma update_keys docs id f : map fst (update docs id f) = map fst docs.
Proof.
  induction docs as [|[k p] docs IH]; simpl; auto.
  destruct (streq k id); simpl; congruence.
Qed.

Lemma in_update docs id f t p :
  In (t, p) (update docs id f) ->
  (t <> id /\ In (t, p) docs) \/
  (t = id /\ exists p0, In (id, p0) docs /\ p = f p0) \/
  (t = id /\ In (t, p) docs /\ ~ NoDup (map fst docs)).
Proof.
  induction docs as [|[k q] docs IH]; simpl; [tauto|].
  destruct (streq k id) eqn:E.
  - apply streq_spec in E. subst k. simpl. intros [H | H].
    + inversion H; subst. right. left. split; auto. exists q. auto.
    + destruct (list_eq_dec ascii_dec t id) as [->|Hne].
      * right. right. split; auto. split; auto.
        intros Hnd. inversion Hnd as [|? ? Hnin _]; subst. apply Hnin.
        apply in_map_iff. exists (id, p). auto.
      * left. auto.
  - assert (Hk : k <> id).
    { intros ->. rewrite streq_refl in E. discriminate. }
    simpl. intros [H | H].
    + inversion H; subst. left. auto.
    + destruct (IH H) as [[Hne Hin] | [[-> [p0 [Hin Hp]]] | [-> [Hin Hnd]]]].
      * left; auto.
      * right; left. split; auto. exists p0; auto.
      * right; right. split; auto. split; auto.
        intros Hnd'. apply Hnd. now inversion Hnd'.
Qed.

Lemma update_other docs id f t p :
  t <> id -> In (t, p) docs -> In (t, p) (update docs id f).
Proof.
  intros Hne. induction docs as [|[k q] docs IH]; simpl; auto.
  intros [H | H].
  - inversion H; subst. destruct (streq t id) eqn:E.
    + apply streq_spec in E. congruence.
    + now left.
  - destruct (streq k id); simpl; auto.
Qed.

Lemma update_same docs id f :
  In id (map fst docs) ->
  exists p0, In (id, p0) docs /\ In (id, f p0) (update docs id f).
Proof.
  induction docs as [|[k q] docs IH]; simpl; [tauto|].
  intros H. destruct (streq k id) eqn:E.
  - apply streq_spec in E. subst k. exists q. simpl. auto.
  - destruct H as [H | H].
    + subst k. rewrite streq_refl in E. discriminate.
    + destruct (IH H) as [p0 [H1 H2]]. exists p0. simpl. auto.
Qed.

Lemma grouped_nil :
  grouped [] {| passport_docs := []; flight_docs := []; hotel_docs := [] |}.
Proof.
  constructor; simpl; try tauto; try reflexivity. constructor.
Qed.

Lemma type_exclusive d t t' :
  is_type d t = true -> streq (js t) (js t') = false -> is_type d t' = false.
Proof.
  intros H Hne. apply is_type_spec in H. unfold has_type in H.
  unfold is_type. now rewrite H.
Qed.

Lemma assign_keeps_front doc p f :
  front p = Some f -> exists f', front (assign doc p) = Some f'.
Proof.
  unfold assign. destruct (is_type doc "passport_front"); simpl; eauto.
Qed.

Lemma assign_keeps_back doc p b :
  back p = Some b -> exists b', back (assign doc p) = Some b'.
Proof.
  unfold assign. destruct (is_type doc "passport_front"); simpl; eauto.
Qed.

Lemma ensure_keys docs id :
  NoDup (map fst docs) ->
  NoDup (map fst (ensure docs id)) /\ In id (map fst (ensure docs id)).
Proof.
  intros Hnd. unfold ensure. destruct (has docs id) eqn:E; simpl.
  - split; auto. now apply has_spec.
  - rewrite map_app. simpl. split.
    + apply NoDup_app; [assumption|repeat constructor; simpl; tauto|].
      intros x Hx [<- | []]. apply has_spec in Hx. congruence.
    + apply in_or_app. right. now left.
Qed.

Lemma ensure_in docs id t p :
  In (t, p) (ensure docs id) -> In (t, p) docs \/ (t = id /\ p = blank_pair).
Proof.
  unfold ensure. destruct (negb (has docs id)); auto.
  intros H. apply in_app_or in H. destruct H as [H | [H | []]]; auto.
  inversion H; auto.
Qed.

Lemma in_ensure docs id t p : In (t, p) docs -> In (t, p) (ensure docs id).
Proof.
  unfold ensure. destruct (negb (has docs id)); auto.
  intros H. apply in_or_app. now left.
Qed.

Lemma unique_value (docs : PassportDocs) k a b :
  NoDup (map fst docs) -> In (k, a) docs -> In (k, b) docs -> a = b.
Proof.
  induction docs as [|[k' q] docs IH]; simpl; [tauto|].
  intros Hnd. inversion Hnd as [|? ? Hnin Hnd']; subst.
  intros [Ha | Ha] [Hb | Hb].
  - congruence.
  - inversion Ha; subst. exfalso. apply Hnin. apply in_map_iff.
    exists (k, b). auto.
  - inversion Hb; subst. exfalso. apply Hnin. apply in_map_iff.
    exists (k, a). auto.
  - now apply IH.
Qed.

(** The entries after a passport side of traveller [id] was stored. *)
Lemma stored_entries docs doc t p :
  NoDup (map fst docs) ->
  In (t, p) (update (ensure docs (traveller_id doc)) (traveller_id doc)
               (assign doc)) ->
  (t <> traveller_id doc /\ In (t, p) docs) \/
  (t = traveller_id doc /\
   exists p0, (In (t, p0) docs \/ p0 = blank_pair) /\ p = assign doc p0).
Proof.
  intros Hnd H. destruct (ensure_keys docs (traveller_id doc) Hnd) as [Hnd' _].
  apply in_update in H.
  destruct H as [[Hne Hin] | [[-> [p0 [Hin ->]]] | [_ [_ Habs]]]].
  - left. split; auto. apply ensure_in in Hin. destruct Hin as [|[? _]]; tauto.
  - right. split; auto. exists p0. split; auto.
    apply ensure_in in Hin. destruct Hin as [|[_ ?]]; auto.
  - tauto.
Qed.

Lemma entry_stored docs doc :
  NoDup (map fst docs) ->
  exists p0,
    (In (traveller_id doc, p0) docs \/
     (p0 = blank_pair /\ ~ In (traveller_id doc) (map fst docs))) /\
    In (traveller_id doc, assign doc p0)
       (update (ensure docs (traveller_id doc)) (traveller_id doc)
          (assign doc)).
Proof.
  intros Hnd. destruct (ensure_keys docs (traveller_id doc) Hnd) as [Hnd' Hin].
  destruct (update_same (ensure docs (traveller_id doc)) (traveller_id doc)
              (assign doc) Hin) as [p0 [H0 H1]].
  exists p0. split; auto.
  unfold ensure in H0. destruct (has docs (traveller_id doc)) eqn:E; simpl in H0.
  - now left.
  - apply in_app_or in H0. destruct H0 as [H0 | [H0 | []]]; [now left|].
    right. inversion H0; subst. split; auto.
    intros Hk. apply has_spec in Hk. congruence.
Qed.

Lemma group_step_passport g doc :
  is_front doc || is_back doc = true ->
  group_step g doc
  = {| passport_docs :=
         update (ensure (passport_docs g) (traveller_id doc))
           (traveller_id doc) (assign doc);
       flight_docs := flight_docs g;
       hotel_docs := hotel_docs g |}.
Proof.
  unfold group_step, is_front, is_back. intros ->. reflexivity.
Qed.

Lemma group_step_grouped seen g doc :
  grouped seen g -> grouped (seen ++ [doc]) (group_step g doc).
Proof.
  intros G. destruct G as [Hnd Hfs Hbs Hfc Hbc Hfl Hho].
  destruct (is_front doc || is_back doc) eqn:Epass.
  - (* a passport side *)
    rewrite (group_step_passport g doc Epass).
    assert (Hfl' : is_flight doc = false /\ is_hotel doc = false).
    { apply orb_true_iff in Epass. destruct Epass as [E | E];
        split; eapply type_exclusive; eauto. }
    destruct Hfl' as [Hnf Hnh].
    assert (Hfb : is_front doc = false -> is_back doc = true).
    { intros H. rewrite H in Epass. exact Epass. }
    constructor; cbn [passport_docs flight_docs hotel_docs].
    + rewrite update_keys. apply ensure_keys; auto.
    + intros t p f Hin Hf. apply stored_entries in Hin; auto.
      destruct Hin as [[Hne Hin] | [-> [p0 [Hin ->]]]].
      * destruct (Hfs t p f Hin Hf) as [H1 [H2 H3]].
        repeat split; auto. apply in_or_app; now left.
      * unfold assign in Hf. fold (is_front doc) in Hf.
        destruct (is_front doc) eqn:E; cbn [front] in Hf.
        -- inversion Hf; subst. repeat split; auto.
           apply in_or_app; right; now left.
        -- destruct Hin as [Hin | ->]; [|discriminate].
           destruct (Hfs _ _ _ Hin Hf) as [H1 [H2 H3]].
           repeat split; auto. apply in_or_app; now left.
    + intros t p b Hin Hb. apply stored_entries in Hin; auto.
      destruct Hin as [[Hne Hin] | [-> [p0 [Hin ->]]]].
      * destruct (Hbs t p b Hin Hb) as [H1 [H2 H3]].
        repeat split; auto. apply in_or_app; now left.
      * unfold assign in Hb. fold (is_front doc) in Hb.
        destruct (is_front doc) eqn:E; cbn [back] in Hb.
        -- destruct Hin as [Hin | ->]; [|discriminate].
           destruct (Hbs _ _ _ Hin Hb) as [H1 [H2 H3]].
           repeat split; auto. apply in_or_app; now left.
        -- inversion Hb; subst. repeat split; auto.
           apply in_or_app; right; now left.
    + intros d Hd Hty. apply in_app_or in Hd.
      destruct (entry_stored (passport_docs g) doc Hnd) as [p0 [Hp0 Hst]].
      destruct Hd as [Hd | [<- | []]].
      * destruct (Hfc d Hd Hty) as [p [f [Hin Hf]]].
        destruct (list_eq_dec ascii_dec (traveller_id d) (traveller_id doc))
          as [Heq | Hne].
        -- rewrite Heq in *. exists (assign doc p0).
           destruct Hp0 as [Hp0 | [_ Habs]].
           ++ rewrite (unique_value _ _ _ _ Hnd Hp0 Hin) in *.
              destruct (assign_keeps_front doc p f Hf) as [f' Hf'].
              exists f'. split; assumption.
           ++ exfalso. apply Habs. apply in_map_iff. exists (traveller_id doc, p).
              auto.
        -- exists p, f. split; auto. apply update_other; auto.
           now apply in_ensure.
      * exists (assign doc p0), doc. split; [exact Hst|].
        unfold assign. fold (is_front doc). now rewrite Hty.
    + intros d Hd Hty. apply in_app_or in Hd.
      destruct (entry_stored (passport_docs g) doc Hnd) as [p0 [Hp0 Hst]].
      destruct Hd as [Hd | [<- | []]].
      * destruct (Hbc d Hd Hty) as [p [b [Hin Hb]]].
        destruct (list_eq_dec ascii_dec (traveller_id d) (traveller_id doc))
          as [Heq | Hne].
        -- rewrite Heq in *. exists (assign doc p0).
           destruct Hp0 as [Hp0 | [_ Habs]].
           ++ rewrite (unique_value _ _ _ _ Hnd Hp0 Hin) in *.
              destruct (assign_keeps_back doc p b Hb) as [b' Hb'].
              exists b'. split; assumption.
           ++ exfalso. apply Habs. apply in_map_iff. exists (traveller_id doc, p).
              auto.
        -- exists p, b. split; auto. apply update_other; auto.
           now apply in_ensure.
      * assert (Hnfr : is_front doc = false)
          by (eapply type_exclusive; eauto).
        exists (assign doc p0), doc. split; [exact Hst|].
        unfold assign. fold (is_front doc). now rewrite Hnfr.
    + rewrite filter_app. simpl. rewrite Hnf, app_nil_r. exact Hfl.
    + rewrite filter_app. simpl. rewrite Hnh, app_nil_r. exact Hho.
  - (* not a passport side *)
    apply orb_false_iff in Epass. destruct Epass as [Enf Enb].
    assert (Hpd : passport_docs (group_step g doc) = passport_docs g).
    { unfold group_step. unfold is_front, is_back in Enf, Enb.
      rewrite Enf, Enb. simpl.
      destruct (is_type doc "flight"); [reflexivity|].
      destruct (is_type doc "hotel"); reflexivity. }
    constructor; rewrite ?Hpd; auto.
    + intros t p f Hin Hf. destruct (Hfs t p f Hin Hf) as [H1 [H2 H3]].
      repeat split; auto. apply in_or_app; now left.
    + intros t p b Hin Hb. destruct (Hbs t p b Hin Hb) as [H1 [H2 H3]].
      repeat split; auto. apply in_or_app; now left.
    + intros d Hd Hty. apply in_app_or in Hd. destruct Hd as [Hd | [<- | []]].
      * now apply Hfc.
      * congruence.
    + intros d Hd Hty. apply in_app_or in Hd. destruct Hd as [Hd | [<- | []]].
      * now apply Hbc.
      * congruence.
    + unfold group_step. unfold is_front, is_back in Enf, Enb.
      rewrite Enf, Enb. simpl. rewrite filter_app. simpl.
      fold (is_flight doc). destruct (is_flight doc) eqn:Ef.
      * cbn [flight_docs]. now rewrite Hfl.
      * rewrite app_nil_r.
        destruct (is_type doc "hotel"); cbn [flight_docs]; exact Hfl.
    + unfold group_step. unfold is_front, is_back in Enf, Enb.
      rewrite Enf, Enb. simpl. rewrite filter_app. simpl.
      fold (is_flight doc). destruct (is_flight doc) eqn:Ef.
      * cbn [hotel_docs].
        assert (Hnh : is_hotel doc = false)
          by (eapply type_exclusive; eauto).
        now rewrite Hnh, app_nil_r.
      * fold (is_hotel doc). destruct (is_hotel doc) eqn:Eh.
        -- cbn [hotel_docs]. now rewrite Hho.
        -- rewrite app_nil_r. exact Hho.
Qed.

Lemma fold_grouped docs : forall seen g,
  grouped seen g -> grouped (seen ++ docs) (fold_left group_step docs g).
Proof.
  induction docs as [|d docs IH]; simpl; intros seen g G.
  - now rewrite app_nil_r.
  - replace (seen ++ d :: docs) with ((seen ++ [d]) ++ docs)
      by (now rewrite <- app_assoc).
    apply IH. now apply group_step_grouped.
Qed.

Lemma group_documents_grouped documents :
  grouped documents (group_documents documents).
Proof. apply (fold_grouped documents [] _ grouped_nil). Qed.

End GroupFacts.

(** ** Runs of a batch *)

Module BatchFacts.

Import Router Payload Observe Outcomes Grouping RouterFacts GroupFacts.

Local Unset Implicit Arguments.

Lemma appends_ret {A : Type} Q (a : A) : appends Q (ret a).
Proof. intros w. exists []. simpl. now rewrite app_nil_r. Qed.

Lemma appends_raise {A : Type} Q e : appends Q (@raise A e).
Proof. intros w. exists []. simpl. now rewrite app_nil_r. Qed.

Lemma appends_bind {A B : Type} Q (c : M A) (f : A -> M B) :
  appends Q c -> (forall a, appends Q (f a)) -> appends Q (bind c f).
Proof.
  intros Hc Hf w. unfold bind. destruct (Hc w) as [d1 [E1 Q1]].
  destruct (c w) as [[a|e] w1]; simpl in E1.
  - destruct (Hf a w1) as [d2 [E2 Q2]]. exists (d1 ++ d2).
    rewrite E2, E1, app_assoc. split; auto. apply Forall_app; auto.
  - exists d1. auto.
Qed.

Lemma appends_try_catch {A : Type} Q (c : M A) (h : exn -> M A) :
  appends Q c -> (forall e, appends Q (h e)) -> appends Q (try_catch c h).
Proof.
  intros Hc Hh w. unfold try_catch. destruct (Hc w) as [d1 [E1 Q1]].
  destruct (c w) as [[a|e] w1]; simpl in E1.
  - exists d1. auto.
  - destruct (Hh e w1) as [d2 [E2 Q2]]. exists (d1 ++ d2).
    rewrite E2, E1, app_assoc. split; auto. apply Forall_app; auto.
Qed.

Lemma appends_for_each {A : Type} Q (body : A -> M unit) xs :
  (forall x, In x xs -> appends Q (body x)) -> appends Q (for_each body xs).
Proof.
  induction xs as [|x xs IH]; simpl; intros H.
  - apply appends_ret.
  - apply appends_bind; [apply H; now left|].
    intros _. apply IH. intros y Hy. apply H. now right.
Qed.

Lemma appends_publish Q env channel ev :
  (forall delivered, Q (Publish channel ev delivered)) ->
  appends Q (publish_progress env channel ev).
Proof.
  intros H w. rewrite publish_progress_run. simpl.
  eexists. split; [reflexivity|]. constructor; auto.
Qed.

Lemma flight_unit_appends Q env channel order_id documents doc :
  (forall ev delivered,
      Progress.document_type ev = flight -> Q (Publish channel ev delivered)) ->
  (forall url body, Webhook.ticket_type body = flight -> Q (Post url body)) ->
  appends Q (flight_unit env channel order_id documents doc).
Proof.
  intros Hp Hb. unfold flight_unit, flight_attempt, flight_failed.
  apply appends_try_catch.
  - apply appends_bind; [apply appends_publish; intros; now apply Hp|].
    intros _.
    destruct (status _); try (apply appends_publish; intros; now apply Hp).
    destruct (data _); try (apply appends_publish; intros; now apply Hp).
    apply appends_bind; [apply appends_publish; intros; now apply Hp|].
    intros _ w. eexists. split; [reflexivity|].
    constructor; [now apply Hb|constructor].
  - intros e. apply appends_publish; intros; now apply Hp.
Qed.

Lemma hotel_unit_appends Q env channel order_id documents doc :
  (forall ev delivered,
      Progress.document_type ev = hotel -> Q (Publish channel ev delivered)) ->
  (forall url body, Webhook.ticket_type body = hotel -> Q (Post url body)) ->
  appends Q (hotel_unit env channel order_id documents doc).
Proof.
  intros Hp Hb. unfold hotel_unit, hotel_attempt, hotel_failed.
  apply appends_try_catch.
  - apply appends_bind; [apply appends_publish; intros; now apply Hp|].
    intros _.
    destruct (status _); try (apply appends_publish; intros; now apply Hp).
    destruct (data _); try (apply appends_publish; intros; now apply Hp).
    apply appends_bind; [apply appends_publish; intros; now apply Hp|].
    intros _ w. eexists. split; [reflexivity|].
    constructor; [now apply Hb|constructor].
  - intros e. apply appends_publish; intros; now apply Hp.
Qed.

Lemma passport_unit_appends Q env channel order_id entry :
  (complete entry = true ->
   (forall ev delivered,
       Progress.traveller_id ev = fst entry -> Q (Publish channel ev delivered))
   /\ (forall url body,
       Webhook.traveller_id body = fst entry -> Q (Post url body))) ->
  appends Q (passport_unit env channel order_id entry).
Proof.
  destruct entry as [t [[f|] [b|]]]; unfold complete; simpl;
    intros H; try apply appends_ret.
  destruct (H eq_refl) as [Hp Hb].
  unfold passport_attempt, passport_failed.
  apply appends_try_catch.
  - apply appends_bind; [apply appends_publish; intros; now apply Hp|].
    intros _.
    apply appends_bind; [apply appends_publish; intros; now apply Hp|].
    intros _ w. eexists. split; [reflexivity|].
    constructor; [now apply Hb|constructor].
  - intros e. apply appends_publish; intros; now apply Hp.
Qed.

Lemma batch_passport_free env order_id documents t :
  (forall entry, In entry (passport_docs (group_documents documents)) ->
                 complete entry = true -> fst entry <> t) ->
  appends (passport_free t) (process_documents_async env order_id documents).
Proof.
  intros H. unfold process_documents_async.
  apply appends_try_catch; [|intros e; apply appends_raise].
  apply appends_bind; [|intros _; apply appends_bind; [|intros _]].
  - apply appends_for_each. intros entry Hin.
    apply passport_unit_appends. intros Hc. specialize (H entry Hin Hc).
    split; intros; simpl; intros _; congruence.
  - apply appends_for_each. intros doc _.
    apply flight_unit_appends; intros; simpl; congruence.
  - apply appends_for_each. intros doc _.
    apply hotel_unit_appends; intros; simpl; congruence.
Qed.

End BatchFacts.

Module CountFacts.

Import Router Payload Observe Outcomes Grouping RouterFacts GroupFacts
  BatchFacts.

Local Unset Implicit Arguments.

Lemma terminals_app d1 d2 :
  terminals (d1 ++ d2) = terminals d1 + terminals d2.
Proof.
  unfold terminals, publications.
  now rewrite flat_map_app, filter_app, length_app.
Qed.

Lemma quiet_same_count env w w' k :
  publishes w = publishes w' -> quiet env w k -> quiet env w' k.
Proof. unfold quiet. intros <-. auto. Qed.

Lemma completes_ret env : completes env (ret tt) 0.
Proof.
  intros w k Hq. exists []. destruct w as [n tr]. simpl.
  rewrite app_nil_r. repeat split; auto.
Qed.

Lemma completes_bind env c1 c2 n1 n2 :
  completes env c1 n1 -> completes env c2 n2 ->
  completes env (c1 ;; c2) (n1 + n2).
Proof.
  intros H1 H2 w k Hq. unfold bind.
  replace (2 * (n1 + n2) + k) with (2 * n1 + (2 * n2 + k)) in Hq by lia.
  destruct (H1 w _ Hq) as [d1 [E1 [T1 Q1]]]. rewrite E1.
  destruct (H2 _ _ Q1) as [d2 [E2 [T2 Q2]]]. rewrite E2.
  cbn [publishes trace] in *.
  exists (d1 ++ d2).
  replace (2 * (n1 + n2) + publishes w)
    with (2 * n2 + (2 * n1 + publishes w)) by lia.
  rewrite app_assoc. repeat split; auto.
  rewrite terminals_app. lia.
Qed.

Lemma completes_guarded env c n (h : exn -> M unit) :
  completes env c n -> completes env (try_catch c h) n.
Proof.
  intros H w k Hq. unfold try_catch.
  destruct (H w k Hq) as [d [E [T Q]]]. rewrite E. exists d. auto.
Qed.

Lemma completes_for_each {A : Type} env (body : A -> M unit) cnt xs :
  (forall x, completes env (body x) (cnt x)) ->
  completes env (for_each body xs) (total cnt xs).
Proof.
  intros H. induction xs as [|x xs IH]; simpl.
  - apply completes_ret.
  - apply completes_bind; auto.
Qed.

Lemma total_one {A : Type} (xs : list A) : total (fun _ => 1) xs = length xs.
Proof. induction xs; simpl; auto. Qed.

Lemma total_weight xs : total weight xs = length (filter complete xs).
Proof.
  induction xs as [|x xs IH]; simpl; auto. unfold weight at 1.
  destruct (complete x); simpl; auto.
Qed.

Ltac two_publishes Hq :=
  match goal with
  | |- context [publish_progress ?env ?ch ?ev ?w] =>
      let E := fresh "E" in
      let Hq' := fresh "Hq" in
      destruct (publish_quiet ch ev Hq) as [E Hq']; rewrite E; clear E
  end.

Lemma flight_unit_completes env channel order_id documents doc :
  completes env (flight_unit env channel order_id documents doc) 1.
Proof.
  intros w k Hq. change (2 * 1 + k) with (S (S k)) in Hq.
  unfold flight_unit, try_catch, flight_attempt, bind.
  two_publishes Hq.
  destruct (status _); [destruct (data _)| |];
    two_publishes Hq0;
    unfold update_main_backend_with_ticket, emit, after_publish;
    cbn [trace publishes]; rewrite ?snoc3, ?snoc2;
    (eexists; split; [reflexivity|]; split; [reflexivity|]);
    (eapply quiet_same_count; [|exact Hq1]; reflexivity).
Qed.

Lemma hotel_unit_completes env channel order_id documents doc :
  completes env (hotel_unit env channel order_id documents doc) 1.
Proof.
  intros w k Hq. change (2 * 1 + k) with (S (S k)) in Hq.
  unfold hotel_unit, try_catch, hotel_attempt, bind.
  two_publishes Hq.
  destruct (status _); [destruct (data _)| |];
    two_publishes Hq0;
    unfold update_main_backend_with_ticket, emit, after_publish;
    cbn [trace publishes]; rewrite ?snoc3, ?snoc2;
    (eexists; split; [reflexivity|]; split; [reflexivity|]);
    (eapply quiet_same_count; [|exact Hq1]; reflexivity).
Qed.

Lemma passport_unit_completes env channel order_id entry :
  completes env (passport_unit env channel order_id entry) (weight entry).
Proof.
  destruct entry as [t [[f|] [b|]]]; unfold weight, complete; simpl;
    try apply completes_ret.
  intros w k Hq. change (2 * 1 + k) with (S (S k)) in Hq.
  unfold try_catch, passport_attempt, bind.
  two_publishes Hq.
  two_publishes Hq0.
  unfold update_main_backend_with_passport, emit, after_publish.
  cbn [trace publishes]. rewrite snoc3.
  eexists. split; [reflexivity|]. split.
  - unfold terminals. simpl.
    destruct (status _); reflexivity.
  - eapply quiet_same_count; [|exact Hq1]. reflexivity.
Qed.

(** While no publish throws, a batch runs to its end and publishes one
    terminal event for each of its units. *)
Lemma quiet_batch_completes env order_id documents :
  completes env (process_documents_async env order_id documents)
    (unit_count documents).
Proof.
  unfold process_documents_async, unit_count.
  apply completes_guarded.
  rewrite <- total_weight.
  rewrite <- (total_one (flight_docs _)), <- (total_one (hotel_docs _)).
  rewrite <- Nat.add_assoc.
  apply completes_bind; [|apply completes_bind].
  - apply completes_for_each. intros. apply passport_unit_completes.
  - apply completes_for_each. intros. apply flight_unit_completes.
  - apply completes_for_each. intros. apply hotel_unit_completes.
Qed.

End CountFacts.

(** ** The batch as the run of its units *)

Module UnitRunFacts.

Import Router Payload Observe Outcomes Grouping Units RouterFacts GroupFacts
  BatchFacts CountFacts.

Local Unset Implicit Arguments.

Lemma for_each_app {A : Type} (body : A -> M unit) xs ys : forall w,
  for_each body (xs ++ ys) w
  = (for_each body xs ;; for_each body ys) w.
Proof.
  induction xs as [|x xs IH]; intros w; cbn [app for_each].
  - reflexivity.
  - unfold bind at 1 2 3. destruct (body x w) as [[[]|e] w1].
    + rewrite IH. reflexivity.
    + reflexivity.
Qed.

Lemma try_rethrow {A : Type} (c : M A) w :
  try_catch c (fun e => raise e) w = c w.
Proof. unfold try_catch, raise. now destruct (c w) as [[a|e] w1]. Qed.

Lemma passports_as_units env channel order_id documents docs : forall w,
  for_each (passport_unit env channel order_id) docs w
  = for_each (run_unit env channel order_id documents)
      (map pair_unit (pairs docs)) w.
Proof.
  induction docs as [|[t [[f|] [b|]]] docs IH]; intros w;
    [reflexivity|..];
    cbn [pairs flat_map front back fst snd app map for_each];
    fold (pairs docs); unfold bind; cbn [passport_unit front back];
    try (unfold ret; apply IH).
  cbn [run_unit pair_unit fst snd].
  destruct (try_catch _ _ w) as [[[]|e] w1]; [apply IH|reflexivity].
Qed.

Lemma documents_as_units {A : Type} (body : A -> M unit)
    (run : ProcessingUnit -> M unit) (wrap : A -> ProcessingUnit) xs :
  (forall x w, run (wrap x) w = body x w) ->
  forall w, for_each body xs w = for_each run (map wrap xs) w.
Proof.
  intros H. induction xs as [|x xs IH]; intros w; cbn [map for_each].
  - reflexivity.
  - unfold bind. rewrite H. destruct (body x w) as [[[]|e] w1];
      [apply IH|reflexivity].
Qed.

(** The three loops are one loop over the units. *)
Lemma batch_as_units env order_id documents w :
  process_documents_async env order_id documents w
  = try_catch
      (for_each (run_unit env (channel_of env order_id) order_id documents)
         (units documents))
      (fun e => raise e) w.
Proof.
  unfold process_documents_async. rewrite !try_rethrow. unfold units.
  cbv zeta. rewrite for_each_app. unfold bind at 1 3.
  rewrite <- passports_as_units.
  destruct (for_each (passport_unit _ _ _) _ w) as [[[]|e] w1];
    [|reflexivity].
  rewrite for_each_app. unfold bind.
  rewrite <- (documents_as_units (flight_unit env _ order_id documents)
                (run_unit env _ order_id documents) FlightUnit)
    by reflexivity.
  destruct (for_each (flight_unit _ _ _ _) _ w1) as [[[]|e] w2];
    [|reflexivity].
  now rewrite <- (documents_as_units (hotel_unit env _ order_id documents)
                    (run_unit env _ order_id documents) HotelUnit)
    by reflexivity.
Qed.

Lemma length_pairs docs : length (pairs docs) = length (filter complete docs).
Proof.
  induction docs as [|[t [[f|] [b|]]] docs IH]; [reflexivity|..];
    cbn [pairs flat_map filter complete front back fst snd app length];
    fold (pairs docs); auto.
Qed.

Lemma length_units documents :
  length (units documents) = unit_count documents.
Proof.
  unfold units, unit_count. cbv zeta.
  rewrite !length_app, !length_map, length_pairs. lia.
Qed.

Lemma in_pairs docs t f b :
  In (t, (f, b)) (pairs docs)
  <-> In (t, {| front := Some f; back := Some b |}) docs.
Proof.
  unfold pairs. rewrite in_flat_map. split.
  - intros [[t' [[f'|] [b'|]]] [Hin H]]; cbn in H; try contradiction.
    destruct H as [H|[]]. now inversion H; subst.
  - intros H. eexists. split; [exact H|]. now left.
Qed.

Lemma pairs_keys docs t :
  In t (map fst (pairs docs)) -> In t (map fst docs).
Proof.
  rewrite !in_map_iff. intros [[t' [f b]] [<- H]].
  apply in_pairs in H. eexists. split; [|exact H]. reflexivity.
Qed.

Lemma pairs_unique docs :
  NoDup (map fst docs) -> NoDup (map fst (pairs docs)).
Proof.
  induction docs as [|[t [[f|] [b|]]] docs IH]; [constructor|..];
    cbn [pairs flat_map map front back fst snd app]; fold (pairs docs);
    intros H; inversion H; subst; auto.
  constructor; auto. intros Hin. now apply pairs_keys in Hin.
Qed.

Lemma announced_app d1 d2 : announced (d1 ++ d2) = announced d1 ++ announced d2.
Proof.
  unfold announced, publications. now rewrite flat_map_app, filter_app.
Qed.

Lemma announced_silent rest : Forall silent rest -> announced rest = [].
Proof.
  induction 1 as [|[ch ev b|url body] rest Hs _ IH]; [reflexivity| |exact IH].
  change (announced (Publish ch ev b :: rest))
    with (filter (fun ev => negb (terminal ev)) (ev :: publications rest)).
  cbn [filter]. cbn [silent] in Hs. rewrite Hs. exact IH.
Qed.

(** A turn that publishes [ev] first: the event is recorded, delivered
    or not, before anything else. *)
Lemma begins_guarded env channel ev (k : M unit) (h : exn -> M unit) w :
  appends silent k -> (forall e, appends silent (h e)) ->
  exists rest,
    trace (snd (try_catch (publish_progress env channel ev ;; k) h w))
    = trace w ++ Publish channel ev (accepted env w) :: rest
    /\ Forall silent rest.
Proof.
  intros Hk Hh. unfold try_catch, bind. rewrite publish_progress_run.
  set (w1 := after_publish env channel ev w).
  assert (T1 : trace w1 = trace w ++ [Publish channel ev (accepted env w)])
    by reflexivity.
  assert (Hraise : forall e, exists rest,
             trace (snd (h e w1))
             = trace w ++ Publish channel ev (accepted env w) :: rest
             /\ Forall silent rest).
  { intros e. destruct (Hh e w1) as [d [E Q]]. exists d.
    rewrite E, T1, <- app_assoc. auto. }
  assert (Hok : exists rest,
             trace (snd (match k w1 with
                         | (Ok a, w') => (Ok a, w')
                         | (Raise e, w') => h e w'
                         end))
             = trace w ++ Publish channel ev (accepted env w) :: rest
             /\ Forall silent rest).
  { destruct (Hk w1) as [d [E Q]]. destruct (k w1) as [[[]|e] w2];
      cbn [snd] in E |- *.
    - exists d. rewrite E, T1, <- app_assoc. auto.
    - destruct (Hh e w2) as [d2 [E2 Q2]]. exists (d ++ d2).
      rewrite E2, E, T1, <- !app_assoc. split; auto.
      apply Forall_app; auto. }
  destruct (redis env (publishes w)) as [e|];
    [destruct (redis_version env)|]; auto.
Qed.

Lemma silent_publish env channel ev :
  terminal ev = true -> appends silent (publish_progress env channel ev).
Proof. intros H. apply appends_publish. intros b. exact H. Qed.

Lemma silent_post (c : M unit) :
  (forall w, exists url body, c w = (Ok tt, emit (Post url body) w)) ->
  appends silent c.
Proof.
  intros H w. destruct (H w) as [url [body E]]. rewrite E.
  eexists. split; [reflexivity|]. constructor; [exact I|constructor].
Qed.

(** Every turn on a unit starts by announcing it. *)
Lemma unit_begins env channel order_id documents u w :
  exists rest,
    trace (snd (run_unit env channel order_id documents u w))
    = trace w ++ Publish channel (announcement order_id u) (accepted env w)
                 :: rest
    /\ Forall silent rest.
Proof.
  destruct u as [t f b|d|d]; cbn [run_unit announcement].
  - unfold passport_attempt. apply begins_guarded.
    + apply appends_bind.
      * apply silent_publish. cbn. now destruct (status _).
      * intros _. apply silent_post. intros w'. eexists _, _. reflexivity.
    + intros e. apply silent_publish. reflexivity.
  - unfold flight_unit, flight_attempt. apply begins_guarded.
    + destruct (status _); try (apply silent_publish; reflexivity).
      destruct (data _); try (apply silent_publish; reflexivity).
      apply appends_bind; [apply silent_publish; reflexivity|].
      intros _. apply silent_post. intros w'. eexists _, _. reflexivity.
    + intros e. apply silent_publish. reflexivity.
  - unfold hotel_unit, hotel_attempt. apply begins_guarded.
    + destruct (status _); try (apply silent_publish; reflexivity).
      destruct (data _); try (apply silent_publish; reflexivity).
      apply appends_bind; [apply silent_publish; reflexivity|].
      intros _. apply silent_post. intros w'. eexists _, _. reflexivity.
    + intros e. apply silent_publish. reflexivity.
Qed.

(** The loop announces its units in order, up to the one whose turn
    throws. *)
Lemma loop_announces env channel order_id documents us : forall w,
  exists n delta,
    trace (snd (for_each (run_unit env channel order_id documents) us w))
    = trace w ++ delta
    /\ announced delta = firstn n (map (announcement order_id) us)
    /\ (us <> [] -> 0 < n)
    /\ (fst (for_each (run_unit env channel order_id documents) us w) = Ok tt
        -> n = length us).
Proof.
  induction us as [|u us IH]; intros w; cbn [for_each].
  - exists 0, []. cbn. rewrite app_nil_r. repeat split; auto. congruence.
  - unfold bind.
    destruct (unit_begins env channel order_id documents u w)
      as [rest [E Hs]].
    destruct (run_unit env channel order_id documents u w) as [[[]|e] w1];
      cbn [snd] in E.
    + destruct (IH w1) as [n [delta [E1 [A [_ Hok]]]]].
      exists (S n), ((Publish channel (announcement order_id u)
                        (accepted env w) :: rest) ++ delta).
      split; [now rewrite E1, E, <- app_assoc|].
      split; [|split; [lia|]].
      * rewrite announced_app.
        change (Publish channel (announcement order_id u) (accepted env w)
                :: rest)
          with ([Publish channel (announcement order_id u) (accepted env w)]
                ++ rest).
        rewrite announced_app, (announced_silent rest Hs), app_nil_r.
        cbn [map firstn]. rewrite A.
        now destruct u.
      * intros H. cbn [length]. now rewrite (Hok H).
    + exists 1, (Publish channel (announcement order_id u) (accepted env w)
                 :: rest).
      split; [exact E|]. split; [|split; [lia|discriminate]].
      change (Publish channel (announcement order_id u) (accepted env w)
              :: rest)
        with ([Publish channel (announcement order_id u) (accepted env w)]
              ++ rest).
      rewrite announced_app, (announced_silent rest Hs), app_nil_r.
      cbn [map firstn]. now destruct u.
Qed.

End UnitRunFacts.

(** ** Units of a batch and their outcomes *)

Module UnitFacts.

Import Router Payload Observe Outcomes Grouping Units Samples RouterFacts
  GroupFacts BatchFacts CountFacts UnitRunFacts.

Local Unset Implicit Arguments.

Lemma paired_entries documents : forall t,
  (exists f b, In (t, {| front := Some f; back := Some b |})
                  (passport_docs (group_documents documents)))
  <-> paired documents t.
Proof.
  pose proof (group_documents_grouped documents) as G.
  intros t. split.
  - intros [f [b Hin]].
    destruct (front_sound _ _ G _ _ f Hin eq_refl) as [F1 [F2 F3]].
    destruct (back_sound _ _ G _ _ b Hin eq_refl) as [B1 [B2 B3]].
    split; [exists f|exists b]; repeat split; auto;
      now apply is_type_spec.
  - intros [[f [F1 [F2 F3]]] [b [B1 [B2 B3]]]].
    apply is_type_spec in F2. apply is_type_spec in B2.
    destruct (front_complete _ _ G f F1 F2) as [p [f' [Hp Hf]]].
    destruct (back_complete _ _ G b B1 B2) as [p' [b' [Hp' Hb]]].
    rewrite F3 in Hp. rewrite B3 in Hp'.
    rewrite (unique_value _ _ _ _ (keys_unique _ _ G) Hp' Hp) in Hb.
    exists f', b'. destruct p as [pf pb]. simpl in Hf, Hb. now subst.
Qed.

(** C5. The passport loop finds a pair with both sides under a traveller id
    exactly when the batch holds a passport_front and a passport_back
    document of that traveller; every flight and every hotel document is
    handed to its loop, in order; and for a traveller without both sides no
    run publishes a passport progress event or posts a passport result.
    The units of the batch are one passport unit for each traveller with
    both sides and no other, then one unit for each flight document and
    one for each hotel document, in the order of the batch.  A run is the
    loop over these units: it announces them in order with a processing
    event each, all of them when it returns normally (as it does while no
    publish throws), and those up to the unit whose turn threw
    otherwise. *)
Theorem C5_processing_units (documents : list DocumentPayload) :
  let g := group_documents documents in
  (forall t,
      (exists f b,
          In (t, {| front := Some f; back := Some b |}) (passport_docs g))
      <-> paired documents t)
  /\ flight_docs g = filter (fun d => is_type d "flight") documents
  /\ hotel_docs g = filter (fun d => is_type d "hotel") documents
  /\ (forall t env order_id w,
      ~ paired documents t ->
      exists delta,
        trace (snd (process_documents_async env order_id documents w))
        = trace w ++ delta
        /\ Forall (passport_free t) delta)
  /\ (exists ps,
        units documents
        = map pair_unit ps
          ++ map FlightUnit (filter (fun d => is_type d "flight") documents)
          ++ map HotelUnit (filter (fun d => is_type d "hotel") documents)
        /\ NoDup (map fst ps)
        /\ (forall t, In t (map fst ps) <-> paired documents t)
        /\ (forall t f b, In (t, (f, b)) ps <->
              In (t, {| front := Some f; back := Some b |}) (passport_docs g)))
  /\ length (units documents) = unit_count documents
  /\ (forall env order_id w,
        process_documents_async env order_id documents w
        = try_catch
            (for_each (run_unit env (channel_of env order_id) order_id
                         documents) (units documents))
            (fun e => raise e) w)
  /\ (forall env order_id w,
        let r := process_documents_async env order_id documents w in
        exists n delta,
          trace (snd r) = trace w ++ delta
          /\ announced delta
             = firstn n (map (announcement order_id) (units documents))
          /\ (units documents <> [] -> 0 < n)
          /\ (fst r = Ok tt -> n = length (units documents))
          /\ (quiet env w (2 * unit_count documents) ->
              fst r = Ok tt /\ terminals delta = unit_count documents)).
Proof.
  cbv zeta.
  pose proof (group_documents_grouped documents) as G.
  pose proof (paired_entries documents) as H1.
  split; [exact H1|]. split; [apply (flights_kept _ _ G)|].
  split; [apply (hotels_kept _ _ G)|].
  split; [|split; [|split; [apply length_units|split]]].
  - intros t env order_id w Hlone.
    apply batch_passport_free. intros [t' [[f|] [b|]]] Hin Hc;
      try discriminate.
    simpl. intros ->. apply Hlone. apply H1. eauto.
  - exists (pairs (passport_docs (group_documents documents))).
    split; [|split; [|split]].
    + unfold units. cbv zeta.
      now rewrite (flights_kept _ _ G), (hotels_kept _ _ G).
    + apply pairs_unique, (keys_unique _ _ G).
    + intros t. rewrite <- H1. rewrite in_map_iff. split.
      * intros [[t' [f b]] [<- Hin]]. apply in_pairs in Hin. eauto.
      * intros [f [b Hin]]. apply in_pairs in Hin.
        exists (t, (f, b)). auto.
    + intros t f b. apply in_pairs.
  - intros env order_id w. apply batch_as_units.
  - intros env order_id w. rewrite batch_as_units, try_rethrow.
    destruct (loop_announces env (channel_of env order_id) order_id
                documents (units documents) w)
      as [n [delta [E [A [Hpos Hok]]]]].
    exists n, delta.
    split; [exact E|]. split; [exact A|]. split; [exact Hpos|].
    split; [exact Hok|].
    intros Hq. rewrite <- (try_rethrow _ w), <- batch_as_units in E |- *.
    destruct (quiet_batch_completes env order_id documents w 0)
      as [d [Er [T _]]].
    + now rewrite Nat.add_0_r.
    + rewrite Er in E |- *. cbn [snd trace] in E.
      apply app_inv_head in E. subst d. auto.
Qed.

Lemma C5_processing_units_witness :
  (exists delta,
      trace (snd (process_documents_async
                    (env_of rethrowing up shopping_list) (js "order-1")
                    mixed_batch start)) = delta
      /\ map Progress.document_id (announced delta) = [js "p1"; js "f1"])
  /\ (exists delta,
      trace (snd (process_documents_async
                    (env_of rethrowing down shopping_list) (js "order-1")
                    mixed_batch start)) = delta
      /\ Forall (passport_free (js "t2")) delta).
Proof.
  split.
  - destruct (proj2 (proj2 (proj2 (proj2 (proj2 (proj2 (proj2
                (C5_processing_units mixed_batch)))))))
                (env_of rethrowing up shopping_list) (js "order-1") start)
      as [n [delta [E [A [_ [Hok Hq]]]]]].
    exists delta. split; [exact E|].
    rewrite A, (Hok (proj1 (Hq (or_intror (fun i _ => eq_refl))))).
    vm_compute. reflexivity.
  - destruct (proj1 (proj2 (proj2 (proj2 (C5_processing_units mixed_batch))))
                (js "t2") (env_of rethrowing down shopping_list)
                (js "order-1") start)
      as [delta [E P]].
    + intros [_ [b [Hin [Hb Ht]]]]. unfold has_type in Hb.
      destruct Hin as [<-|[<-|[<-|[<-|[<-|[]]]]]];
        vm_compute in Hb, Ht; congruence.
    + exists delta. split; [exact E|exact P].
Defined.

(** C1, at its failing input: with the first [publish_to_redis] (the one
    that rethrows) and Redis rejecting every publish, a batch of two flight
    documents has two units, yet the run ends with the exception raised by
    the [catch] block of the first unit: both publishes of that unit are
    lost, nothing is published for the second document, and no terminal
    event is delivered. *)
Theorem C1_rejected_publish_aborts_batch :
  let env := env_of rethrowing down boarding_pass in
  let r := process_documents_async env (js "order-1") two_flights start in
  unit_count two_flights = 2
  /\ fst r = Raise closed
  /\ map summary (publications (trace (snd r)))
     = [(js "f1", processing); (js "f1", failed)]
  /\ deliveries (trace (snd r)) = []
  /\ posts (trace (snd r)) = [].
Proof. vm_compute. repeat split. Qed.

(** With the second [publish_to_redis] (the one that swallows), or while
    Redis accepts every publish, the property of C1 holds: the batch runs
    to its end with one terminal event for each unit. *)
Lemma unthrowing_batch_completes env order_id documents w :
  quiet env w (2 * unit_count documents) ->
  exists delta,
    process_documents_async env order_id documents w
    = (Ok tt, {| publishes := 2 * unit_count documents + publishes w;
                 trace := trace w ++ delta |})
    /\ terminals delta = unit_count documents.
Proof.
  intros Hq.
  destruct (quiet_batch_completes env order_id documents w 0) as [d [E [T _]]].
  - now rewrite Nat.add_0_r.
  - exists d. auto.
Qed.

Lemma str_or_nil a : str_or a [] = a.
Proof. now destruct a. Qed.

Lemma raised_then_failed {A : Type} (c : M A) h w e w1 :
  c w = (Raise e, w1) -> try_catch c h w = h e w1.
Proof. unfold try_catch. now intros ->. Qed.

Lemma failed_publish env channel ev w :
  trace (snd (publish_progress env channel ev w))
  = trace w ++ [Publish channel ev (accepted env w)]
  /\ (quiet env w 1 -> fst (publish_progress env channel ev w) = Ok tt).
Proof.
  split.
  - now rewrite publish_progress_run.
  - intros Hq. destruct (publish_quiet channel ev Hq) as [E _]. now rewrite E.
Qed.

(** C2, as the code has it. A unit whose extraction is answered invalid or
    error returns normally after a processing event and a failed event
    that carries the error message of the extraction; for a passport pair
    the webhook is then posted with status FAILED and the failed result,
    for an invalid flight or hotel document nothing is posted.  When the
    [try] block of a unit throws, nothing has been posted, the [catch]
    block publishes a failed event that carries the message of the
    exception and posts nothing, and the unit returns normally when
    that publish does not throw.  (The first three parts suppose that no
    publish of the unit throws.) *)
Theorem C2_failed_units
    (env : Env) (channel order_id : jsstring)
    (documents : list DocumentPayload) (w : World) :
  (forall doc,
      quiet env w 2 ->
      let r := Flight.process_flight_ocr (recognise env (file_url doc)) in
      status r <> success ->
      exists msg delta,
        error r = Some msg /\
        flight_unit env channel order_id documents doc w
        = (Ok tt, {| publishes := 2 + publishes w;
                     trace := trace w ++ delta |}) /\
        publications delta
        = [ progress order_id (traveller_id doc) (traveller_name doc)
              (document_id doc) flight processing None None;
            progress order_id (traveller_id doc) (traveller_name doc)
              (document_id doc) flight failed None (Some msg) ] /\
        (status r = invalid -> posts delta = []))
  /\ (forall doc,
      quiet env w 2 ->
      let r := Hotel.process_hotel_ocr (recognise env (file_url doc)) in
      status r <> success ->
      exists msg delta,
        error r = Some msg /\
        hotel_unit env channel order_id documents doc w
        = (Ok tt, {| publishes := 2 + publishes w;
                     trace := trace w ++ delta |}) /\
        publications delta
        = [ progress order_id (traveller_id doc) (traveller_name doc)
              (document_id doc) hotel processing None None;
            progress order_id (traveller_id doc) (traveller_name doc)
              (document_id doc) hotel failed None (Some msg) ] /\
        (status r = invalid -> posts delta = []))
  /\ (forall t f b,
      quiet env w 2 ->
      let r := Passport.process_passport_ocr
                 (verify env (file_url f) (file_url b)) in
      status r <> success ->
      exists msg delta,
        error r = Some msg /\
        passport_unit env channel order_id
          (t, {| front := Some f; back := Some b |}) w
        = (Ok tt, {| publishes := 2 + publishes w;
                     trace := trace w ++ delta |}) /\
        publications delta
        = [ progress order_id t (traveller_name f) (document_id f) passport
              processing None None;
            progress order_id t (traveller_name f) (document_id f) passport
              failed None (Some msg) ] /\
        posts delta = [failed_passport_body t f b r])
  /\ (forall doc e w1,
      flight_attempt env channel order_id documents doc w = (Raise e, w1) ->
      let r := flight_unit env channel order_id documents doc w in
      (exists delta, trace w1 = trace w ++ delta /\ posts delta = []) /\
      trace (snd r)
      = trace w1 ++
        [Publish channel
           (progress order_id (traveller_id doc) (traveller_name doc)
              (document_id doc) flight failed None (Some (message_of e)))
           (accepted env w1)] /\
      (quiet env w1 1 -> fst r = Ok tt))
  /\ (forall doc e w1,
      hotel_attempt env channel order_id documents doc w = (Raise e, w1) ->
      let r := hotel_unit env channel order_id documents doc w in
      (exists delta, trace w1 = trace w ++ delta /\ posts delta = []) /\
      trace (snd r)
      = trace w1 ++
        [Publish channel
           (progress order_id (traveller_id doc) (traveller_name doc)
              (document_id doc) hotel failed None (Some (message_of e)))
           (accepted env w1)] /\
      (quiet env w1 1 -> fst r = Ok tt))
  /\ (forall t f b e w1,
      passport_attempt env channel order_id t f b w = (Raise e, w1) ->
      let r := passport_unit env channel order_id
                 (t, {| front := Some f; back := Some b |}) w in
      (exists delta, trace w1 = trace w ++ delta /\ posts delta = []) /\
      trace (snd r)
      = trace w1 ++
        [Publish channel
           (progress order_id t (traveller_name f) (document_id f)
              passport failed None (Some (message_of e)))
           (accepted env w1)] /\
      (quiet env w1 1 -> fst r = Ok tt)).
Proof.
  split; [|split; [|split; [|split; [|split]]]].
  - intros doc Hq r Hs.
    destruct (flight_unit_failure channel order_id documents doc Hq Hs)
      as [msg [delta [H1 [H2 [H3 H4]]]]].
    exists msg, delta. auto.
  - intros doc Hq r Hs.
    destruct (hotel_unit_failure channel order_id documents doc Hq Hs)
      as [msg [delta [H1 [H2 [H3 H4]]]]].
    exists msg, delta. auto.
  - intros t f b Hq r Hs.
    apply (passport_unit_failure channel order_id t f b Hq Hs).
  - intros doc e w1 H r. split; [eapply flight_attempt_raises; eauto|].
    unfold r, flight_unit. rewrite (raised_then_failed _ _ _ _ _ H).
    apply failed_publish.
  - intros doc e w1 H r. split; [eapply hotel_attempt_raises; eauto|].
    unfold r, hotel_unit. rewrite (raised_then_failed _ _ _ _ _ H).
    apply failed_publish.
  - intros t f b e w1 H r. split; [eapply passport_attempt_raises; eauto|].
    unfold r, passport_unit. cbn [front back].
    rewrite (raised_then_failed _ _ _ _ _ H).
    unfold passport_failed. rewrite !str_or_nil. apply failed_publish.
Qed.

(** C2, as stated, fails: a flight document whose text is not a ticket is
    answered invalid; the unit publishes its failed event, and the webhook
    is never posted. *)
Lemma C2_invalid_flight_is_not_reported :
  let env := env_of rethrowing up shopping_list in
  let r := process_documents_async env (js "order-1")
             [document "f1" "flight"] start in
  status (Flight.process_flight_ocr (recognise env (js "any"))) = invalid
  /\ fst r = Ok tt
  /\ map summary (publications (trace (snd r)))
     = [(js "f1", processing); (js "f1", failed)]
  /\ posts (trace (snd r)) = [].
Proof. vm_compute. repeat split. Qed.

Lemma C2_failed_units_witness :
  (exists delta,
      flight_unit (env_of rethrowing up shopping_list) (js "ch")
        (js "order-1") [document "f1" "flight"] (document "f1" "flight") start
      = (Ok tt, {| publishes := 2; trace := delta |})
      /\ posts delta = [])
  /\ (exists delta,
      passport_unit (env_of swallowing down shopping_list) (js "ch")
        (js "order-1")
        (js "t1", {| front := Some (document "p1" "passport_front");
                     back := Some (document "p2" "passport_back") |}) start
      = (Ok tt, {| publishes := 2; trace := delta |})
      /\ map Webhook.ocr_status (posts delta) = [FAILED])
  /\ fst (flight_unit (env_of rethrowing hiccup boarding_pass) (js "ch")
            (js "order-1") [document "f1" "flight"] (document "f1" "flight")
            start) = Ok tt.
Proof.
  split; [|split].
  - destruct (proj1 (C2_failed_units (env_of rethrowing up shopping_list)
                       (js "ch") (js "order-1") [document "f1" "flight"]
                       start) (document "f1" "flight"))
      as [msg [delta [_ [E [_ P]]]]].
    + right. reflexivity.
    + vm_compute. discriminate.
    + exists delta. split; [exact E|]. apply P. reflexivity.
  - destruct (proj1 (proj2 (proj2
               (C2_failed_units (env_of swallowing down shopping_list)
                  (js "ch") (js "order-1") [] start)))
               (js "t1") (document "p1" "passport_front")
               (document "p2" "passport_back"))
      as [msg [delta [_ [E [_ P]]]]].
    + left. reflexivity.
    + vm_compute. discriminate.
    + exists delta. split; [exact E|]. now rewrite P.
  - eapply (proj1 (proj2 (proj2 (proj2
               (C2_failed_units (env_of rethrowing hiccup boarding_pass)
                  (js "ch") (js "order-1") [document "f1" "flight"]
                  start))))).
    + vm_compute. reflexivity.
    + right. intros i Hi. cbn [publishes] in Hi.
      destruct i as [|i]; [lia|reflexivity].
Defined.

(** C10. With the first [publish_to_redis] and Redis rejecting the publish
    of the mapped event, a flight ticket that is read with success and in
    the name of nobody in the batch ends as failed: the mapped event for the
    traveller of the document is handed to Redis and lost, the [catch]
    block publishes a failed event, and the webhook is never posted. *)
Theorem C10_rejected_publish_fails_unmatched_ticket :
  let env := env_of rethrowing stumble johns_ticket in
  let doc := document "f1" "flight" in
  let result := Flight.process_flight_ocr (recognise env (file_url doc)) in
  let r := process_documents_async env (js "order-1") [doc] start in
  status result = success
  /\ option_map Flight.passenger_name (data result)
     = Some (Some (js "John Smith"))
  /\ Mapping.map_ticket_to_passenger (Some (js "John Smith"))
       (all_travellers [doc]) = None
  /\ fst r = Ok tt
  /\ map summary (publications (trace (snd r)))
     = [(js "f1", processing); (js "f1", mapped); (js "f1", failed)]
  /\ map Progress.traveller_id (publications (trace (snd r)))
     = [js "t1"; js "t1"; js "t1"]
  /\ map summary (deliveries (trace (snd r)))
     = [(js "f1", processing); (js "f1", failed)]
  /\ posts (trace (snd r)) = [].
Proof. vm_compute. repeat split. Qed.

(** The same ticket while Redis accepts every publish. *)
Lemma unmatched_ticket_example :
  exists delta,
    flight_unit (env_of rethrowing up johns_ticket) (js "ch")
      (js "order-1") [document "f1" "flight"] (document "f1" "flight") start
    = (Ok tt, {| publishes := 2; trace := delta |})
    /\ map Progress.traveller_id (publications delta) = [js "t1"; js "t1"]
    /\ map Webhook.mapped_to_traveller_id (posts delta) = [Some (js "t1")].
Proof.
  destruct (proj1 (unmatched_ticket_keeps_own_traveller
                     (env := env_of rethrowing up johns_ticket)
                     (js "ch") (js "order-1") [document "f1" "flight"]
                     (document "f1" "flight") (w := start)
                     (or_intror (fun i _ => eq_refl))))
    as [d [delta [_ [E [P B]]]]].
  - vm_compute. reflexivity.
  - intros d Hd. vm_compute in Hd. inversion Hd; subst. vm_compute.
    reflexivity.
  - exists delta. split; [exact E|]. rewrite P, B. split; reflexivity.
Defined.

End UnitFacts.

(** ** The matcher against the reading of a pattern *)

Module SoundFacts.

Import Regex Denotation.

Local Unset Implicit Arguments.

Lemma rep_sound (body : mstate -> cont -> option mstate) r greedy :
  (forall st k res, body st k = Some res ->
     exists st', reaches r st st' /\ k st' = Some res) ->
  forall fuel min max st k res,
    rep body fuel min max greedy st k = Some res ->
    exists st', reaches (Rep r min max greedy) st st' /\ k st' = Some res.
Proof.
  intros Hbody. induction fuel as [|fuel IH]; intros min max st k res H.
  - discriminate.
  - cbn [rep] in H. destruct min as [|min'].
    + destruct (exhausted max) eqn:Ex.
      { exists st. split; [constructor | exact H]. }
      assert (Hturn : forall res',
        body st (fun st' =>
          if length (rest st') <? length (rest st)
          then rep body fuel 0 (dec max) greedy st' k else None) = Some res' ->
        exists st', reaches (Rep r 0 max greedy) st st' /\ k st' = Some res').
      { intros res' Hb. apply Hbody in Hb. destruct Hb as (st1 & Hr1 & Hk1).
        destruct (length (rest st1) <? length (rest st)); [|discriminate].
        apply IH in Hk1. destruct Hk1 as (st2 & Hr2 & Hk2).
        exists st2. split; [|exact Hk2].
        eapply reach_rep_turn; eauto. }
      destruct greedy.
      * destruct (body st _) eqn:Hb.
        -- inversion H; subst. now apply Hturn.
        -- exists st. split; [constructor | exact H].
      * destruct (k st) eqn:Hk.
        -- inversion H; subst. exists st. split; [constructor | exact Hk].
        -- now apply Hturn.
    + apply Hbody in H. destruct H as (st1 & Hr1 & Hk1).
      apply IH in Hk1. destruct Hk1 as (st2 & Hr2 & Hk2).
      exists st2. split; [|exact Hk2].
      eapply reach_rep_turn; eauto. discriminate.
Qed.

Lemma m_sound r : forall st k res,
  m r st k = Some res -> exists st', reaches r st st' /\ k st' = Some res.
Proof.
  induction r; intros st k res H; cbn [m] in H.
  - exists st. split; [constructor | exact H].
  - destruct (rest st) as [|c s] eqn:Hr; [discriminate|].
    destruct (p c) eqn:Hp; [|discriminate].
    eexists. split; [|exact H]. now constructor.
  - apply IHr1 in H. destruct H as (st1 & H1 & H).
    apply IHr2 in H. destruct H as (st2 & H2 & H).
    exists st2. split; [econstructor; eauto | exact H].
  - destruct (m r1 st k) eqn:E.
    + inversion H; subst. apply IHr1 in E. destruct E as (st1 & H1 & E).
      exists st1. split; [now apply reach_alt_l | exact E].
    + apply IHr2 in H. destruct H as (st1 & H1 & H).
      exists st1. split; [now apply reach_alt_r | exact H].
  - eapply rep_sound; eauto.
  - apply IHr in H. destruct H as (st1 & H1 & H).
    eexists. split; [|exact H]. now constructor.
  - destruct (xorb _ _) eqn:E; [|discriminate].
    exists st. split; [now constructor | exact H].
  - destruct (prev st) eqn:E; [discriminate|].
    exists st. split; [now constructor | exact H].
  - destruct (rest st) eqn:E; [|discriminate].
    exists st. split; [now constructor | exact H].
  - destruct (m r st Some) eqn:E; [discriminate|].
    exists st. split; [now constructor | exact H].
Qed.

Lemma within_turn min max n :
  (min = 0 -> exhausted max = false) ->
  within (pred min) (dec max) n -> within min max (S n).
Proof.
  intros Hx [Hlo Hhi]. split; [lia|].
  destruct max as [hi|]; [|exact I]. cbn [dec] in Hhi. intros Hle.
  assert (hi <> 0).
  { destruct min; [|lia]. specialize (Hx eq_refl). now destruct hi. }
  lia.
Qed.

Lemma reaches_shape r st st' :
  reaches r st st' -> exists l, rest st = l ++ rest st' /\ shape r l.
Proof.
  induction 1; cbn [shape rest].
  - now exists [].
  - exists [c]. split; [assumption|]. now exists c.
  - destruct IHreaches1 as (l1 & E1 & S1), IHreaches2 as (l2 & E2 & S2).
    exists (l1 ++ l2). split.
    + now rewrite E1, E2, app_assoc.
    + now exists l1, l2.
  - destruct IHreaches as (l & E & S). exists l. auto.
  - destruct IHreaches as (l & E & S). exists l. auto.
  - exists []. split; [reflexivity|]. exists []. repeat split; auto.
    all: destruct max; auto; intros; cbn; lia.
  - destruct IHreaches1 as (l1 & E1 & S1), IHreaches2 as (l2 & E2 & S2).
    cbn [shape] in S2. destruct S2 as (ls & -> & Hall & Hw).
    exists (l1 ++ concat ls). split.
    + now rewrite E1, E2, app_assoc.
    + exists (l1 :: ls). split; [reflexivity|]. split; [now constructor|].
      now apply within_turn.
  - exact IHreaches.
  - now exists [].
  - now exists [].
  - now exists [].
  - now exists [].
Qed.

Lemma consumed_read st st' l : rest st = l ++ rest st' -> consumed st st' = l.
Proof.
  intros E. unfold consumed. rewrite E, length_app.
  replace (length l + length (rest st') - length (rest st')) with (length l)
    by lia.
  now rewrite firstn_app, Nat.sub_diag, firstn_all, app_nil_r.
Qed.

(** A capture is the text its group has read. *)
Lemma reaches_capture r st st' : reaches r st st' ->
  forall n g, assoc n (caps st') = Some g ->
    assoc n (caps st) = Some g \/
    exists r0, grp_in n r0 r /\ shape r0 g.
Proof.
  induction 1; intros k g Hg; cbn [caps grp_in] in *; auto.
  - apply IHreaches2 in Hg. destruct Hg as [Hg | (r0 & Hin & Hs)].
    + apply IHreaches1 in Hg. destruct Hg as [Hg | (r0 & Hin & Hs)]; eauto.
    + eauto.
  - apply IHreaches in Hg. destruct Hg as [Hg | (r0 & Hin & Hs)]; eauto.
  - apply IHreaches in Hg. destruct Hg as [Hg | (r0 & Hin & Hs)]; eauto.
  - apply IHreaches2 in Hg. destruct Hg as [Hg | (r0 & Hin & Hs)].
    + apply IHreaches1 in Hg. destruct Hg as [Hg | (r0 & Hin & Hs)]; eauto.
    + cbn [grp_in] in Hin. eauto.
  - cbn [assoc] in Hg. destruct (n =? k) eqn:E.
    + apply Nat.eqb_eq in E. inversion Hg; subst. right. exists r. split; auto.
      destruct (reaches_shape _ _ _ H) as (l & El & Sl).
      now rewrite (consumed_read _ _ _ El).
    + apply IHreaches in Hg. destruct Hg as [Hg | (r0 & Hin & Hs)]; eauto.
Qed.

Lemma reaches_keeps r st st' : reaches r st st' ->
  forall n, assoc n (caps st) <> None -> assoc n (caps st') <> None.
Proof.
  induction 1; intros k Hk; cbn [caps] in *; auto.
  cbn [assoc]. destruct (n =? k); [discriminate | auto].
Qed.

Lemma reaches_sets r st st' : reaches r st st' ->
  forall n, sets n r = true -> assoc n (caps st') <> None.
Proof.
  induction 1; intros k Hk; cbn [sets caps] in *; try discriminate.
  - apply orb_true_iff in Hk. destruct Hk as [Hk | Hk].
    + eapply reaches_keeps; eauto.
    + eauto.
  - apply andb_true_iff in Hk. destruct Hk. eauto.
  - apply andb_true_iff in Hk. destruct Hk. eauto.
  - apply andb_true_iff in Hk. destruct Hk as [Hmin Hk].
    eapply reaches_keeps; eauto.
  - cbn [assoc]. destruct (n =? k) eqn:E; [discriminate|].
    cbn [orb] in Hk. eauto.
Qed.

Lemma match_at_sets r text i mt n :
  match_at r text i = Some mt -> sets n r = true ->
  exists g r0, group n mt = Some g /\ grp_in n r0 r /\ shape r0 g.
Proof.
  unfold match_at. destruct (m r _ Some) as [st'|] eqn:E; [|discriminate].
  intros H Hn. inversion H; subst; clear H. unfold group. cbn [groups].
  apply m_sound in E. destruct E as (st1 & Hr & E). inversion E; subst.
  pose proof (reaches_sets _ _ _ Hr _ Hn) as Hs.
  destruct (assoc n (caps st')) as [g|] eqn:G; [|congruence].
  destruct (reaches_capture _ _ _ Hr _ _ G) as [Hc | (r0 & Hin & Hsh)];
    [discriminate|].
  eauto.
Qed.

Lemma match_at_shape r text i mt :
  match_at r text i = Some mt ->
  shape r (matched mt) /\
  forall n g, group n mt = Some g -> exists r0, grp_in n r0 r /\ shape r0 g.
Proof.
  unfold match_at. destruct (m r _ Some) as [st'|] eqn:E; [|discriminate].
  intros H. inversion H; subst; clear H. cbn [matched group groups].
  apply m_sound in E. destruct E as (st1 & Hr & E). inversion E; subst.
  split.
  - destruct (reaches_shape _ _ _ Hr) as (l & El & Sl). cbn [rest] in El.
    rewrite El at 2. rewrite El, length_app.
    replace (length l + length (rest st') - length (rest st'))
      with (length l) by lia.
    now rewrite firstn_app, Nat.sub_diag, firstn_all, app_nil_r.
  - intros n g Hg. destruct (reaches_capture _ _ _ Hr _ _ Hg) as [Hc|Hc]; auto.
    discriminate.
Qed.

End SoundFacts.

(** ** What a match looks like *)

Module ShapeFacts.

Import Regex Denotation SoundFacts.

Local Unset Implicit Arguments.

Lemma search_from_shape r text fuel : forall i mt,
  search_from fuel r text i = Some mt -> exists j, match_at r text j = Some mt.
Proof.
  induction fuel as [|fuel IH]; intros i mt H; [discriminate|].
  cbn [search_from] in H. destruct (match_at r text i) eqn:E.
  - inversion H; subst. eauto.
  - destruct (i <? length text); [eauto | discriminate].
Qed.

Lemma exec_from_shape r text i mt :
  exec_from r text i = Some mt ->
  shape r (matched mt) /\
  forall n g, group n mt = Some g -> exists r0, grp_in n r0 r /\ shape r0 g.
Proof.
  unfold exec_from. destruct (length text <? i); [discriminate|].
  intros H. apply search_from_shape in H. destruct H as (j & H).
  now apply match_at_shape in H.
Qed.

Lemma str_match_shape r text mt :
  str_match r text = Some mt ->
  shape r (matched mt) /\
  forall n g, group n mt = Some g -> exists r0, grp_in n r0 r /\ shape r0 g.
Proof. apply exec_from_shape. Qed.

Lemma matchAll_shape r text mt :
  In mt (matchAll r text) ->
  shape r (matched mt) /\
  forall n g, group n mt = Some g -> exists r0, grp_in n r0 r /\ shape r0 g.
Proof.
  unfold matchAll. generalize (S (length text)) 0.
  intros fuel. induction fuel as [|fuel IH]; intros i H; [contradiction|].
  cbn [match_all_from] in H. destruct (exec_from r text i) eqn:E.
  - destruct H as [<- | H]; [now apply exec_from_shape in E | eauto].
  - contradiction.
Qed.

Lemma str_match_at r text mt :
  str_match r text = Some mt -> exists j, match_at r text j = Some mt.
Proof.
  unfold str_match, exec_from. destruct (length text <? 0); [discriminate|].
  apply search_from_shape.
Qed.

Lemma matchAll_at r text mt :
  In mt (matchAll r text) -> exists j, match_at r text j = Some mt.
Proof.
  unfold matchAll. generalize (S (length text)) 0.
  intros fuel. induction fuel as [|fuel IH]; intros i H; [contradiction|].
  cbn [match_all_from] in H. destruct (exec_from r text i) eqn:E.
  - destruct H as [<- | H]; [|eauto].
    unfold exec_from in E. destruct (length text <? i); [discriminate|].
    now apply search_from_shape in E.
  - contradiction.
Qed.

(** A run of single characters. *)
Lemma shape_run p min max greedy l :
  shape (Rep (Chr p) min max greedy) l ->
  forallb p l = true /\ within min max (length l).
Proof.
  cbn [shape]. intros (ls & -> & Hall & Hw).
  assert (forallb p (concat ls) = true /\ length (concat ls) = length ls)
    as [Hp Hlen].
  { clear Hw. induction Hall as [|x ls (c & -> & Hc) _ [IH1 IH2]].
    - now split.
    - cbn. rewrite Hc, IH1, IH2. now split. }
  now rewrite Hlen.
Qed.

Lemma shape_exactly p n greedy l :
  shape (Rep (Chr p) n (Some n) greedy) l ->
  forallb p l = true /\ length l = n.
Proof.
  intros H. apply shape_run in H. destruct H as (Hp & Hlo & Hhi).
  split; [assumption|]. specialize (Hhi (le_n _)). lia.
Qed.

Lemma shape_between p lo hi greedy l :
  lo <= hi ->
  shape (Rep (Chr p) lo (Some hi) greedy) l ->
  forallb p l = true /\ lo <= length l <= hi.
Proof.
  intros Hle H. apply shape_run in H. destruct H as (Hp & Hlo & Hhi).
  split; [assumption|]. specialize (Hhi Hle). lia.
Qed.

Lemma forallb_upper (p q : ascii -> bool) l :
  (forall c, p c = true -> q (upper_char c) = true) ->
  forallb p l = true -> forallb q (toUpperCase l) = true.
Proof.
  intros Hpq. unfold toUpperCase.
  induction l as [|c l IH]; cbn [forallb map]; [reflexivity|].
  intros H. apply andb_true_iff in H. destruct H as [Hc Hl].
  now rewrite (Hpq _ Hc), IH.
Qed.

Lemma length_toUpperCase l : length (toUpperCase l) = length l.
Proof. apply length_map. Qed.

Ltac each_char c :=
  destruct c as [[] [] [] [] [] [] [] []]; vm_compute; congruence.

Lemma upper_alnum c :
  is_alpha c || is_digit c = true ->
  is_upper (upper_char c) || is_digit (upper_char c) = true.
Proof. each_char c. Qed.

Lemma upper_alpha c : is_alpha c = true -> is_upper (upper_char c) = true.
Proof. each_char c. Qed.

Lemma upper_digit c : is_digit c = true -> upper_char c = c.
Proof. each_char c. Qed.

Lemma alpha_not_space c : is_alpha c = true -> is_space c = false.
Proof. each_char c. Qed.

Lemma digit_not_space c : is_digit c = true -> is_space c = false.
Proof. each_char c. Qed.

Lemma digit_not_upper c : is_digit c = true -> is_upper c = false.
Proof. each_char c. Qed.

Lemma rest_after l : forall st tl',
  rest st = l ++ tl' -> rest (after l st) = tl'.
Proof.
  induction l as [|c l IH]; intros st tl' E; cbn [after]; [exact E|].
  apply IH. cbn [rest]. now rewrite E.
Qed.

Lemma caps_after l : forall st, caps (after l st) = caps st.
Proof.
  induction l as [|c l IH]; intros st; cbn [after]; [reflexivity|].
  now rewrite IH.
Qed.

(** A greedy run of single characters reads as far as the characters
    last, when the pattern that follows accepts that. *)
Lemma greedy_run p l : forall fuel min max st tl' k res,
  rest st = l ++ tl' ->
  forallb p l = true ->
  min <= length l ->
  match max with Some hi => length l <= hi | None => True end ->
  (max = Some (length l) \/ tl' = [] \/
   exists c s, tl' = c :: s /\ p c = false) ->
  length l < fuel ->
  k (after l st) = Some res ->
  rep (m (Chr p)) fuel min max true st k = Some res.
Proof.
  induction l as [|c l IH]; intros fuel min max st tl' k res E Hp Hmin Hmax
    Hend Hfuel Hk; (destruct fuel as [|fuel]; [cbn in Hfuel; lia|]);
    cbn [rep after] in *.
  - assert (min = 0) as -> by (cbn in Hmin; lia).
    destruct (exhausted max) eqn:Ex; [assumption|].
    cbn [m]. cbn [app] in E. rewrite E.
    destruct Hend as [-> | [-> | (c & s & -> & Hc)]].
    + discriminate.
    + assumption.
    + now rewrite Hc.
  - cbn [forallb] in Hp. apply andb_true_iff in Hp. destruct Hp as [Hc Hp].
    cbn [length] in *.
    assert (Hnext : rep (m (Chr p)) fuel (pred min) (dec max) true
              {| prev := Some c; rest := tl (rest st); caps := caps st |} k
            = Some res).
    { apply IH with (tl' := tl'); auto.
      - cbn [rest]. now rewrite E.
      - lia.
      - destruct max as [hi|]; cbn [dec]; [lia | exact I].
      - destruct Hend as [-> | Hend]; [left; reflexivity | now right].
      - lia. }
    rewrite E in Hnext. cbn [tl app] in Hnext.
    destruct min as [|min'].
    + destruct (exhausted max) eqn:Ex.
      { destruct max as [[|hi]|]; try discriminate. lia. }
      cbn [m]. rewrite E. cbn [app]. rewrite Hc. cbn [rest length app].
      replace (length (l ++ tl') <? S (length (l ++ tl'))) with true
        by (symmetry; apply Nat.ltb_lt; lia).
      cbn [pred m] in Hnext. now rewrite Hnext.
    + cbn [m]. rewrite E. cbn [app]. rewrite Hc. exact Hnext.
Qed.



Lemma literal_reads l : forall st k tl',
  rest st = l ++ tl' -> m (seq (map cs_char l)) st k = k (after l st).
Proof.
  induction l as [|c l IH]; intros st k tl' E; [reflexivity|].
  destruct l as [|c' l].
  - cbn [map seq cs_char m after]. rewrite E. cbn [app tl]. unfold chr_eqb.
    now rewrite Ascii.eqb_refl.
  - change (seq (map cs_char (c :: c' :: l)))
      with (Cat (cs_char c) (seq (map cs_char (c' :: l)))).
    cbn [m cs_char]. change (after (c :: c' :: l) st)
      with (after (c' :: l)
              {| prev := Some c; rest := tl (rest st); caps := caps st |}).
    rewrite E. cbn [app tl]. unfold chr_eqb at 1. rewrite Ascii.eqb_refl.
    now apply IH with (tl' := tl').
Qed.

Lemma option_taken p c st k tl' res :
  rest st = c :: tl' -> p c = true ->
  k (after [c] st) = Some res ->
  m (opt (Chr p)) st k = Some res.
Proof.
  intros E Hc Hk. unfold opt. cbn [m].
  apply greedy_run with (l := [c]) (tl' := tl');
    [ exact E | cbn; now rewrite Hc | cbn; lia | cbn; lia | now left
    | rewrite E; cbn; lia | exact Hk ].
Qed.

Lemma run_reads p l st k tl' res :
  rest st = l ++ tl' -> l <> [] -> forallb p l = true ->
  (tl' = [] \/ exists c s, tl' = c :: s /\ p c = false) ->
  k (after l st) = Some res ->
  m (plus (Chr p)) st k = Some res.
Proof.
  intros E Hne Hp Hend Hk. unfold plus. cbn [m].
  apply greedy_run with (l := l) (tl' := tl');
    [ exact E | exact Hp | destruct l; [congruence | cbn; lia] | exact I
    | now right | rewrite E, length_app; lia | exact Hk ].
Qed.

Lemma literal_shape (s : string) l :
  shape (liti s) l -> toUpperCase l = toUpperCase (js s).
Proof.
  unfold liti. generalize (js s). clear s. intros s. revert l.
  induction s as [|c s IH]; intros l.
  - cbn [map seq shape]. now intros ->.
  - destruct s as [|c' s].
    + cbn [map seq shape ci_char]. intros (x & -> & Hx).
      apply Ascii.eqb_eq in Hx. cbn [toUpperCase map]. now rewrite Hx.
    + change (seq (map ci_char (c :: c' :: s)))
        with (Cat (ci_char c) (seq (map ci_char (c' :: s)))).
      cbn [shape ci_char]. intros (l1 & l2 & -> & (x & -> & Hx) & Hl2).
      apply Ascii.eqb_eq in Hx. apply IH in Hl2.
      unfold toUpperCase in *. cbn [app map]. now rewrite Hx, Hl2.
Qed.

End ShapeFacts.

(** ** The formats of the flight fields *)

Module FormatFacts.

Import Regex Flight Denotation SoundFacts ShapeFacts.

Local Unset Implicit Arguments.

Lemma first_of_found (A B : Type) (f : A -> option B) xs y :
  first_of f xs = Some y -> exists x, In x xs /\ f x = Some y.
Proof.
  induction xs as [|x xs IH]; cbn; [discriminate|].
  destruct (f x) eqn:E.
  - intros H. inversion H; subst. eauto.
  - intros H. destruct (IH H) as (x' & Hin & Hx). eauto.
Qed.

(** X1. A booking reference is six capitals or digits. *)
Theorem pnr_format (text p : jsstring) :
  pnr (extract_flight_data text) = Some p ->
  length p = 6 /\ forallb capital_or_digit p = true.
Proof.
  cbn [extract_flight_data pnr]. unfold extract_pnr. intros H.
  apply first_of_found in H. destruct H as (pattern & Hin & H).
  destruct (str_match pattern text) as [mt|] eqn:E; [|discriminate].
  destruct (group 1 mt) as [g|] eqn:G; [|discriminate].
  destruct (nonempty g && (length g =? 6)); [|discriminate].
  inversion H; subst; clear H.
  apply str_match_shape in E. destruct E as [_ E].
  destruct (E _ _ G) as (r0 & Hr0 & Hs). clear E.
  assert (r0 = times 6 6 alnum) as ->.
  { cbn in Hin. destruct Hin as [<- | [<- | []]]; cbn in Hr0; intuition. }
  apply shape_exactly in Hs. destruct Hs as [Hp Hl].
  split.
  - now rewrite length_toUpperCase.
  - apply forallb_upper with (p := fun c => is_alpha c || is_digit c); auto.
    apply upper_alnum.
Qed.

Lemma pnr_format_witness :
  length (js "SISCPF") = 6 /\ forallb capital_or_digit (js "SISCPF") = true.
Proof.
  apply (pnr_format Samples.scenario). vm_compute. reflexivity.
Defined.


Lemma remove_spaces_app a b :
  remove_spaces (a ++ b) = remove_spaces a ++ remove_spaces b.
Proof. apply filter_app. Qed.

Lemma remove_spaces_keeps p l :
  (forall c, p c = true -> is_space c = false) ->
  forallb p l = true -> remove_spaces l = l.
Proof.
  intros Hp. unfold remove_spaces.
  induction l as [|c l IH]; cbn [forallb filter]; [reflexivity|].
  intros H. apply andb_true_iff in H. destruct H as [Hc Hl].
  now rewrite (Hp _ Hc), IH.
Qed.

Lemma remove_spaces_blank l : forallb is_space l = true -> remove_spaces l = [].
Proof.
  unfold remove_spaces.
  induction l as [|c l IH]; cbn [forallb filter]; [reflexivity|].
  intros H. apply andb_true_iff in H. destruct H as [Hc Hl].
  now rewrite Hc, IH.
Qed.

Lemma toUpperCase_app a b : toUpperCase (a ++ b) = toUpperCase a ++ toUpperCase b.
Proof. apply map_app. Qed.

Lemma toUpperCase_digits l : forallb is_digit l = true -> toUpperCase l = l.
Proof.
  unfold toUpperCase.
  induction l as [|c l IH]; cbn [forallb map]; [reflexivity|].
  intros H. apply andb_true_iff in H. destruct H as [Hc Hl].
  now rewrite (upper_digit _ Hc), IH.
Qed.

(** What a flight pattern reads, spaces removed. *)
Lemma flight_pattern_reads pattern l :
  In pattern flight_patterns -> shape pattern l ->
  exists letters digits,
    remove_spaces l = letters ++ digits /\
    2 <= length letters <= 3 /\ forallb is_alpha letters = true /\
    3 <= length digits <= 4 /\ forallb is_digit digits = true.
Proof.
  intros Hin Hs. cbn in Hin. destruct Hin as [<- | [<- | []]].
  - cbn [seq shape] in Hs.
    destruct Hs as (l1 & r1 & -> & S1 & l2 & r2 & -> & S2 & l3 & r3 & ->
                    & S3 & ->).
    apply shape_between in S1; [|lia]. apply shape_run in S2.
    apply shape_between in S3; [|lia].
    destruct S1 as [P1 L1], S2 as [P2 _], S3 as [P3 L3].
    exists l1, l3. rewrite !remove_spaces_app, app_nil_r.
    rewrite (remove_spaces_keeps _ _ alpha_not_space P1).
    rewrite (remove_spaces_blank _ P2).
    rewrite (remove_spaces_keeps _ _ digit_not_space P3).
    auto.
  - cbn [seq shape] in Hs.
    destruct Hs as (l0 & r0 & -> & -> & lg & r1 & -> &
                    (l1 & r2 & -> & S1 & l2 & l3 & -> & S2 & S3) & ->).
    apply shape_between in S1; [|lia]. apply shape_run in S2.
    apply shape_between in S3; [|lia].
    destruct S1 as [P1 L1], S2 as [P2 _], S3 as [P3 L3].
    exists l1, l3. cbn [app]. rewrite !remove_spaces_app, app_nil_r.
    rewrite (remove_spaces_keeps _ _ alpha_not_space P1).
    rewrite (remove_spaces_blank _ P2).
    rewrite (remove_spaces_keeps _ _ digit_not_space P3).
    auto.
Qed.

(** The airline pattern on a flight number. *)
Lemma airline_of_flight_number letters digits :
  2 <= length letters <= 3 -> forallb is_upper letters = true ->
  3 <= length digits -> forallb is_digit digits = true ->
  extract_airline (Some (letters ++ digits)) = Some letters.
Proof.
  intros Ll Pl Ld Pd.
  destruct digits as [|d digits]; [cbn in Ld; lia|].
  cbn [forallb] in Pd. apply andb_true_iff in Pd. destruct Pd as [Hd _].
  unfold extract_airline.
  destruct letters as [|a l'] eqn:El; [cbn in Ll; lia|].
  cbn [app]. change (a :: l' ++ d :: digits) with ((a :: l') ++ d :: digits).
  rewrite <- El in *. clear El a l'.
  assert (Hrun : forall st k res,
    rest st = letters ++ d :: digits ->
    k (after letters st) = Some res ->
    rep (m (Chr is_upper)) (S (2 + length (rest st))) 2 (Some 3) true st k
    = Some res).
  { intros st k res E Hk.
    apply greedy_run with (l := letters) (tl' := d :: digits); auto.
    - lia.
    - lia.
    - right. right. exists d, digits. split; [reflexivity|].
      now apply digit_not_upper.
    - rewrite E, length_app. cbn. lia. }
  unfold str_match, exec_from. cbn [Nat.ltb Nat.leb]. cbn [search_from].
  unfold match_at, airline_pattern, times, capital. cbn [seq m skipn char_before prev].
  erewrite Hrun; [| reflexivity | reflexivity].
  unfold group. cbn [groups caps assoc Nat.eqb].
  f_equal. apply consumed_read. cbn [rest].
  now rewrite (rest_after letters _ (d :: digits)).
Qed.

(** X2. A flight number is an airline code of two or three capitals followed
    by three or four digits, and the airline is that code. *)
Theorem flight_number_format (text n : jsstring) :
  flight_number (extract_flight_data text) = Some n ->
  exists letters digits,
    n = letters ++ digits /\
    2 <= length letters <= 3 /\ forallb is_upper letters = true /\
    3 <= length digits <= 4 /\ forallb is_digit digits = true /\
    airline (extract_flight_data text) = Some letters.
Proof.
  cbn [extract_flight_data flight_number airline].
  unfold extract_flight_number at 1. intros H.
  assert (H' := H).
  apply first_of_found in H. destruct H as (pattern & Hin & H).
  destruct (str_match pattern text) as [mt|] eqn:E; [|discriminate].
  destruct (str_match only_digits _); [discriminate|].
  destruct (4 <=? _); [|discriminate]. inversion H; subst; clear H.
  apply str_match_shape in E. destruct E as [Hs _].
  destruct (flight_pattern_reads _ _ Hin Hs)
    as (letters & digits & Hn & Ll & Pl & Ld & Pd).
  rewrite Hn in *. clear Hn.
  exists (toUpperCase letters), digits.
  assert (Pu : forallb is_upper (toUpperCase letters) = true)
    by (apply forallb_upper with (p := is_alpha); auto using upper_alpha).
  rewrite toUpperCase_app, (toUpperCase_digits _ Pd) in *.
  rewrite <- (length_toUpperCase letters) in Ll.
  repeat split; try tauto; try lia.
  unfold extract_flight_number in H'. fold (extract_flight_number text).
  unfold extract_flight_number. rewrite H'.
  apply airline_of_flight_number; auto; lia.
Qed.

Lemma flight_number_format_witness :
  exists letters digits,
    js "AI302" = letters ++ digits /\
    2 <= length letters <= 3 /\ forallb is_upper letters = true /\
    3 <= length digits <= 4 /\ forallb is_digit digits = true /\
    airline (extract_flight_data (js "Flight AI 302")) = Some letters.
Proof.
  apply (flight_number_format (js "Flight AI 302")). vm_compute. reflexivity.
Defined.


Lemma in_matches_shape r text mt :
  In mt (matchAll r text) ->
  forall n g, group n mt = Some g -> exists r0, grp_in n r0 r /\ shape r0 g.
Proof. intros H. now apply matchAll_shape in H. Qed.

Lemma airport_matches_codes text a :
  In a (airport_matches text) ->
  length (code a) = 3 /\ forallb is_upper (code a) = true.
Proof.
  unfold airport_matches. intros H.
  apply in_flat_map in H. destruct H as (pattern & Hin & H).
  apply in_flat_map in H. destruct H as (mt & Hmt & H).
  destruct (group 1 mt) as [[|c g1]|] eqn:G1; try contradiction.
  destruct (group 2 mt) as [[|d g2]|]; try contradiction.
  destruct H as [<- | []]. cbn [code].
  destruct (in_matches_shape _ _ _ Hmt _ _ G1) as (r0 & Hr0 & Hs).
  assert (r0 = times 3 3 letter) as ->.
  { cbn in Hin. destruct Hin as [<- | [<- | [<- | []]]]; cbn in Hr0;
      intuition congruence. }
  apply shape_exactly in Hs. destruct Hs as [Hp Hl].
  rewrite length_toUpperCase. split; [assumption|].
  apply forallb_upper with (p := is_alpha); auto using upper_alpha.
Qed.

(** X3. Airport codes are three capitals, and an airport that has a code has
    a name or its code as place. *)
Theorem airport_code_format (text : jsstring) :
  let d := extract_flight_data text in
  (forall c, departure_airport d = Some c ->
     length c = 3 /\ forallb is_upper c = true /\ truthy (from d) = true)
  /\ (forall c, arrival_airport d = Some c ->
     length c = 3 /\ forallb is_upper c = true /\ truthy (to d) = true).
Proof.
  cbn zeta. cbn [extract_flight_data departure_airport arrival_airport from to].
  split; intros c H.
  - destruct (nth_error (airport_matches text) 0) as [a|] eqn:E;
      [|discriminate].
    cbn [option_map] in H. inversion H; subst; clear H.
    apply nth_error_In, airport_matches_codes in E. destruct E as [El Ep].
    repeat split; auto.
    unfold or_else. destruct (truthy (Some (name a))) eqn:T; rewrite ?T; auto.
    assert (T' : truthy (Some (code a)) = true)
      by (destruct (code a); [discriminate | reflexivity]).
    now rewrite T'.
  - destruct (nth_error (airport_matches text) 1) as [a|] eqn:E;
      [|discriminate].
    cbn [option_map] in H. inversion H; subst; clear H.
    apply nth_error_In, airport_matches_codes in E. destruct E as [El Ep].
    repeat split; auto.
    unfold or_else. destruct (truthy (Some (name a))) eqn:T; rewrite ?T; auto.
    assert (T' : truthy (Some (code a)) = true)
      by (destruct (code a); [discriminate | reflexivity]).
    now rewrite T'.
Qed.

Lemma airport_code_format_witness :
  length (js "BOM") = 3 /\ forallb is_upper (js "BOM") = true
  /\ truthy (from (extract_flight_data Samples.scenario)) = true.
Proof.
  apply (proj1 (airport_code_format Samples.scenario)).
  vm_compute. reflexivity.
Defined.

Lemma trim_end_last r z : is_space z = false -> trim_end (r ++ [z]) = r ++ [z].
Proof.
  intros Hz. induction r as [|x r IH]; cbn [app trim_end].
  - now rewrite Hz.
  - rewrite IH. destruct (r ++ [z]) eqn:E; [|reflexivity].
    now destruct r.
Qed.

Lemma trim_fixed c r z :
  is_space c = false -> is_space z = false ->
  trim (c :: r ++ [z]) = c :: r ++ [z].
Proof.
  intros Hc Hz. unfold trim. cbn [trim_start]. rewrite Hc.
  now apply (trim_end_last (c :: r)).
Qed.

(** A word of the name patterns: two letters or more. *)
Lemma name_word_shape w :
  shape name_word w ->
  exists a b w', w = a :: w' ++ [b] /\ forallb is_alpha w = true.
Proof.
  unfold name_word, letter, plus. cbn [seq shape].
  intros (l1 & l2 & -> & (a & -> & Ha) & S2).
  apply (shape_run _ _ _ true) in S2. destruct S2 as [P2 [L2 _]].
  assert (Hne : l2 <> []) by (intros ->; cbn in L2; lia).
  destruct (exists_last Hne) as (w' & b & ->).
  exists a, b, w'. split; [reflexivity|].
  cbn [app forallb]. now rewrite Ha, P2.
Qed.

Lemma forallb_weaken (p q : ascii -> bool) l :
  (forall c, p c = true -> q c = true) ->
  forallb p l = true -> forallb q l = true.
Proof.
  intros Hpq. rewrite !forallb_forall. auto.
Qed.

Lemma alpha_is_alpha_or_space c : is_alpha c = true -> alpha_or_space c = true.
Proof. unfold alpha_or_space. now intros ->. Qed.

Lemma space_is_alpha_or_space c : is_space c = true -> alpha_or_space c = true.
Proof. unfold alpha_or_space. intros ->. apply orb_true_r. Qed.

(** White space and a word, once or more. *)
Lemma more_words_shape l :
  shape (plus (seq [plus space; name_word])) l ->
  forallb alpha_or_space l = true /\
  exists c middle z, l = c :: middle ++ [z]
                     /\ is_space c = true /\ is_alpha z = true.
Proof.
  unfold plus at 1. cbn [shape].
  intros (ls & -> & Hall & Hn & _).
  assert (Hone : forall x, shape (seq [plus space; name_word]) x ->
    forallb alpha_or_space x = true /\
    exists c middle z, x = c :: middle ++ [z]
                       /\ is_space c = true /\ is_alpha z = true).
  { intros x. cbn [seq shape]. intros (sp & w & -> & Ssp & Sw).
    apply shape_run in Ssp. destruct Ssp as [Psp [Lsp _]].
    apply name_word_shape in Sw. destruct Sw as (a & b & w' & -> & Pw).
    split.
    - rewrite forallb_app.
      rewrite (forallb_weaken _ _ _ space_is_alpha_or_space Psp).
      now rewrite (forallb_weaken _ _ _ alpha_is_alpha_or_space Pw).
    - destruct sp as [|c sp]; [cbn in Lsp; lia|].
      cbn [forallb] in Psp. apply andb_true_iff in Psp.
      destruct Psp as [Hc _].
      exists c, (sp ++ a :: w'), b. split; [|split]; auto.
      + cbn [app]. now rewrite <- app_assoc.
      + cbn [forallb] in Pw. rewrite forallb_app in Pw. cbn [forallb] in Pw.
        rewrite !andb_true_iff in Pw. tauto. }
  induction Hall as [|x ls Hx Hls IH]; [cbn in Hn; lia|].
  cbn [concat]. destruct (Hone _ Hx) as (Px & c & middle & z & -> & Hc & Hz).
  destruct ls as [|y ls].
  - cbn [concat]. rewrite app_nil_r. split; [assumption|].
    exists c, middle, z. auto.
  - destruct IH as (Pr & c' & middle' & z' & E & Hc' & Hz').
    { cbn. lia. }
    rewrite E. split.
    + rewrite forallb_app, Px, <- E. exact Pr.
    + exists c, (middle ++ z :: c' :: middle'), z'. split; [|split]; auto.
      cbn [app]. f_equal. rewrite <- !app_assoc. reflexivity.
Qed.

Lemma full_name_shape l : shape full_name l -> full_name_format l.
Proof.
  unfold full_name. cbn [seq]. cbn [shape].
  intros (w & more & -> & Sw & Sm).
  apply name_word_shape in Sw. destruct Sw as (a & b & w' & -> & Pw).
  apply more_words_shape in Sm.
  destruct Sm as (Pm & c & middle & z & -> & Hc & Hz).
  split.
  - rewrite forallb_app, Pm.
    now rewrite (forallb_weaken _ _ _ alpha_is_alpha_or_space Pw).
  - exists (a :: w' ++ [b]), c, middle, z. repeat split; auto.
    cbn [length]. rewrite length_app. cbn. lia.
Qed.

Lemma two_words_shape l :
  shape (seq [name_word; plus space; name_word]) l -> full_name_format l.
Proof.
  intros H. apply full_name_shape. unfold full_name.
  cbn [seq shape] in *.
  destruct H as (w1 & r & -> & S1 & sp & w2 & -> & Ssp & S2).
  exists w1, (sp ++ w2). split; [reflexivity|]. split; [assumption|].
  unfold plus at 1. cbn [shape].
  exists [sp ++ w2]. split; [cbn; now rewrite app_nil_r|]. split.
  - constructor; [|constructor]. exists sp, w2. auto.
  - split; cbn; [lia | exact I].
Qed.

Lemma full_name_trimmed l : full_name_format l -> trim l = l.
Proof.
  intros (_ & first & c & middle & z & -> & Lf & Pf & Hc & Hz).
  destruct first as [|a first]; [cbn in Lf; lia|].
  cbn [forallb] in Pf. apply andb_true_iff in Pf. destruct Pf as [Ha _].
  cbn [app].
  replace (first ++ c :: middle ++ [z]) with ((first ++ c :: middle) ++ [z])
    by (rewrite <- app_assoc; reflexivity).
  apply trim_fixed; now apply alpha_not_space.
Qed.

(** X4. A passenger name has two words or more and no digit or punctuation. *)
Theorem passenger_name_format (text p : jsstring) :
  passenger_name (extract_flight_data text) = Some p -> full_name_format p.
Proof.
  cbn [extract_flight_data passenger_name]. unfold extract_passenger_name.
  set (labelled := first_of _ name_patterns).
  assert (Hl : forall q, labelled = Some q -> full_name_format q).
  { intros q H. apply first_of_found in H. destruct H as (pattern & Hin & H).
    destruct (str_match pattern text) as [mt|] eqn:E; [|discriminate].
    destruct (group 1 mt) as [[|c g]|] eqn:G; try discriminate.
    destruct (negb _); [|discriminate]. inversion H; subst; clear H.
    apply str_match_shape in E. destruct E as [_ E].
    destruct (E _ _ G) as (r0 & Hr0 & Hs).
    assert (r0 = full_name) as ->.
    { cbn in Hin. destruct Hin as [<- | [<- | [<- | []]]]; cbn in Hr0;
        intuition (subst; try reflexivity; congruence). }
    apply full_name_shape in Hs. now rewrite (full_name_trimmed _ Hs). }
  destruct (truthy labelled); [apply Hl|].
  destruct (str_match name_fallback_pattern text) as [mt|] eqn:E; [|apply Hl].
  destruct (group 1 mt) as [[|c g]|] eqn:G; try apply Hl.
  intros H. inversion H; subst; clear H.
  apply str_match_shape in E. destruct E as [_ E].
  destruct (E _ _ G) as (r0 & Hr0 & Hs).
  assert (r0 = seq [name_word; plus space; name_word]) as ->.
  { cbn in Hr0. intuition (subst; try reflexivity; congruence). }
  apply two_words_shape in Hs. now rewrite (full_name_trimmed _ Hs).
Qed.

Lemma passenger_name_format_witness : full_name_format (js "John Smith").
Proof.
  apply (passenger_name_format (js "Passenger Name: John Smith")).
  vm_compute. reflexivity.
Defined.

Lemma month_shape l :
  shape months l -> length l = 3 /\ forallb is_alpha l = true.
Proof.
  unfold months. cbn [alt shape].
  intros H. repeat (destruct H as [H | H]);
    apply literal_shape in H;
    (assert (L : length (toUpperCase l) = 3) by (now rewrite H));
    rewrite length_toUpperCase in L;
    (split; [exact L|]);
    destruct l as [|a [|b [|c [|]]]]; try discriminate;
    cbn [toUpperCase map] in H; inversion H as [[Ha Hb Hc]];
    clear - Ha Hb Hc; cbn [forallb];
    repeat match goal with
    | E : upper_char ?x = _ |- _ =>
        assert (is_alpha x = true)
          by (clear - E; destruct x as [[] [] [] [] [] [] [] []];
              vm_compute in E |- *; congruence);
        clear E
    end;
    repeat match goal with E : is_alpha _ = true |- _ => rewrite E; clear E end;
    reflexivity.
Qed.

Lemma date_pattern_shape pattern l :
  In pattern date_patterns -> shape pattern l -> date_format l.
Proof.
  intros Hin Hs. cbn in Hin. destruct Hin as [<- | [<- | []]].
  - left. unfold named_date_pattern in Hs. cbn [seq shape] in Hs.
    destruct Hs as (day & r1 & -> & Sd & sp1 & r2 & -> & S1 & m3 & r3 & ->
                    & Sm & ml & r4 & -> & Sl & sp2 & year & -> & S2 & Sy).
    apply shape_between in Sd; [|lia]. apply shape_run in S1, Sl, S2.
    apply shape_exactly in Sy. apply month_shape in Sm.
    destruct Sd as [Pd Ld], S1 as [P1 [L1 _]], Sl as [Pl _], S2 as [P2 [L2 _]],
      Sy as [Py Ly], Sm as [Lm Pm].
    exists day, sp1, (m3 ++ ml), sp2, year.
    rewrite <- !app_assoc. repeat split; auto; try lia.
    + intros ->. cbn in L1. lia.
    + rewrite length_app. lia.
    + now rewrite forallb_app, Pm, Pl.
    + intros ->. cbn in L2. lia.
  - right. unfold numeric_date_pattern in Hs. cbn [seq shape] in Hs.
    destruct Hs as (a & r1 & -> & Sa & x1 & r2 & -> & (s1 & -> & H1) & b & r3
                    & -> & Sb & x2 & c & -> & (s2 & -> & H2) & Sc).
    apply shape_between in Sa; [|lia]. apply shape_between in Sb; [|lia].
    apply shape_between in Sc; [|lia].
    destruct Sa as [Pa La], Sb as [Pb Lb], Sc as [Pc Lc].
    exists a, s1, b, s2, c. cbn [app]. repeat split; auto; try lia.
    + unfold one_of in H1. cbn in H1. rewrite orb_false_r in H1.
      apply orb_true_iff in H1. destruct H1 as [H1 | H1];
        apply Ascii.eqb_eq in H1; subst; cbn; auto.
    + unfold one_of in H2. cbn in H2. rewrite orb_false_r in H2.
      apply orb_true_iff in H2. destruct H2 as [H2 | H2];
        apply Ascii.eqb_eq in H2; subst; cbn; auto.
Qed.

Lemma trim_end_blank x sp :
  forallb is_space sp = true -> trim_end (x ++ sp) = trim_end x.
Proof.
  intros Hsp. assert (Hb : trim_end sp = []).
  { induction sp as [|c sp IH]; [reflexivity|]. cbn [forallb] in Hsp.
    apply andb_true_iff in Hsp. destruct Hsp as [Hc Hsp].
    cbn [trim_end]. now rewrite (IH Hsp), Hc. }
  induction x as [|c x IH]; [exact Hb|].
  cbn [app trim_end]. now rewrite IH.
Qed.

Lemma trim_core c core z sp :
  is_space c = false -> is_space z = false -> forallb is_space sp = true ->
  trim (c :: core ++ z :: sp) = c :: core ++ [z].
Proof.
  intros Hc Hz Hsp. unfold trim. cbn [trim_start]. rewrite Hc.
  replace (c :: core ++ z :: sp) with (((c :: core) ++ [z]) ++ sp)
    by (cbn; rewrite <- app_assoc; reflexivity).
  rewrite trim_end_blank by assumption. now rewrite trim_end_last.
Qed.

Lemma unit_shape u :
  shape (alt [liti "hrs"; liti "hours"; liti "am"; liti "pm"]) u ->
  u <> [] /\ In (toUpperCase u) [js "HRS"; js "HOURS"; js "AM"; js "PM"]
  /\ exists u' z, u = u' ++ [z] /\ is_space z = false.
Proof.
  cbn [alt shape]. intros H.
  assert (Hu : In (toUpperCase u) [js "HRS"; js "HOURS"; js "AM"; js "PM"]).
  { repeat (destruct H as [H | H]); apply literal_shape in H; rewrite H;
      cbn; auto. }
  assert (Hne : u <> []).
  { intros ->. cbn in Hu. intuition discriminate. }
  split; [assumption|]. split; [assumption|].
  destruct (exists_last Hne) as (u' & z & ->). exists u', z.
  split; [reflexivity|].
  rewrite toUpperCase_app in Hu. cbn [toUpperCase map] in Hu.
  assert (Hz : In (upper_char z) [ "S"%char; "M"%char ]).
  { cbn in Hu. destruct Hu as [Hu | [Hu | [Hu | [Hu | []]]]];
      apply (f_equal (@rev ascii)) in Hu; rewrite rev_app_distr in Hu;
      cbn in Hu; inversion Hu; cbn; auto. }
  clear - Hz. destruct z as [[] [] [] [] [] [] [] []]; try reflexivity;
    vm_compute in Hz; intuition discriminate.
Qed.

Lemma time_pattern_shape pattern l :
  In pattern time_patterns -> shape pattern l -> time_format (trim l).
Proof.
  intros Hin Hs. cbn in Hin. destruct Hin as [<- | []].
  cbn [seq shape] in Hs.
  destruct Hs as (h & r1 & -> & Sh & x & r2 & -> & (c & -> & Hc) & mm & r3
                  & -> & Sm & sp & u & -> & Ssp & Su).
  apply Ascii.eqb_eq in Hc. subst c.
  apply shape_between in Sh; [|lia]. apply shape_exactly in Sm.
  apply shape_run in Ssp. destruct Sh as [Ph Lh], Sm as [Pm Lm], Ssp as [Psp _].
  destruct h as [|d h]; [cbn in Lh; lia|].
  assert (Hd : is_space d = false).
  { cbn [forallb] in Ph. apply andb_true_iff in Ph. destruct Ph as [Hd _].
    now apply digit_not_space. }
  destruct mm as [|m1 [|m2 [|]]]; try (cbn in Lm; lia).
  assert (Hm2 : is_space m2 = false).
  { cbn [forallb] in Pm. rewrite !andb_true_iff in Pm.
    destruct Pm as (_ & Hm2 & _). now apply digit_not_space. }
  unfold opt in Su. cbn [shape] in Su. destruct Su as (ls & -> & Hall & Hw).
  destruct Hw as [_ Hhi]. specialize (Hhi (le_0_n _)).
  destruct ls as [|u [|]]; [| |cbn in Hhi; lia].
  - (* no unit *)
    exists (d :: h), [m1; m2], []. cbn [concat].
    rewrite !app_nil_r. repeat split; auto; try lia.
    match goal with
    | |- trim ?x = ?y =>
        replace x with (d :: (h ++ [":"%char; m1]) ++ m2 :: sp)
          by (cbn; rewrite <- app_assoc; reflexivity);
        replace y with (d :: (h ++ [":"%char; m1]) ++ [m2])
          by (cbn; rewrite <- app_assoc; reflexivity)
    end.
    now apply trim_core.
  - (* a unit *)
    inversion Hall as [|? ? Hu _]; subst. cbn [concat]. rewrite app_nil_r.
    apply unit_shape in Hu. destruct Hu as (Hne & Hin & u' & z & -> & Hz).
    exists (d :: h), [m1; m2], (sp ++ u' ++ [z]).
    repeat split; auto; try lia.
    + match goal with
      | |- trim ?x = ?y =>
          replace x
            with (d :: (h ++ ":"%char :: m1 :: m2 :: sp ++ u') ++ z :: [])
            by (cbn; rewrite <- !app_assoc; cbn; rewrite <- !app_assoc;
                reflexivity);
          replace y
            with (d :: (h ++ ":"%char :: m1 :: m2 :: sp ++ u') ++ [z])
            by (cbn; rewrite <- !app_assoc; cbn; rewrite <- !app_assoc;
                reflexivity)
      end.
      now apply trim_core.
    + right. exists sp, (u' ++ [z]). auto.
Qed.

Lemma collected_shape patterns text mt :
  In mt (collect patterns text) ->
  exists pattern, In pattern patterns /\ shape pattern (matched mt).
Proof.
  unfold collect. intros H. apply in_flat_map in H.
  destruct H as (pattern & Hp & H). apply filter_In in H. destruct H as [H _].
  apply matchAll_shape in H. exists pattern. tauto.
Qed.

(** X5. Dates and times of a flight come in the formats of the patterns. *)
Theorem flight_dates_and_times_format (text : jsstring) :
  let d := extract_flight_data text in
  (forall t, departure_date d = Some t \/ arrival_date d = Some t ->
             date_format t)
  /\ (forall t, departure_time d = Some t \/ arrival_time d = Some t ->
                time_format t).
Proof.
  cbn zeta.
  cbn [extract_flight_data departure_date arrival_date departure_time
       arrival_time].
  split; intros t H.
  - assert (Hin : In t (extract_dates text))
      by (destruct H as [H | H]; eapply nth_error_In; eauto).
    unfold extract_dates in Hin. apply in_map_iff in Hin.
    destruct Hin as (mt & <- & Hmt). apply collected_shape in Hmt.
    destruct Hmt as (pattern & Hp & Hs). eapply date_pattern_shape; eauto.
  - assert (Hin : In t (extract_times text))
      by (destruct H as [H | H]; eapply nth_error_In; eauto).
    unfold extract_times in Hin. apply in_map_iff in Hin.
    destruct Hin as (mt & <- & Hmt). apply collected_shape in Hmt.
    destruct Hmt as (pattern & Hp & Hs). eapply time_pattern_shape; eauto.
Qed.

Lemma flight_dates_and_times_format_witness :
  date_format (js "21 Apr 2025") /\ time_format (js "06:20 hrs").
Proof.
  split.
  - apply (proj1 (flight_dates_and_times_format Samples.scenario)).
    left. vm_compute. reflexivity.
  - apply (proj2 (flight_dates_and_times_format Samples.scenario)).
    left. vm_compute. reflexivity.
Defined.

End FormatFacts.

(** ** The formats of the hotel fields *)

Module HotelFormatFacts.

Import Regex Hotel Denotation SoundFacts ShapeFacts.

Local Unset Implicit Arguments.

(** X6. A confirmation code is 6 to 12 capitals or digits, and the booking
    reference is the same code. *)
Theorem confirmation_code_format (text c : jsstring) :
  confirmation_code (extract_hotel_data text) = Some c ->
  6 <= length c <= 12
  /\ forallb capital_or_digit c = true
  /\ booking_reference (extract_hotel_data text) = Some c.
Proof.
  unfold extract_hotel_data. destruct (extract_check_in text) as [ti da].
  cbn [confirmation_code booking_reference]. intros H.
  split; [|split]; [| |assumption].
  all: unfold extract_confirmation_code in H;
    apply FormatFacts.first_of_found in H; destruct H as (pattern & Hin & H);
    destruct (str_match pattern text) as [mt|] eqn:E; [|discriminate];
    destruct (group 1 mt) as [[|x g]|] eqn:G; try discriminate;
    inversion H; subst; clear H;
    apply str_match_shape in E; destruct E as [_ E];
    destruct (E _ _ G) as (r0 & Hr0 & Hs); clear E;
    assert (Hr : r0 = times 6 12 alnum \/ r0 = times 8 12 alnum)
      by (cbn in Hin; destruct Hin as [<- | [<- | [<- | [<- | []]]]];
          cbn in Hr0;
          intuition (subst; (left; reflexivity) || (right; reflexivity)));
    destruct Hr as [-> | ->]; (apply shape_between in Hs; [|lia]);
    destruct Hs as [Hp Hl];
    change (upper_char x :: toUpperCase g) with (toUpperCase (x :: g)).
  - rewrite length_toUpperCase. lia.
  - rewrite length_toUpperCase. lia.
  - apply forallb_upper with (p := fun c => is_alpha c || is_digit c); auto.
    apply upper_alnum.
  - apply forallb_upper with (p := fun c => is_alpha c || is_digit c); auto.
    apply upper_alnum.
Qed.

Lemma confirmation_code_format_witness :
  6 <= length (js "AB12CD34") <= 12
  /\ forallb capital_or_digit (js "AB12CD34") = true
  /\ booking_reference (extract_hotel_data (js "Booking ID: ab12cd34"))
     = Some (js "AB12CD34").
Proof.
  apply (confirmation_code_format (js "Booking ID: ab12cd34")).
  vm_compute. reflexivity.
Defined.


Lemma meridiem_shape ap :
  shape meridiem ap -> toUpperCase ap = js "AM" \/ toUpperCase ap = js "PM".
Proof.
  unfold meridiem, liti. cbn [alt seq map js list_ascii_of_string shape ci_char].
  intros [H | H]; [left | right];
    destruct H as (l1 & l2 & -> & (a & -> & Ha) & (b & -> & Hb));
    apply Ascii.eqb_eq in Ha, Hb; cbn [app toUpperCase map];
    now rewrite Ha, Hb.
Qed.

Lemma part_group n mt g : group n mt = Some g -> part n mt = g.
Proof. unfold part. now intros ->. Qed.

Lemma clock_text_format r n text i mt :
  match_at r text i = Some mt ->
  sets n r = true -> sets (n + 1) r = true -> sets (n + 2) r = true ->
  (forall r0, grp_in n r0 r -> r0 = times 1 2 digit) ->
  (forall r0, grp_in (n + 1) r0 r -> r0 = times 2 2 digit) ->
  (forall r0, grp_in (n + 2) r0 r -> r0 = meridiem) ->
  clock_format (clock_text n mt).
Proof.
  intros H S1 S2 S3 G1 G2 G3.
  destruct (match_at_sets _ _ _ _ _ H S1) as (h & r1 & E1 & I1 & H1).
  destruct (match_at_sets _ _ _ _ _ H S2) as (mm & r2 & E2 & I2 & H2).
  destruct (match_at_sets _ _ _ _ _ H S3) as (ap & r3 & E3 & I3 & H3).
  rewrite (G1 _ I1) in H1. rewrite (G2 _ I2) in H2. rewrite (G3 _ I3) in H3.
  apply shape_between in H1; [|lia]. apply shape_exactly in H2.
  apply meridiem_shape in H3.
  unfold clock_text. rewrite (part_group _ _ _ E1), (part_group _ _ _ E2),
    (part_group _ _ _ E3).
  exists h, mm, ap. tauto.
Qed.

Lemma date_text_format text i mt :
  match_at (day_date 1) text i = Some mt -> day_format (date_text 1 mt).
Proof.
  intros H.
  destruct (match_at_sets _ _ _ _ 1 H eq_refl) as (a & r1 & E1 & I1 & H1).
  destruct (match_at_sets _ _ _ _ 2 H eq_refl) as (b & r2 & E2 & I2 & H2).
  destruct (match_at_sets _ _ _ _ 3 H eq_refl) as (c & r3 & E3 & I3 & H3).
  assert (r1 = times 3 3 letter) as -> by (cbn in I1; intuition congruence).
  assert (r2 = times 3 3 letter) as -> by (cbn in I2; intuition congruence).
  assert (r3 = times 1 2 digit) as -> by (cbn in I3; intuition congruence).
  apply shape_exactly in H1, H2. apply shape_between in H3; [|lia].
  unfold date_text. change (1 + 1) with 2. change (1 + 2) with 3.
  rewrite (part_group _ _ _ E1), (part_group _ _ _ E2), (part_group _ _ _ E3).
  exists a, b, c. tauto.
Qed.

Ltac clock_groups :=
  first [ reflexivity
        | let r0 := fresh in let H := fresh in
          intros r0 H; cbn in H;
          intuition (subst; try reflexivity; congruence) ].

Lemma check_in_clock text mt :
  str_match check_in_time_pattern text = Some mt ->
  clock_format (clock_text 1 mt).
Proof.
  intros H. apply str_match_at in H. destruct H as (j & H).
  apply clock_text_format with (r := check_in_time_pattern) (text := text)
    (i := j); auto; clock_groups.
Qed.

Lemma times_clock text mt :
  str_match times_pattern text = Some mt ->
  clock_format (clock_text 1 mt) /\ clock_format (clock_text 4 mt).
Proof.
  intros H. apply str_match_at in H. destruct H as (j & H).
  split.
  - apply clock_text_format with (r := times_pattern) (text := text)
      (i := j); auto; clock_groups.
  - apply clock_text_format with (r := times_pattern) (text := text)
      (i := j); auto; clock_groups.
Qed.

Lemma check_out_clock text t :
  extract_check_out_time text = Some t -> clock_format t.
Proof.
  unfold extract_check_out_time, check_out_patterns. cbn [fold_left].
  set (p1 := seq [check "out"; star (Chr colon_or_space); clock 1]).
  set (p2 := seq [check "out"; star (Chr colon_or_space); day_date 1]).
  assert (H1 : forall mt, str_match p1 text = Some mt ->
                          clock_format (clock_text 1 mt)).
  { intros mt H. apply str_match_at in H. destruct H as (j & H).
    apply clock_text_format with (r := p1) (text := text) (i := j);
      auto; clock_groups. }
  assert (H2 : forall mt, str_match p2 text = Some mt ->
                          (length (part 1 mt) <=? 2) = false).
  { intros mt H. apply str_match_at in H. destruct H as (j & H).
    destruct (match_at_sets _ _ _ _ 1 H eq_refl) as (a & r1 & E1 & I1 & S1).
    assert (r1 = times 3 3 letter) as -> by (cbn in I1; intuition congruence).
    apply shape_exactly in S1. rewrite (part_group _ _ _ E1).
    destruct S1 as [_ ->]. reflexivity. }
  destruct (str_match p2 text) as [mt2|] eqn:E2.
  - rewrite (H2 _ eq_refl), !andb_false_r.
    destruct (str_match p1 text) as [mt1|] eqn:E1; [|discriminate].
    destruct (_ && _); [|discriminate].
    intros H. inversion H; subst. auto.
  - destruct (str_match p1 text) as [mt1|] eqn:E1; [|discriminate].
    destruct (_ && _); [|discriminate].
    intros H. inversion H; subst. auto.
Qed.

(** X7. Times come out as [h:mm AM] or [h:mm PM] and dates as [Mon, Apr 21],
    whatever the spacing of the text. *)
Theorem hotel_times_and_dates_format (text : jsstring) :
  let d := extract_hotel_data text in
  (forall t, check_in_time d = Some t \/ check_out_time d = Some t ->
             clock_format t)
  /\ (forall t, check_in_date d = Some t \/ check_out_date d = Some t ->
                day_format t).
Proof.
  cbn zeta. unfold extract_hotel_data, extract_check_in.
  assert (Hdates : forall n t,
    nth_error (map (date_text 1) (matchAll (day_date 1) text)) n = Some t ->
    day_format t).
  { intros n t H. apply nth_error_In, in_map_iff in H.
    destruct H as (mt & <- & Hin). apply matchAll_at in Hin.
    destruct Hin as (j & Hj). eapply date_text_format; eauto. }
  assert (Hdate : forall t,
    option_map (date_text 1) (str_match (day_date 1) text) = Some t ->
    day_format t).
  { intros t H. destruct (str_match (day_date 1) text) as [mt|] eqn:E;
      [|discriminate].
    inversion H; subst. apply str_match_at in E. destruct E as (j & Hj).
    eapply date_text_format; eauto. }
  assert (Htime : forall t,
    option_map (clock_text 1) (str_match check_in_time_pattern text) = Some t ->
    clock_format t).
  { intros t H. destruct (str_match check_in_time_pattern text) as [mt|] eqn:E;
      [|discriminate].
    inversion H; subst. now apply check_in_clock in E. }
  pose proof (times_clock text) as Htimes.
  pose proof (check_out_clock text) as Hout.
  destruct (first_of _ check_in_patterns);
    cbn [check_in_time check_out_time check_in_date check_out_date].
  - split; intros t [H | H].
    + destruct (truthy (option_map _ _)); [now apply Htime|].
      destruct (str_match times_pattern text) as [mt|];
        [inversion H; subst; now apply Htimes | now apply Htime].
    + destruct (truthy (extract_check_out_time text)); [now apply Hout|].
      destruct (str_match times_pattern text) as [mt|];
        [inversion H; subst; now apply Htimes | now apply Hout].
    + destruct (truthy (option_map _ _)); [now apply Hdate|].
      destruct (nth_error _ 0) eqn:E;
        [inversion H; subst; eapply Hdates; eauto | now apply Hdate].
    + eapply Hdates; eauto.
  - split; intros t [H | H].
    + cbn [truthy] in H.
      destruct (str_match times_pattern text) as [mt|];
        [inversion H; subst; now apply Htimes | discriminate].
    + destruct (truthy (extract_check_out_time text)); [now apply Hout|].
      destruct (str_match times_pattern text) as [mt|];
        [inversion H; subst; now apply Htimes | now apply Hout].
    + cbn [truthy] in H.
      destruct (nth_error _ 0) eqn:E;
        [inversion H; subst; eapply Hdates; eauto | discriminate].
    + eapply Hdates; eauto.
Qed.

Lemma hotel_times_and_dates_format_witness :
  clock_format (js "3:00 PM") /\ day_format (js "Mon, Apr 21").
Proof.
  split.
  - apply (proj1 (hotel_times_and_dates_format Cases.stay)).
    left. vm_compute. reflexivity.
  - apply (proj2 (hotel_times_and_dates_format Cases.stay)).
    left. vm_compute. reflexivity.
Defined.

Lemma date_text_truthy n mt : truthy (Some (date_text n mt)) = true.
Proof. unfold date_text. now destruct (part n mt). Qed.

Lemma first_match_of_all r text :
  nth_error (matchAll r text) 0 = str_match r text.
Proof.
  unfold matchAll, str_match. cbn [match_all_from].
  now destruct (exec_from r text 0).
Qed.

(** X8. The check-in date is the first date of the text and the check-out
    date the second one, wherever the words check-in and check-out
    stand. *)
Theorem hotel_dates_by_position (text : jsstring) :
  let found := matchAll (day_date 1) text in
  check_in_date (extract_hotel_data text)
  = option_map (date_text 1) (nth_error found 0)
  /\ check_out_date (extract_hotel_data text)
     = option_map (date_text 1) (nth_error found 1)
  /\ DocumentOrder.in_document_order text found.
Proof.
  cbn zeta. unfold extract_hotel_data, extract_check_in.
  rewrite !nth_error_map, first_match_of_all.
  split; [|split; [|apply RegexFacts.matchAll_in_document_order]].
  - destruct (first_of _ check_in_patterns);
      cbn [check_in_date]; destruct (str_match (day_date 1) text); cbn [option_map];
      rewrite ?date_text_truthy; reflexivity.
  - destruct (first_of _ check_in_patterns); reflexivity.
Qed.

End HotelFormatFacts.

(** ** Bounds and invariances of the score *)

Module MatcherBoundFacts.

Import Mapping Words ScoreFacts.

Local Unset Implicit Arguments.

Lemma ratio_le_1 n t : n <= t -> t <> 0 ->
  (0 <= Z.of_nat n # Pos.of_nat t)%Q /\ (Z.of_nat n # Pos.of_nat t <= 1)%Q.
Proof.
  intros Hle Ht. unfold Qle. cbn [Qnum Qden].
  rewrite <- (Znat.positive_nat_Z (Pos.of_nat t)), (Nat2Pos.id _ Ht). lia.
Qed.

Lemma score_bounds (a b : jsstring) :
  (0 <= fuzzy_match_name a b)%Q /\ (fuzzy_match_name a b <= 1)%Q.
Proof.
  unfold fuzzy_match_name.
  destruct (streq _ _); [split; discriminate|].
  destruct (_ || _); [split; discriminate|].
  set (w1 := split_space (normalize a)). set (w2 := split_space (normalize b)).
  destruct (Nat.max (length w1) (length w2) =? 0) eqn:E;
    [split; discriminate|].
  apply Nat.eqb_neq in E. apply ratio_le_1; [|assumption].
  pose proof (filter_length_le (array_includes w2) w1). lia.
Qed.

(** X9. A score is a number between 0 and 1. *)
Theorem score_between_0_and_1 (a b : jsstring) :
  (0 <= fuzzy_match_name a b)%Q /\ (fuzzy_match_name a b <= 1)%Q.
Proof. apply score_bounds. Qed.

Ltac each_char c :=
  destruct c as [[] [] [] [] [] [] [] []]; vm_compute; congruence.

Lemma lower_space c : is_space (lower_char c) = is_space c.
Proof. destruct c as [[] [] [] [] [] [] [] []]; reflexivity. Qed.

Lemma lower_lower c : lower_char (lower_char c) = lower_char c.
Proof. destruct c as [[] [] [] [] [] [] [] []]; reflexivity. Qed.

Lemma toLowerCase_idem s : toLowerCase (toLowerCase s) = toLowerCase s.
Proof.
  unfold toLowerCase. rewrite map_map. apply map_ext. apply lower_lower.
Qed.

Lemma tokens_lower s :
  Reference.tokens (toLowerCase s) = map toLowerCase (Reference.tokens s).
Proof.
  unfold toLowerCase.
  induction s as [|c r IH]; [reflexivity|].
  cbn [map Reference.tokens]. rewrite lower_space.
  destruct (is_space c); [exact IH|].
  destruct r as [|c' r0]; [reflexivity|].
  cbn [map] in *. rewrite lower_space.
  destruct (is_space c'); [now rewrite IH|].
  rewrite IH. destruct (Reference.tokens (c' :: r0)); reflexivity.
Qed.

Lemma lower_join ts :
  toLowerCase (Reference.join_space ts)
  = Reference.join_space (map toLowerCase ts).
Proof.
  unfold toLowerCase.
  induction ts as [|t ts IH]; [reflexivity|].
  destruct ts as [|t' ts]; [reflexivity|].
  cbn [Reference.join_space map] in *. rewrite map_app. cbn [map].
  now rewrite IH.
Qed.

Lemma normalize_idem a : normalize (normalize a) = normalize a.
Proof.
  rewrite !normalize_reference. unfold Reference.normalize.
  rewrite lower_join, <- tokens_lower, toLowerCase_idem.
  now rewrite tokens_join by apply tokens_words.
Qed.

(** X10. Names are compared by their normal form, which normalising leaves
    alone: a name scores as its lower-cased, single-spaced form does. *)
Theorem score_of_normal_forms (a b : jsstring) :
  normalize (normalize a) = normalize a
  /\ fuzzy_match_name (normalize a) (normalize b) = fuzzy_match_name a b.
Proof.
  split; [apply normalize_idem|].
  unfold fuzzy_match_name. now rewrite !normalize_idem.
Qed.

Lemma includes_parts s : forall sub,
  includes s sub = true -> exists pre post, s = pre ++ sub ++ post.
Proof.
  assert (Hsw : forall p s0, starts_with p s0 = true ->
                             exists post, s0 = p ++ post).
  { induction p as [|x p IH]; intros s0 H; [now exists s0|].
    destruct s0 as [|y s0]; [discriminate|]. cbn [starts_with] in H.
    apply andb_true_iff in H. destruct H as [Hxy H].
    apply Ascii.eqb_eq in Hxy. subst y.
    destruct (IH _ H) as (post & ->). now exists post. }
  induction s as [|c s IH]; intros sub H; cbn [includes] in H.
  - rewrite orb_false_r in H. destruct (Hsw _ _ H) as (post & E).
    now exists [], post.
  - apply orb_true_iff in H. destruct H as [H | H].
    + destruct (Hsw _ _ H) as (post & E). now exists [], post.
    + destruct (IH _ H) as (pre & post & ->). now exists (c :: pre), post.
Qed.

Lemma includes_same_length s sub :
  includes s sub = true -> length s = length sub -> s = sub.
Proof.
  intros H L. destruct (includes_parts _ _ H) as (pre & post & ->).
  rewrite !length_app in L.
  assert (pre = []) as -> by (destruct pre; [reflexivity | cbn in L; lia]).
  assert (post = []) as -> by (destruct post; [reflexivity | cbn in L; lia]).
  cbn. now rewrite app_nil_r.
Qed.

Lemma length_join ts :
  length (Reference.join_space ts)
  = list_sum (map (@length ascii) ts) + (length ts - 1).
Proof.
  induction ts as [|t ts IH]; [reflexivity|].
  destruct ts as [|t' ts]; [cbn; lia|].
  cbn [Reference.join_space] in *. rewrite length_app. cbn [length].
  rewrite IH. cbn. lia.
Qed.

Lemma permuted_sum (ts ts' : list jsstring) :
  Permutation ts ts' ->
  list_sum (map (@length ascii) ts) = list_sum (map (@length ascii) ts').
Proof.
  unfold list_sum. induction 1; cbn [map fold_right]; lia.
Qed.

Lemma permuted_length_join ts ts' :
  Permutation ts ts' ->
  length (Reference.join_space ts) = length (Reference.join_space ts').
Proof.
  intros P. rewrite !length_join.
  rewrite (Permutation_length P).
  now rewrite (permuted_sum _ _ P).
Qed.

Lemma ratio_1 n : n <> 0 -> (Z.of_nat n # Pos.of_nat n == 1)%Q.
Proof.
  intros Hn. unfold Qeq. cbn [Qnum Qden].
  rewrite <- (Znat.positive_nat_Z (Pos.of_nat n)), (Nat2Pos.id _ Hn). lia.
Qed.

(** X11. The order of the words does not count: two names with the same words
    score 1. *)
Theorem same_words_score_1 (a b : jsstring) :
  Permutation (Reference.tokens (toLowerCase a))
              (Reference.tokens (toLowerCase b)) ->
  (fuzzy_match_name a b == 1)%Q.
Proof.
  intros P. unfold fuzzy_match_name. rewrite !normalize_reference.
  unfold Reference.normalize.
  set (ta := Reference.tokens (toLowerCase a)) in *.
  set (tb := Reference.tokens (toLowerCase b)) in *.
  pose proof (permuted_length_join _ _ P) as L.
  destruct (streq _ _) eqn:E; [reflexivity|].
  assert (Hne : Reference.join_space ta <> Reference.join_space tb).
  { intros H. rewrite H, streq_refl in E. discriminate. }
  destruct (includes (Reference.join_space ta) (Reference.join_space tb))
    eqn:I1.
  { exfalso. apply Hne. now apply includes_same_length. }
  destruct (includes (Reference.join_space tb) (Reference.join_space ta))
    eqn:I2.
  { exfalso. apply Hne. symmetry. now apply includes_same_length. }
  cbn [orb].
  assert (Wa : Forall word ta) by apply tokens_words.
  assert (Wb : Forall word tb) by apply tokens_words.
  assert (Na : ta <> []).
  { intros H. rewrite H in I2. cbn [Reference.join_space] in I2.
    rewrite includes_nil in I2. discriminate. }
  assert (Nb : tb <> []).
  { intros H. rewrite H in P. apply Permutation_sym, Permutation_nil in P.
    contradiction. }
  rewrite !split_join by assumption.
  assert (F : filter (array_includes tb) ta = ta).
  { apply forallb_filter_id. apply forallb_forall. intros w Hw.
    unfold array_includes. apply existsb_exists. exists w. split.
    - eapply Permutation_in; eauto.
    - apply streq_refl. }
  rewrite F, <- (Permutation_length P), Nat.max_id.
  assert (Hl : length ta <> 0) by (destruct ta; [congruence | discriminate]).
  apply Nat.eqb_neq in Hl. rewrite Hl. apply Nat.eqb_neq in Hl.
  now apply ratio_1.
Qed.

Lemma same_words_score_1_witness :
  (fuzzy_match_name (js "Ann Lee") (js "LEE  ann") == 1)%Q.
Proof.
  apply (same_words_score_1 (js "Ann Lee") (js "LEE  ann")).
  vm_compute. apply perm_swap.
Defined.

(** X12. A blank name is contained in every name: it scores 0.8 against a name
    that is not blank, so a traveller without a name takes any ticket. *)
Theorem blank_name_scores_as_contained (a b id : jsstring) :
  normalize a = [] -> normalize b <> [] ->
  fuzzy_match_name a b = (8 # 10)%Q
  /\ fuzzy_match_name b a = (8 # 10)%Q
  /\ map_ticket_to_passenger (Some b)
       [{| traveller_id := id; traveller_name := a |}] = Some id.
Proof.
  intros Ha Hb.
  assert (S1 : fuzzy_match_name a b = (8 # 10)%Q).
  { unfold fuzzy_match_name. rewrite Ha.
    destruct (normalize b) as [|c n]; [congruence | reflexivity]. }
  assert (S2 : fuzzy_match_name b a = (8 # 10)%Q).
  { unfold fuzzy_match_name. rewrite Ha.
    destruct (normalize b) as [|c n]; [congruence|].
    cbn [streq]. now rewrite includes_nil. }
  repeat split; auto.
  unfold map_ticket_to_passenger.
  destruct b as [|c b]; [now elim Hb|].
  cbn [truthy negb orb length Nat.eqb fold_left].
  unfold consider. cbn [traveller_name traveller_id]. rewrite S2.
  reflexivity.
Qed.

Lemma blank_name_scores_as_contained_witness :
  fuzzy_match_name (js "  ") (js "Ann") = (8 # 10)%Q
  /\ fuzzy_match_name (js "Ann") (js "  ") = (8 # 10)%Q
  /\ map_ticket_to_passenger (Some (js "Ann"))
       [{| traveller_id := js "t1"; traveller_name := js "  " |}]
     = Some (js "t1").
Proof.
  apply (blank_name_scores_as_contained (js "  ") (js "Ann") (js "t1")).
  - vm_compute. reflexivity.
  - vm_compute. discriminate.
Defined.

End MatcherBoundFacts.

(** ** Validation under surrounding text *)

Module ValidationMoreFacts.

Import MatcherBoundFacts.

Local Unset Implicit Arguments.

Lemma starts_with_app p post : starts_with p (p ++ post) = true.
Proof.
  induction p as [|x p IH]; [reflexivity|].
  cbn [app starts_with]. unfold chr_eqb. now rewrite Ascii.eqb_refl.
Qed.

Lemma includes_intro pre sub post : includes (pre ++ sub ++ post) sub = true.
Proof.
  induction pre as [|c pre IH].
  - cbn [app]. destruct (sub ++ post) eqn:E; cbn [includes]; rewrite <- E;
      now rewrite starts_with_app.
  - cbn [app includes]. now rewrite IH, orb_true_r.
Qed.

Lemma includes_grows pre s post k :
  includes s k = true -> includes (pre ++ s ++ post) k = true.
Proof.
  intros H. destruct (includes_parts _ _ H) as (p1 & p2 & ->).
  replace (pre ++ (p1 ++ k ++ p2) ++ post)
    with ((pre ++ p1) ++ k ++ (p2 ++ post))
    by (now rewrite <- !app_assoc).
  apply includes_intro.
Qed.

Lemma toLowerCase_app a b : toLowerCase (a ++ b) = toLowerCase a ++ toLowerCase b.
Proof. apply map_app. Qed.

Lemma hits_grow keywords pre t post :
  Keywords.hits keywords t <= Keywords.hits keywords (pre ++ t ++ post).
Proof.
  unfold Keywords.hits. rewrite !toLowerCase_app.
  induction keywords as [|k ks IH]; [apply le_n|].
  cbn [filter].
  destruct (includes (toLowerCase t) k) eqn:E.
  - rewrite (includes_grows _ _ _ _ E). cbn [length].
    apply le_n_S, IH.
  - destruct (includes (toLowerCase pre ++ _) k); cbn [length];
      [apply le_S, IH | apply IH].
Qed.

(** X14. Text around a valid document does not make it invalid, and an empty
    text is never valid. *)
Theorem validation_is_monotone (pre text post : jsstring) :
  (Flight.validate_flight_ticket text = true ->
   Flight.validate_flight_ticket (pre ++ text ++ post) = true)
  /\ (Hotel.validate_hotel_booking text = true ->
      Hotel.validate_hotel_booking (pre ++ text ++ post) = true)
  /\ Flight.validate_flight_ticket [] = false
  /\ Hotel.validate_hotel_booking [] = false.
Proof.
  split; [|split; [|split; reflexivity]].
  - unfold Flight.validate_flight_ticket. intros H.
    apply Nat.leb_le in H. apply Nat.leb_le.
    pose proof (hits_grow Flight.flight_keywords pre text post) as G.
    unfold Keywords.hits in G.
    exact (Nat.le_trans _ _ _ H G).
  - unfold Hotel.validate_hotel_booking. intros H.
    apply Nat.leb_le in H. apply Nat.leb_le.
    pose proof (hits_grow Hotel.hotel_keywords pre text post) as G.
    unfold Keywords.hits in G.
    exact (Nat.le_trans _ _ _ H G).
Qed.

Lemma validation_is_monotone_witness :
  Flight.validate_flight_ticket
    (js "Page 1 " ++ js "flight ticket pnr" ++ js " terms apply") = true
  /\ Hotel.validate_hotel_booking
       (js "Page 1 " ++ js "hotel booking check-in" ++ js " terms apply")
     = true.
Proof.
  split.
  - apply (proj1 (validation_is_monotone
                    (js "Page 1 ") (js "flight ticket pnr")
                    (js " terms apply"))).
    vm_compute. reflexivity.
  - apply (proj1 (proj2 (validation_is_monotone
                           (js "Page 1 ") (js "hotel booking check-in")
                           (js " terms apply")))).
    vm_compute. reflexivity.
Defined.

End ValidationMoreFacts.

(** ** What a batch touches, and in which order *)

Module FrameFacts.

Import Router Payload Observe Outcomes Grouping Frame RouterFacts GroupFacts
  BatchFacts.

Local Unset Implicit Arguments.

Lemma consider_known name travellers : forall best,
  (forall id s, best = Some (id, s) ->
     In id (map Mapping.traveller_id travellers)) ->
  forall t,
    (forall id s, Mapping.consider name best t = Some (id, s) ->
       In id (map Mapping.traveller_id (travellers ++ [t]))).
Proof.
  intros best Hb t id s. unfold Mapping.consider.
  rewrite map_app, in_app_iff.
  destruct (_ && _).
  - intros H. inversion H; subst. right. now left.
  - intros H. left. eauto.
Qed.

Lemma fold_known name post : forall pre best,
  (forall id s, best = Some (id, s) -> In id (map Mapping.traveller_id pre)) ->
  forall id s, fold_left (Mapping.consider name) post best = Some (id, s) ->
               In id (map Mapping.traveller_id (pre ++ post)).
Proof.
  induction post as [|t post IH]; intros pre best Hb id s H; cbn [fold_left] in H.
  - rewrite app_nil_r. eauto.
  - replace (pre ++ t :: post) with ((pre ++ [t]) ++ post)
      by (now rewrite <- app_assoc).
    eapply IH; [|exact H]. now apply consider_known.
Qed.

(** The matcher answers with the identifier of a traveller it was given. *)
Lemma mapped_is_known name travellers id :
  Mapping.map_ticket_to_passenger name travellers = Some id ->
  In id (map Mapping.traveller_id travellers).
Proof.
  unfold Mapping.map_ticket_to_passenger.
  destruct name as [name|]; [|discriminate].
  destruct (_ || _); [discriminate|].
  destruct (fold_left _ _ _) as [[id' s]|] eqn:E; [|discriminate].
  intros H. inversion H; subst.
  apply (fold_known name travellers [] None) with (s := s); [discriminate|].
  exact E.
Qed.

Lemma all_travellers_ids documents :
  map Mapping.traveller_id (all_travellers documents)
  = map traveller_id documents.
Proof. unfold all_travellers. rewrite map_map. reflexivity. Qed.

Lemma mapped_traveller_known name documents doc :
  In doc documents ->
  In (opt_or (Mapping.map_ticket_to_passenger name (all_travellers documents))
             (traveller_id doc))
     (map traveller_id documents).
Proof.
  intros Hd.
  destruct (Mapping.map_ticket_to_passenger name (all_travellers documents))
    as [[|c id]|] eqn:E; cbn [opt_or]; try now apply in_map.
  apply mapped_is_known in E. now rewrite all_travellers_ids in E.
Qed.

Lemma appends_post Q url body :
  Q (Post url body) ->
  appends Q (fun w => (Ok tt, emit (Post url body) w)).
Proof.
  intros H w. eexists. split; [reflexivity|]. constructor; auto.
Qed.

Lemma flight_unit_own env order_id documents doc :
  In doc documents ->
  appends (fun e => own_effect env order_id documents e /\ about flight e)
    (flight_unit env (channel_of env order_id) order_id documents doc).
Proof.
  intros Hd.
  pose proof (in_map traveller_id _ _ Hd) as Ht.
  pose proof (in_map document_id _ _ Hd) as Hi.
  unfold flight_unit, flight_attempt, flight_failed.
  apply appends_try_catch.
  - apply appends_bind;
      [apply appends_publish; intros; cbn; auto 10|].
    intros _.
    destruct (status _); try (apply appends_publish; intros; cbn; auto 10).
    destruct (data _); try (apply appends_publish; intros; cbn; auto 10).
    apply appends_bind.
    + apply appends_publish. intros. cbn.
      pose proof (mapped_traveller_known (Flight.passenger_name f) _ _ Hd).
      auto 10.
    + intros _. unfold update_main_backend_with_ticket.
      apply appends_post. cbn.
      pose proof (mapped_traveller_known (Flight.passenger_name f) _ _ Hd).
      repeat split; auto.
      intros id [H0 | [H0 | H0]]; inversion H0; subst; auto.
  - intros e. apply appends_publish; intros; cbn; auto 10.
Qed.

Lemma hotel_unit_own env order_id documents doc :
  In doc documents ->
  appends (fun e => own_effect env order_id documents e /\ about hotel e)
    (hotel_unit env (channel_of env order_id) order_id documents doc).
Proof.
  intros Hd.
  pose proof (in_map traveller_id _ _ Hd) as Ht.
  pose proof (in_map document_id _ _ Hd) as Hi.
  unfold hotel_unit, hotel_attempt, hotel_failed.
  apply appends_try_catch.
  - apply appends_bind;
      [apply appends_publish; intros; cbn; auto 10|].
    intros _.
    destruct (status _); try (apply appends_publish; intros; cbn; auto 10).
    destruct (data _); try (apply appends_publish; intros; cbn; auto 10).
    apply appends_bind.
    + apply appends_publish. intros. cbn.
      pose proof (mapped_traveller_known (Hotel.guest_name h) _ _ Hd).
      auto 10.
    + intros _. unfold update_main_backend_with_ticket.
      apply appends_post. cbn.
      pose proof (mapped_traveller_known (Hotel.guest_name h) _ _ Hd).
      repeat split; auto.
      intros id [H0 | [H0 | H0]]; inversion H0; subst; auto.
  - intros e. apply appends_publish; intros; cbn; auto 10.
Qed.

Lemma passport_unit_own env order_id documents entry :
  In entry (passport_docs (group_documents documents)) ->
  appends (fun e => own_effect env order_id documents e /\ about passport e)
    (passport_unit env (channel_of env order_id) order_id entry).
Proof.
  intros Hin. destruct entry as [t [[f|] [b|]]]; cbn [passport_unit front back];
    try apply appends_ret.
  pose proof (group_documents_grouped documents) as G.
  destruct (front_sound _ _ G t _ f Hin eq_refl) as (Hf & _ & Tf).
  destruct (back_sound _ _ G t _ b Hin eq_refl) as (Hb & _ & Tb).
  pose proof (in_map traveller_id _ _ Hf) as Ht. rewrite Tf in Ht.
  pose proof (in_map document_id _ _ Hf) as Hi.
  pose proof (in_map document_id _ _ Hb) as Hj.
  unfold passport_attempt, passport_failed.
  apply appends_try_catch.
  - apply appends_bind;
      [apply appends_publish; intros; cbn; auto 10|].
    intros _.
    apply appends_bind;
      [apply appends_publish; intros; cbn; auto 10|].
    intros _. unfold update_main_backend_with_passport.
    apply appends_post. cbn. repeat split; auto.
    intros id [H0 | [H0 | H0]]; inversion H0; subst; auto.
  - intros e. apply appends_publish; intros; cbn.
    rewrite !UnitFacts.str_or_nil. auto 10.
Qed.


Lemma batch_by_kind env order_id documents w :
  exists d1 d2 d3,
    trace (snd (process_documents_async env order_id documents w))
    = trace w ++ d1 ++ d2 ++ d3
    /\ Forall (fun e => own_effect env order_id documents e
                        /\ about passport e) d1
    /\ Forall (fun e => own_effect env order_id documents e
                        /\ about flight e) d2
    /\ Forall (fun e => own_effect env order_id documents e
                        /\ about hotel e) d3.
Proof.
  pose proof (group_documents_grouped documents) as G.
  unfold process_documents_async, try_catch, bind, raise.
  set (g := group_documents documents) in *.
  assert (HA := appends_for_each _ _ (passport_docs g)
                  (fun x H => passport_unit_own env order_id documents x H)).
  assert (HB : appends (fun e => own_effect env order_id documents e
                                 /\ about flight e)
                 (for_each (flight_unit env (channel_of env order_id) order_id
                              documents) (flight_docs g))).
  { apply appends_for_each. intros doc Hd. apply flight_unit_own.
    rewrite (flights_kept _ _ G) in Hd. now apply filter_In in Hd. }
  assert (HC : appends (fun e => own_effect env order_id documents e
                                 /\ about hotel e)
                 (for_each (hotel_unit env (channel_of env order_id) order_id
                              documents) (hotel_docs g))).
  { apply appends_for_each. intros doc Hd. apply hotel_unit_own.
    rewrite (hotels_kept _ _ G) in Hd. now apply filter_In in Hd. }
  destruct (HA w) as (d1 & E1 & F1).
  destruct (for_each _ (passport_docs g) w) as [[[]|e1] w1]; cbn [snd] in *.
  - destruct (HB w1) as (d2 & E2 & F2).
    destruct (for_each _ (flight_docs g) w1) as [[[]|e2] w2]; cbn [snd] in *.
    + destruct (HC w2) as (d3 & E3 & F3).
      destruct (for_each _ (hotel_docs g) w2) as [[[]|e3] w3]; cbn [snd] in *;
        exists d1, d2, d3; rewrite E3, E2, E1, <- !app_assoc;
        repeat split; auto.
    + exists d1, d2, []. rewrite E2, E1, <- !app_assoc, app_nil_r.
      repeat split; auto.
  - exists d1, [], []. rewrite E1. cbn [app]. rewrite app_nil_r.
    repeat split; auto.
Qed.

(** X15. Whatever Redis and the services answer, a batch publishes on the
    channel of its order and posts to the results address of its order,
    and every event and post names a traveller and a document of the
    batch. *)
Theorem batch_effects_are_its_own
    (env : Env) (order_id : jsstring) (documents : list DocumentPayload)
    (w : World) :
  exists delta,
    trace (snd (process_documents_async env order_id documents w))
    = trace w ++ delta
    /\ Forall (own_effect env order_id documents) delta.
Proof.
  destruct (batch_by_kind env order_id documents w)
    as (d1 & d2 & d3 & E & F1 & F2 & F3).
  exists (d1 ++ d2 ++ d3). split; [exact E|].
  rewrite !Forall_app. repeat split;
    eapply Forall_impl; try eassumption; cbn; tauto.
Qed.

(** X16. Passports are handled first, then flight tickets, then hotel
    bookings, also when the batch stops on an exception. *)
Theorem passports_then_flights_then_hotels
    (env : Env) (order_id : jsstring) (documents : list DocumentPayload)
    (w : World) :
  exists d1 d2 d3,
    trace (snd (process_documents_async env order_id documents w))
    = trace w ++ d1 ++ d2 ++ d3
    /\ Forall (about passport) d1
    /\ Forall (about flight) d2
    /\ Forall (about hotel) d3.
Proof.
  destruct (batch_by_kind env order_id documents w)
    as (d1 & d2 & d3 & E & F1 & F2 & F3).
  exists d1, d2, d3. split; [exact E|].
  repeat split; eapply Forall_impl; try eassumption; cbn; tauto.
Qed.

Lemma for_each_idle {A : Type} (body : A -> M unit) xs w :
  (forall x, In x xs -> body x w = (Ok tt, w)) ->
  for_each body xs w = (Ok tt, w).
Proof.
  induction xs as [|x xs IH]; intros H; [reflexivity|].
  cbn [for_each]. unfold bind. rewrite (H x (or_introl eq_refl)).
  apply IH. intros y Hy. apply H. now right.
Qed.

(** X17. A batch without a complete passport pair, a flight ticket or a hotel
    booking does nothing: no event, no post, no exception. *)
Theorem batch_without_units_is_idle
    (env : Env) (order_id : jsstring) (documents : list DocumentPayload)
    (w : World) :
  unit_count documents = 0 ->
  process_documents_async env order_id documents w = (Ok tt, w).
Proof.
  unfold unit_count, process_documents_async, try_catch, bind.
  set (g := group_documents documents). intros H.
  assert (Hp : filter complete (passport_docs g) = [])
    by (destruct (filter complete (passport_docs g)); [reflexivity|cbn in H; lia]).
  assert (Hf : flight_docs g = [])
    by (destruct (flight_docs g); [reflexivity|cbn in H; lia]).
  assert (Hh : hotel_docs g = [])
    by (destruct (hotel_docs g); [reflexivity|cbn in H; lia]).
  rewrite Hf, Hh. cbn [for_each].
  rewrite for_each_idle; [reflexivity|].
  intros [t p] Hin. cbn [passport_unit].
  destruct (front p) as [f|] eqn:Ef; [|reflexivity].
  destruct (back p) as [b|] eqn:Eb; [|reflexivity].
  assert (Hc : In (t, p) (filter complete (passport_docs g))).
  { apply filter_In. split; [assumption|]. unfold complete. cbn [snd].
    now rewrite Ef, Eb. }
  rewrite Hp in Hc. contradiction.
Qed.

Lemma batch_without_units_is_idle_witness :
  process_documents_async
    (Samples.env_of rethrowing Samples.down Samples.shopping_list)
    (js "o1")
    [Samples.document "d1" "passport_front"; Samples.document "d2" "visa"]
    start
  = (Ok tt, start).
Proof.
  apply batch_without_units_is_idle. vm_compute. reflexivity.
Defined.


Lemma last_side_snoc ty t seen doc :
  last_side ty t (seen ++ [doc])
  = if is_type doc ty && streq (traveller_id doc) t then Some doc
    else last_side ty t seen.
Proof. unfold last_side. rewrite rev_app_distr. reflexivity. Qed.

Lemma last_side_none ty t seen :
  (forall d, In d seen -> is_type d ty = true -> traveller_id d <> t) ->
  last_side ty t seen = None.
Proof.
  intros H. unfold last_side.
  destruct (find _ (rev seen)) as [d|] eqn:E; [|reflexivity].
  apply find_some in E. destruct E as [Hin Hd].
  apply in_rev in Hin. apply andb_true_iff in Hd. destruct Hd as [Hty Ht].
  apply streq_spec in Ht. now elim (H d Hin Hty).
Qed.

Lemma streq_false a b : a <> b -> streq a b = false.
Proof.
  intros H. destruct (streq a b) eqn:E; [|reflexivity].
  apply streq_spec in E. contradiction.
Qed.

Lemma group_step_latest seen g doc :
  grouped seen g -> latest seen g -> latest (seen ++ [doc]) (group_step g doc).
Proof.
  intros G L. pose proof (keys_unique _ _ G) as Hnd.
  destruct (is_front doc || is_back doc) eqn:Epass.
  - rewrite (group_step_passport g doc Epass).
    intros t p Hin. cbn [passport_docs] in Hin. rewrite !last_side_snoc.
    fold (is_front doc) (is_back doc).
    destruct (list_eq_dec ascii_dec t (traveller_id doc)) as [-> | Hne].
    + rewrite streq_refl, !andb_true_r.
      destruct (entry_stored (passport_docs g) doc Hnd) as (p0 & Hp0 & Hst).
      assert (Hnd' : NoDup (map fst (update (ensure (passport_docs g)
                (traveller_id doc)) (traveller_id doc) (assign doc)))).
      { rewrite update_keys. now apply ensure_keys. }
      rewrite (unique_value _ _ _ _ Hnd' Hin Hst).
      assert (Hold : front p0 = last_side "passport_front" (traveller_id doc) seen
                     /\ back p0 = last_side "passport_back" (traveller_id doc) seen).
      { destruct Hp0 as [Hp0 | [-> Hnew]]; [now apply L|].
        cbn [blank_pair front back]. split; symmetry; apply last_side_none.
        - intros d Hd Hty Ht.
          destruct (front_complete _ _ G d Hd Hty) as (q & f & Hq & _).
          apply Hnew. rewrite <- Ht. apply in_map_iff. now exists (traveller_id d, q).
        - intros d Hd Hty Ht.
          destruct (back_complete _ _ G d Hd Hty) as (q & b & Hq & _).
          apply Hnew. rewrite <- Ht. apply in_map_iff. now exists (traveller_id d, q). }
      destruct Hold as [Hf Hb]. unfold assign. fold (is_front doc).
      destruct (is_front doc) eqn:Ef; cbn [front back].
      * assert (Eb : is_back doc = false) by (eapply type_exclusive; eauto).
        rewrite Eb. auto.
      * cbn [orb] in Epass. rewrite Epass. auto.
    + rewrite (streq_false (traveller_id doc) t) by congruence.
      rewrite !andb_false_r.
      apply stored_entries in Hin; [|assumption].
      destruct Hin as [[_ Hin] | [-> _]]; [now apply L | congruence].
  - apply orb_false_iff in Epass. destruct Epass as [Enf Enb].
    assert (Hpd : passport_docs (group_step g doc) = passport_docs g).
    { unfold group_step. unfold is_front, is_back in Enf, Enb.
      rewrite Enf, Enb. simpl.
      destruct (is_type doc "flight"); [reflexivity|].
      destruct (is_type doc "hotel"); reflexivity. }
    intros t p Hin. rewrite Hpd in Hin. rewrite !last_side_snoc.
    fold (is_front doc) (is_back doc). rewrite Enf, Enb. cbn [andb].
    now apply L.
Qed.

Lemma fold_latest docs : forall seen g,
  grouped seen g -> latest seen g ->
  latest (seen ++ docs) (fold_left group_step docs g).
Proof.
  induction docs as [|d docs IH]; simpl; intros seen g G L.
  - now rewrite app_nil_r.
  - replace (seen ++ d :: docs) with ((seen ++ [d]) ++ docs)
      by (now rewrite <- app_assoc).
    apply IH; [now apply group_step_grouped | now apply group_step_latest].
Qed.

(** X18. When a passport side comes twice for a traveller, the later document
    replaces the earlier one: a stored pair holds the last front and the
    last back of its traveller, in the order of the batch. *)
Theorem later_passport_side_replaces_earlier
    (documents : list DocumentPayload) (t : jsstring) (p : PassportPair) :
  In (t, p) (passport_docs (group_documents documents)) ->
  front p = last_side "passport_front" t documents
  /\ back p = last_side "passport_back" t documents.
Proof.
  apply (fold_latest documents [] _ grouped_nil).
  intros t' p' [].
Qed.

Lemma later_passport_side_replaces_earlier_witness :
  Some (Samples.document "d3" "passport_front")
  = last_side "passport_front" (js "t1")
      [ Samples.document "d1" "passport_front";
        Samples.document "d2" "passport_back";
        Samples.document "d3" "passport_front" ]
  /\ Some (Samples.document "d2" "passport_back")
     = last_side "passport_back" (js "t1")
         [ Samples.document "d1" "passport_front";
           Samples.document "d2" "passport_back";
           Samples.document "d3" "passport_front" ].
Proof.
  apply (later_passport_side_replaces_earlier
           [ Samples.document "d1" "passport_front";
             Samples.document "d2" "passport_back";
             Samples.document "d3" "passport_front" ]
           (js "t1")
           {| front := Some (Samples.document "d3" "passport_front");
              back := Some (Samples.document "d2" "passport_back") |}).
  vm_compute. left. reflexivity.
Defined.

End FrameFacts.

(** ** Exact matches *)

Module ExactMatchFacts.

Import Mapping MatcherTerms MappingFacts MatcherBoundFacts.

Local Unset Implicit Arguments.

(** X13. A traveller whose name is the ticket's name, case and spacing aside,
    is never passed over for a partial match: the ticket goes to a
    traveller with score 1. *)
Theorem exact_match_beats_partial
    (name : jsstring) (travellers : list TravellerInfo) (t : TravellerInfo) :
  name <> [] -> In t travellers ->
  normalize name = normalize (traveller_name t) ->
  exists u,
    In u travellers
    /\ (score_of name u == 1)%Q
    /\ map_ticket_to_passenger (Some name) travellers = Some (traveller_id u).
Proof.
  intros Hne Hin Hn.
  assert (Ht : score_of name t = 1%Q).
  { unfold score_of, fuzzy_match_name. now rewrite Hn, streq_refl. }
  destruct (nobody_or_earliest_best name travellers) as [Hall | (u & Hu)].
  - specialize (Hall t Hin). rewrite Ht in Hall. discriminate.
  - destruct Hu as (pre & post & -> & Hth & Hpre & Hpost).
    exists u. split; [apply in_or_app; right; now left|].
    split.
    + apply Qle_antisym; [apply score_bounds|].
      rewrite <- Ht.
      apply in_app_or in Hin. destruct Hin as [Hin | [<- | Hin]].
      * apply Qlt_le_weak. now apply Hpre.
      * apply Qle_refl.
      * now apply Hpost.
    + unfold map_ticket_to_passenger.
      destruct name as [|c name]; [congruence|].
      cbn [truthy negb orb].
      replace (length (pre ++ u :: post) =? 0) with false
        by (symmetry; apply Nat.eqb_neq; rewrite length_app; cbn; lia).
      now rewrite (select_first_best _ pre u post Hth Hpre Hpost).
Qed.

Lemma exact_match_beats_partial_witness :
  exists u,
    In u [ {| traveller_id := js "t1"; traveller_name := js "Ann" |};
           {| traveller_id := js "t2"; traveller_name := js "ann  lee" |} ]
    /\ (score_of (js "Ann Lee") u == 1)%Q
    /\ map_ticket_to_passenger (Some (js "Ann Lee"))
         [ {| traveller_id := js "t1"; traveller_name := js "Ann" |};
           {| traveller_id := js "t2"; traveller_name := js "ann  lee" |} ]
       = Some (traveller_id u).
Proof.
  apply (exact_match_beats_partial (js "Ann Lee") _
           {| traveller_id := js "t2"; traveller_name := js "ann  lee" |}).
  - vm_compute. discriminate.
  - right. left. reflexivity.
  - vm_compute. reflexivity.
Defined.

End ExactMatchFacts.

(** ** Addresses of stored objects *)

Module S3Facts.

Import Regex S3 Denotation SoundFacts ShapeFacts.

Local Unset Implicit Arguments.

Lemma index_of_first b key :
  slashless b -> index_of "/" (b ++ "/"%char :: key) = Some (length b).
Proof.
  unfold slashless. induction b as [|c b IH]; cbn [app index_of forallb].
  - reflexivity.
  - intros H. apply andb_true_iff in H. destruct H as [Hc Hb].
    unfold not_slash in Hc. apply negb_true_iff in Hc. rewrite Hc.
    now rewrite (IH Hb).
Qed.

Lemma index_of_none s : slashless s <-> index_of "/" s = None.
Proof.
  unfold slashless. induction s as [|c s IH]; cbn [index_of forallb].
  - tauto.
  - unfold not_slash at 1. destruct (chr_eqb c "/"); cbn [negb andb].
    + split; discriminate.
    + rewrite IH. destruct (index_of "/" s); cbn; split; congruence.
Qed.

Lemma index_of_split s n :
  index_of "/" s = Some n ->
  s = firstn n s ++ "/"%char :: skipn (n + 1) s /\ slashless (firstn n s).
Proof.
  revert n. induction s as [|c s IH]; intros n; cbn [index_of]; [discriminate|].
  destruct (chr_eqb c "/") eqn:E.
  - intros H. inversion H; subst. apply Ascii.eqb_eq in E. subst c.
    now split.
  - destruct (index_of "/" s) as [k|]; [|discriminate].
    intros H. inversion H; subst. destruct (IH k eq_refl) as [Hs Hf].
    cbn [firstn skipn Nat.add]. split.
    + cbn [app]. now rewrite <- Hs.
    + unfold slashless in *. cbn [forallb]. unfold not_slash at 1.
      now rewrite E, Hf.
Qed.

Lemma s3_prefix rest :
  starts_with (js "s3://") (js "s3://" ++ rest) = true
  /\ remove_first (js "s3://") (js "s3://" ++ rest) = rest.
Proof. split; reflexivity. Qed.


Lemma s3_parts (bucket_name : option jsstring)
    (pathname : jsstring -> exn + jsstring) (rest : jsstring) :
  let url := js "s3://" ++ rest in
  (forall bucket key,
      rest = bucket ++ js "/" ++ key -> slashless bucket ->
      extract_bucket_from_url bucket_name url = Some bucket
      /\ extract_s3_key_from_url pathname url = Some key)
  /\ (slashless rest ->
      extract_bucket_from_url bucket_name url = Some rest
      /\ extract_s3_key_from_url pathname url = Some rest)
  /\ (slashless rest \/
      exists bucket key, rest = bucket ++ js "/" ++ key /\ slashless bucket).
Proof.
  cbn zeta. unfold extract_bucket_from_url, extract_s3_key_from_url.
  destruct (s3_prefix rest) as [-> ->].
  split; [|split].
  - intros bucket key -> Hb. cbn [js list_ascii_of_string app].
    rewrite (index_of_first _ _ Hb).
    rewrite firstn_app, Nat.sub_diag, firstn_all. cbn [firstn].
    rewrite app_nil_r. split; [reflexivity|].
    rewrite skipn_app, skipn_all2 by lia.
    replace (length bucket + 1 - length bucket) with 1 by lia.
    reflexivity.
  - intros Hr. apply index_of_none in Hr. now rewrite Hr.
  - destruct (index_of "/" rest) as [n|] eqn:E.
    + right. apply index_of_split in E. destruct E as [E Hs].
      now exists (firstn n rest), (skipn (n + 1) rest).
    + left. now apply index_of_none.
Qed.

(** X19. What the two functions make of [s3://rest]: with a slash in [rest],
    the bucket is what stands before the first slash and the key what
    stands after it; without one, both answer [rest]. *)
Theorem s3_address_parts (bucket_name : option jsstring)
    (pathname : jsstring -> exn + jsstring) (rest : jsstring) :
  let url := js "s3://" ++ rest in
  (forall bucket key,
      rest = bucket ++ js "/" ++ key -> slashless bucket ->
      extract_bucket_from_url bucket_name url = Some bucket
      /\ extract_s3_key_from_url pathname url = Some key)
  /\ (slashless rest ->
      extract_bucket_from_url bucket_name url = Some rest
      /\ extract_s3_key_from_url pathname url = Some rest)
  /\ (slashless rest \/
      exists bucket key, rest = bucket ++ js "/" ++ key /\ slashless bucket).
Proof. apply s3_parts. Qed.

Lemma s3_address_parts_witness :
  (extract_bucket_from_url None (js "s3://" ++ js "docs/o1/ppf.jpg")
   = Some (js "docs")
   /\ extract_s3_key_from_url (fun u => inr u)
        (js "s3://" ++ js "docs/o1/ppf.jpg") = Some (js "o1/ppf.jpg"))
  /\ (extract_bucket_from_url None (js "s3://" ++ js "docs")
      = Some (js "docs")
      /\ extract_s3_key_from_url (fun u => inr u) (js "s3://" ++ js "docs")
         = Some (js "docs")).
Proof.
  split.
  - apply (proj1 (s3_address_parts None (fun u => inr u)
                    (js "docs/o1/ppf.jpg")) (js "docs") (js "o1/ppf.jpg")).
    + reflexivity.
    + reflexivity.
  - apply (proj1 (proj2 (s3_address_parts None (fun u => inr u)
                           (js "docs")))).
    reflexivity.
Defined.

(** X20. The address [upload_to_s3] returns is read back by the two functions
    as the bucket and the key of the upload. *)
Theorem uploaded_address_round_trip
    (bucket_name access_key_id secret_access_key : option jsstring)
    (exists_sync : jsstring -> bool) (read_file_sync : jsstring -> option exn)
    (send : PutObject -> option exn)
    (pathname : jsstring -> exn + jsstring)
    (options : UploadToS3Options) (url : jsstring) :
  upload_to_s3 bucket_name access_key_id secret_access_key exists_sync
    read_file_sync send options = inr url ->
  slashless (shown bucket_name) ->
  extract_bucket_from_url bucket_name url = Some (shown bucket_name)
  /\ extract_s3_key_from_url pathname url = Some (s3_key options).
Proof.
  unfold upload_to_s3. intros H Hb.
  destruct (negb (exists_sync _)); [discriminate|].
  destruct (get_s3_client _ _); [discriminate|].
  destruct (read_file_sync _); [discriminate|].
  destruct (send _); [discriminate|].
  inversion H; subst; clear H.
  now apply (s3_parts bucket_name pathname
               (shown bucket_name ++ js "/" ++ s3_key options)).
Qed.

Lemma uploaded_address_round_trip_witness :
  extract_bucket_from_url (Some (js "compass-docs"))
    (js "s3://compass-docs/orders/o1/ppf.jpg") = Some (js "compass-docs")
  /\ extract_s3_key_from_url (fun u => inr u)
       (js "s3://compass-docs/orders/o1/ppf.jpg")
     = Some (js "orders/o1/ppf.jpg").
Proof.
  apply (uploaded_address_round_trip
           (Some (js "compass-docs")) (Some (js "id")) (Some (js "secret"))
           (fun _ => true) (fun _ => None) (fun _ => None) (fun u => inr u)
           {| file_path := js "/tmp/ppf.jpg";
              s3_key := js "orders/o1/ppf.jpg";
              content_type := None |}).
  - vm_compute. reflexivity.
  - vm_compute. reflexivity.
Defined.


(** The bucket pattern on a virtual-hosted address. *)
Lemma bucket_pattern_reads b tl' :
  b <> [] -> forallb not_dot b = true ->
  exists mt,
    str_match bucket_pattern (js "https://" ++ b ++ js ".s3" ++ tl') = Some mt
    /\ group 1 mt = Some b.
Proof.
  intros Hne Hb.
  set (text := js "https://" ++ b ++ js ".s3" ++ tl').
  set (st0 := {| prev := None; rest := text; caps := [] |}).
  set (st1 := after (js "http") st0).
  set (st2 := after (js "s") st1).
  set (st3 := after (js "://") st2).
  set (st4 := after b st3).
  assert (R1 : rest st1 = js "s://" ++ b ++ js ".s3" ++ tl') by reflexivity.
  assert (R2 : rest st2 = js "://" ++ b ++ js ".s3" ++ tl') by reflexivity.
  assert (R3 : rest st3 = b ++ js ".s3" ++ tl') by reflexivity.
  assert (R4 : rest st4 = js ".s3" ++ tl') by (now apply rest_after).
  assert (C4 : caps st4 = []) by (unfold st4; now rewrite caps_after).
  assert (Hm : exists res,
    m bucket_pattern st0 Some = Some res /\ caps res = [(1, b)]).
  { unfold bucket_pattern. cbn [seq m]. unfold lit at 1.
    rewrite (literal_reads (js "http") st0 _ (js "s://" ++ b ++ js ".s3" ++ tl'))
      by reflexivity.
    fold st1. eexists. split.
    - eapply option_taken; [exact R1 | reflexivity |]. fold st2.
      unfold lit at 1. rewrite (literal_reads (js "://") st2 _ _ R2).
      fold st3.
      eapply run_reads; [exact R3 | exact Hne | exact Hb | |].
      + right. eexists. eexists. split; reflexivity.
      + fold st4. unfold lit.
        erewrite literal_reads; [reflexivity|]. cbn [rest]. exact R4.
    - rewrite caps_after. cbn [caps]. rewrite C4.
      now rewrite (consumed_read st3 st4 b) by (now rewrite R3, R4). }
  destruct Hm as (res & Hm & Hc).
  unfold str_match, exec_from. cbn [Nat.ltb Nat.leb]. cbn [search_from].
  unfold match_at. cbn [skipn char_before]. fold st0. rewrite Hm.
  eexists. split; [reflexivity|]. unfold group. cbn [groups]. rewrite Hc.
  reflexivity.
Qed.

(** X21. The bucket of a virtual-hosted address
    [https://bucket.s3...] is its first label. *)
Theorem https_address_bucket (bucket_name : option jsstring)
    (bucket tl' : jsstring) :
  bucket <> [] -> forallb not_dot bucket = true ->
  extract_bucket_from_url bucket_name
    (js "https://" ++ bucket ++ js ".s3" ++ tl') = Some bucket.
Proof.
  intros Hne Hb. unfold extract_bucket_from_url.
  destruct (bucket_pattern_reads bucket tl' Hne Hb) as (mt & Hm & Hg).
  change (starts_with (js "s3://") (js "https://" ++ bucket ++ js ".s3" ++ tl'))
    with false.
  change (starts_with (js "https://")
            (js "https://" ++ bucket ++ js ".s3" ++ tl')) with true.
  cbv iota. now rewrite Hm.
Qed.

Lemma https_address_bucket_witness :
  extract_bucket_from_url None
    (js "https://" ++ js "compass-docs" ++ js ".s3"
     ++ js ".ap-south-1.amazonaws.com/orders/o1/ppf.jpg")
  = Some (js "compass-docs").
Proof.
  apply (https_address_bucket None (js "compass-docs")).
  - vm_compute. discriminate.
  - vm_compute. reflexivity.
Defined.

End S3Facts.

(** ** Archives of passenger folders *)

Module ZipFacts.

Import Zip ZipTerms.

Local Unset Implicit Arguments.

Lemma split_segment s : segment s -> split_on "/" s = [s].
Proof.
  intros [_ H]. induction s as [|c s IH]; [reflexivity|].
  cbn [forallb] in H. apply andb_true_iff in H. destruct H as [Hc Hs].
  apply negb_true_iff in Hc. cbn [split_on]. rewrite Hc.
  destruct s as [|c' s]; [reflexivity|]. now rewrite (IH Hs).
Qed.

Lemma split_segment_app s rest :
  segment s -> split_on "/" (s ++ "/"%char :: rest) = s :: split_on "/" rest.
Proof.
  intros [_ H]. induction s as [|c s IH]; [reflexivity|].
  cbn [forallb] in H. apply andb_true_iff in H. destruct H as [Hc Hs].
  apply negb_true_iff in Hc. cbn [app split_on]. rewrite Hc.
  now rewrite (IH Hs).
Qed.

Lemma split_join_slash parts :
  parts <> [] -> Forall segment parts ->
  split_on "/" (join_slash parts) = parts.
Proof.
  intros Hne Hall. induction Hall as [|p ps Hp Hps IH]; [congruence|].
  destruct ps as [|q ps].
  - now apply split_segment.
  - cbn [join_slash]. rewrite split_segment_app by assumption.
    f_equal. apply IH. discriminate.
Qed.

Lemma segments_kept parts :
  Forall segment parts -> filter (fun p => 0 <? length p) parts = parts.
Proof.
  intros H. apply forallb_filter_id. apply forallb_forall. intros p Hp.
  rewrite Forall_forall in H. destruct (H p Hp) as [Hne _].
  destruct p; [congruence | reflexivity].
Qed.

Lemma parts_of_join parts :
  parts <> [] -> Forall segment parts ->
  path_parts_of (join_slash parts) = parts.
Proof.
  intros Hne Hall. unfold path_parts_of.
  rewrite split_join_slash by assumption. now apply segments_kept.
Qed.

Lemma last_segment parts :
  parts <> [] -> Forall segment parts -> is_empty (last parts []) = false.
Proof.
  intros Hne Hall. destruct (exists_last Hne) as (ps & p & ->).
  rewrite last_last. apply Forall_app in Hall. destruct Hall as [_ Hp].
  inversion Hp as [|? ? [Hp' _] _]; subst. destruct p; [congruence|reflexivity].
Qed.

(** X22. Where an entry goes: with three segments or more and [passengers] as
    the second one (in any case), to the passenger named by the third
    segment; else to the passenger named by the second segment, which for
    a path [folder/file] is the file itself.  The file name is the last
    segment; a directory or a path of one segment is left out. *)
Theorem entry_location (parts : list jsstring) :
  Forall segment parts ->
  locate (file_entry parts)
  = match parts with
    | _ :: p1 :: p2 :: _ =>
        if streq (toLowerCase p1) (js "passengers")
        then Some (p2, last parts [])
        else Some (p1, last parts [])
    | [_; p1] => Some (p1, p1)
    | _ => None
    end.
Proof.
  intros Hall. unfold locate, file_entry. cbn [isDirectory entryName].
  destruct parts as [|p0 [|p1 ps]].
  - reflexivity.
  - rewrite parts_of_join by (auto; discriminate). reflexivity.
  - rewrite parts_of_join by (auto; discriminate).
    pose proof (last_segment (p0 :: p1 :: ps)) as Hl.
    specialize (Hl ltac:(discriminate) Hall).
    inversion Hall as [|? ? _ Hall1]; subst.
    inversion Hall1 as [|? ? [Hp1 _] Hall2]; subst.
    assert (E1 : is_empty p1 = false) by (destruct p1; [congruence|reflexivity]).
    destruct ps as [|p2 ps].
    + cbn [length Nat.ltb Nat.leb andb nth last] in *. now rewrite E1.
    + inversion Hall2 as [|? ? [Hp2 _] _]; subst.
      assert (E2 : is_empty p2 = false)
        by (destruct p2; [congruence|reflexivity]).
      cbn [length Nat.ltb Nat.leb andb nth].
      destruct (streq (toLowerCase p1) (js "passengers")).
      * rewrite E2, Hl. reflexivity.
      * rewrite E1, Hl. reflexivity.
Qed.

Lemma entry_location_witness :
  locate (file_entry [js "batch"; js "Passengers"; js "john"; js "ppf.jpg"])
  = Some (js "john", js "ppf.jpg")
  /\ locate (file_entry [js "john"; js "ppf.jpg"])
     = Some (js "ppf.jpg", js "ppf.jpg").
Proof.
  split.
  - apply (entry_location [js "batch"; js "Passengers"; js "john"; js "ppf.jpg"]).
    repeat (constructor; [split; [vm_compute; discriminate | reflexivity]|]).
    constructor.
  - apply (entry_location [js "john"; js "ppf.jpg"]).
    repeat (constructor; [split; [vm_compute; discriminate | reflexivity]|]).
    constructor.
Defined.


Lemma has_keys m name : has m name = true <-> In name (map fst m).
Proof.
  induction m as [|[k v] m IH]; cbn [has map fst In]; [split; [discriminate|tauto]|].
  rewrite orb_true_iff, IH, streq_spec. tauto.
Qed.

Lemma push_keys m name p : map fst (push m name p) = map fst m.
Proof.
  induction m as [|[k v] m IH]; [reflexivity|]. cbn [push].
  destruct (streq k name); cbn [map fst]; [reflexivity | now rewrite IH].
Qed.

Lemma in_push m name p k v :
  NoDup (map fst m) ->
  In (k, v) (push m name p) ->
  (k <> name /\ In (k, v) m)
  \/ (k = name /\ exists v0, In (name, v0) m /\ v = v0 ++ [p]).
Proof.
  induction m as [|[k' v'] m IH]; cbn [push map fst]; [contradiction|].
  intros Hnd. inversion Hnd as [|? ? Hnin Hnd']; subst.
  destruct (streq k' name) eqn:E.
  - apply streq_spec in E. subst k'. intros [H | H].
    + inversion H; subst. right. split; [reflexivity|].
      exists v'. split; [now left | reflexivity].
    + left. split; [|now right]. intros ->. apply Hnin.
      apply in_map_iff. now exists (name, v).
  - intros [H | H].
    + inversion H; subst. left. split; [|now left].
      intros ->. now rewrite streq_refl in E.
    + destruct (IH Hnd' H) as [[Hne Hin] | [-> (v0 & Hin & ->)]].
      * left. split; [assumption | now right].
      * right. split; [reflexivity|]. exists v0. split; [now right|reflexivity].
Qed.

Section Folders.

Variable cwd : jsstring.
Variable join : list jsstring -> jsstring.
Variable basename : jsstring -> jsstring.

Lemma located_snoc seen e :
  located (seen ++ [e])
  = located seen ++ match locate e with Some x => [x] | None => [] end.
Proof.
  unfold located. rewrite flat_map_app. cbn [flat_map]. now rewrite app_nil_r.
Qed.

Lemma store_filed seen m e :
  filed cwd join seen m -> filed cwd join (seen ++ [e]) (store cwd join m e).
Proof.
  intros (Hnd & Hb & Hc). unfold ZipTerms.filed, store.
  rewrite located_snoc.
  destruct (locate e) as [[n f]|]; [|now rewrite app_nil_r].
  set (m1 := if negb (has m n) then m ++ [(n, [])] else m).
  assert (Hnd1 : NoDup (map fst m1)).
  { unfold m1. destruct (has m n) eqn:E; cbn [negb]; [assumption|].
    rewrite map_app. cbn [map fst]. apply NoDup_app; [assumption| |].
    - repeat constructor. cbn. tauto.
    - intros x Hx [<- | []]. apply has_keys in Hx. congruence. }
  assert (Hin1 : In n (map fst m1)).
  { unfold m1. destruct (has m n) eqn:E; cbn [negb].
    - now apply has_keys.
    - rewrite map_app. apply in_or_app. right. now left. }
  assert (Hm1 : forall k v, In (k, v) m1 ->
            In (k, v) m \/ (k = n /\ v = [] /\ ~ In n (map fst m))).
  { unfold m1. intros k v. destruct (has m n) eqn:E; cbn [negb]; [tauto|].
    intros H. apply in_app_or in H. destruct H as [H | [H | []]]; [tauto|].
    inversion H; subst. right. repeat split.
    intros Hk. apply has_keys in Hk. congruence. }
  assert (Hsub : forall k, In k (map fst m) -> In k (map fst m1)).
  { unfold m1. intros k Hk. destruct (has m n); cbn [negb]; [assumption|].
    rewrite map_app. apply in_or_app. now left. }
  split; [|split].
  - now rewrite push_keys.
  - intros name paths Hin. apply in_push in Hin; [|assumption].
    rewrite filter_app, map_app. cbn [filter]. unfold of_passenger at 2.
    cbn [fst].
    destruct Hin as [[Hne Hin] | [-> (v0 & Hin & ->)]].
    + assert (E : streq n name = false).
      { destruct (streq n name) eqn:E; [|reflexivity].
        apply streq_spec in E. congruence. }
      rewrite E. cbn [map]. rewrite app_nil_r.
      destruct (Hm1 _ _ Hin) as [H | [-> _]]; [now apply Hb | congruence].
    + rewrite streq_refl. cbn [map]. unfold path_to at 2. cbn [fst snd].
      split; [now destruct v0|].
      f_equal. destruct (Hm1 _ _ Hin) as [H | (_ & -> & Hnew)].
      * now apply Hb.
      * destruct (filter (of_passenger n) (located seen)) as [|x l] eqn:F;
          [reflexivity|]. exfalso.
        assert (Hx : In x (filter (of_passenger n) (located seen)))
          by (rewrite F; now left).
        apply filter_In in Hx. destruct Hx as [Hx Hn].
        apply streq_spec in Hn. apply Hnew. rewrite <- Hn. now apply Hc.
  - intros x Hx. rewrite push_keys. apply in_app_or in Hx.
    destruct Hx as [Hx | [<- | []]]; [apply Hsub; now apply Hc | exact Hin1].
Qed.

Lemma fold_filed entries : forall seen m,
  filed cwd join seen m ->
  filed cwd join (seen ++ entries) (fold_left (store cwd join) entries m).
Proof.
  induction entries as [|e entries IH]; cbn [fold_left]; intros seen m H.
  - now rewrite app_nil_r.
  - replace (seen ++ e :: entries) with ((seen ++ [e]) ++ entries)
      by (now rewrite <- app_assoc).
    apply IH. now apply store_filed.
Qed.

Lemma filed_nil : filed cwd join [] [].
Proof.
  split; [constructor|]. split; [intros name paths []|intros x []].
Qed.

(** X23. The folders of an archive: one per passenger name, none of them
    empty; the files of a folder are the entries kept for that passenger,
    in the order of the archive, each with the type of its base name. *)
Theorem folders_file_every_entry (zip_entries : list Entry) :
  let folders := extract_zip_file cwd join basename zip_entries in
  NoDup (map passenger_name folders)
  /\ (forall folder, In folder folders ->
        files folder <> []
        /\ map file_path (files folder)
           = map (path_to cwd join) (filter (of_passenger (passenger_name folder))
                            (located zip_entries))
        /\ Forall (fun file =>
                     filename file = basename (file_path file)
                     /\ file_type file = file_type_of (filename file))
                  (files folder))
  /\ (forall x, In x (located zip_entries) ->
        In (fst x) (map passenger_name folders)).
Proof.
  cbn zeta. unfold extract_zip_file.
  destruct (fold_filed zip_entries [] [] filed_nil) as (Hnd & Hb & Hc).
  cbn [app] in *. set (m := fold_left (store cwd join) zip_entries []) in *.
  assert (Hkeys : map passenger_name
            (map (fun '(passenger_name, file_paths) =>
                    {| passenger_name := passenger_name;
                       files := map (to_file basename) file_paths |}) m)
          = map fst m).
  { rewrite map_map. apply map_ext. now intros [k v]. }
  rewrite Hkeys. split; [assumption|]. split; [|assumption].
  intros folder Hin. apply in_map_iff in Hin.
  destruct Hin as ([name paths] & <- & Hin). cbn [passenger_name files].
  destruct (Hb _ _ Hin) as [Hne Hp]. split; [|split].
  - destruct paths; [congruence | discriminate].
  - rewrite map_map. cbn [to_file file_path]. now rewrite map_id.
  - apply Forall_forall. intros file Hf. apply in_map_iff in Hf.
    destruct Hf as (p & <- & _). now split.
Qed.

End Folders.

Lemma folders_file_every_entry_witness :
  In (js "john")
     (map passenger_name
        (extract_zip_file (js "/srv") join_slash Cases.base Cases.archive)).
Proof.
  apply (proj2 (proj2 (folders_file_every_entry
                         (js "/srv") join_slash Cases.base Cases.archive))
           (js "john", js "ppf.jpg")).
  vm_compute. left. reflexivity.
Defined.

End ZipFacts.

(** ** File types *)

Module FileTypeFacts.

Import Regex Zip ZipTerms Denotation SoundFacts ShapeFacts.

Local Unset Implicit Arguments.

Lemma lower_back c : is_lower c = true -> lower_char (upper_char c) = c.
Proof. destruct c as [[] [] [] [] [] [] [] []]; vm_compute; congruence. Qed.

Lemma lower_of_small c : is_lower c = true -> lower_char c = c.
Proof. destruct c as [[] [] [] [] [] [] [] []]; vm_compute; congruence. Qed.

Lemma upper_of_small c y :
  is_lower y = true -> upper_char c = upper_char y -> is_lower c = false ->
  lower_char c <> c.
Proof.
  intros Hy E Hc. unfold upper_char in E at 1. rewrite Hc in E. subst c.
  clear Hc. destruct y as [[] [] [] [] [] [] [] []]; vm_compute in Hy |- *;
    congruence.
Qed.

(** In a lower-cased text, what a case-blind literal of small letters
    reads is the literal itself. *)
Lemma lowered_literal w : forall x,
  forallb is_lower w = true -> lowered x ->
  toUpperCase x = toUpperCase w -> x = w.
Proof.
  unfold toUpperCase, lowered.
  induction w as [|y w IH]; intros [|c x] Hw Hx E; try discriminate;
    [reflexivity|].
  cbn [map forallb] in *. apply andb_true_iff in Hw. destruct Hw as [Hy Hw].
  inversion Hx as [|? ? Hc Hx']; subst. inversion E as [[Ec Ex]].
  f_equal; [|now apply IH].
  destruct (is_lower c) eqn:Lc.
  - rewrite <- (lower_back _ Lc), Ec. now apply lower_back.
  - now elim (upper_of_small c y Hy Ec Lc).
Qed.

Lemma lowered_toLowerCase s : lowered (toLowerCase s).
Proof.
  unfold lowered, toLowerCase. apply Forall_forall. intros c Hc.
  apply in_map_iff in Hc. destruct Hc as (c' & <- & _).
  destruct c' as [[] [] [] [] [] [] [] []]; reflexivity.
Qed.

Lemma lowered_app a b : lowered (a ++ b) <-> lowered a /\ lowered b.
Proof. apply Forall_app. Qed.

Lemma genuine_parts text mt :
  DocumentOrder.genuine text mt ->
  exists pre post, text = pre ++ matched mt ++ post /\ length pre = index mt
                   \/ matched mt = [].
Proof.
  unfold DocumentOrder.genuine, DocumentOrder.occurs_at. intros H.
  exists (firstn (index mt) text),
         (skipn (length (matched mt)) (skipn (index mt) text)).
  destruct (matched mt) as [|c l] eqn:E; [now right|]. left.
  rewrite <- H at 1. rewrite firstn_skipn, firstn_skipn. split; [reflexivity|].
  apply firstn_length_le.
  destruct (Nat.le_gt_cases (index mt) (length text)) as [Hle | Hgt];
    [assumption|].
  rewrite skipn_all2 in H by lia. now rewrite firstn_nil in H.
Qed.

Lemma str_match_genuine r text mt :
  str_match r text = Some mt -> DocumentOrder.genuine text mt.
Proof. intros H. now apply RegexFacts.exec_from_sound in H. Qed.

Lemma includes_middle pre sub post : includes (pre ++ sub ++ post) sub = true.
Proof.
  induction pre as [|c pre IH].
  - cbn [app]. assert (H : starts_with sub (sub ++ post) = true).
    { clear. induction sub as [|x sub IH]; [reflexivity|].
      cbn [app starts_with]. unfold chr_eqb. now rewrite Ascii.eqb_refl. }
    destruct (sub ++ post); cbn [includes]; now rewrite H.
  - cbn [app includes]. now rewrite IH, orb_true_r.
Qed.

Lemma word_pattern_found (w : string) l :
  forallb is_lower (js w) = true -> js w <> [] -> lowered l ->
  matches l (word_pattern w) = true -> has_word l w = true.
Proof.
  intros Hw Hne Hl. unfold matches, has_word.
  destruct (str_match (word_pattern w) l) as [mt|] eqn:E; [|discriminate].
  intros _. pose proof (str_match_genuine _ _ _ E) as G.
  apply str_match_shape in E. destruct E as [S _].
  unfold word_pattern in S. cbn [seq shape] in S.
  destruct S as (e1 & r1 & Em & He1 & x & e2 & Er1 & Sx & He2).
  subst e1 e2 r1. cbn [app] in Em. rewrite app_nil_r in Em.
  apply literal_shape in Sx.
  destruct (genuine_parts _ _ G) as (pre & post & [[Et _] | En]).
  - rewrite Em in Et. rewrite Et in Hl.
    apply lowered_app in Hl. destruct Hl as [_ Hl].
    apply lowered_app in Hl. destruct Hl as [Hx _].
    rewrite <- (lowered_literal _ _ Hw Hx Sx), Et.
    apply includes_middle.
  - rewrite Em in En. rewrite En in Sx.
    destruct (js w); [congruence | cbn in Sx; inversion Sx].
Qed.

Lemma passport_pattern_found (side : string) l :
  forallb is_lower (js side) = true -> js side <> [] -> lowered l ->
  matches l (passport_pattern side) = true -> has_word l side = true.
Proof.
  intros Hw Hne Hl. unfold matches, has_word.
  destruct (str_match (passport_pattern side) l) as [mt|] eqn:E;
    [|discriminate].
  intros _. pose proof (str_match_genuine _ _ _ E) as G.
  apply str_match_shape in E. destruct E as [S _].
  unfold passport_pattern in S. cbn [seq shape] in S.
  destruct S as (x1 & r1 & Em & _ & mid & x & Er1 & _ & Sx). subst r1.
  apply literal_shape in Sx.
  destruct (genuine_parts _ _ G) as (pre & post & [[Et _] | En]).
  - rewrite Em in Et. rewrite Et in Hl.
    apply lowered_app in Hl. destruct Hl as [_ Hl].
    apply lowered_app in Hl. destruct Hl as [Hl _].
    apply lowered_app in Hl. destruct Hl as [_ Hl].
    apply lowered_app in Hl. destruct Hl as [_ Hx].
    rewrite <- (lowered_literal _ _ Hw Hx Sx), Et.
    replace (pre ++ (x1 ++ mid ++ x) ++ post)
      with ((pre ++ x1 ++ mid) ++ x ++ post)
      by (now rewrite <- !app_assoc).
    apply includes_middle.
  - rewrite Em in En. apply app_eq_nil in En. destruct En as [_ En].
    apply app_eq_nil in En. destruct En as [_ En]. rewrite En in Sx.
    destruct (js side); [congruence | cbn in Sx; inversion Sx].
Qed.


Lemma blind_literal_reads l : forall st k tl',
  rest st = l ++ tl' -> m (seq (map ci_char l)) st k = k (after l st).
Proof.
  induction l as [|c l IH]; intros st k tl' E; [reflexivity|].
  destruct l as [|c' l].
  - cbn [map seq ci_char m after]. rewrite E. cbn [app tl]. unfold chr_eqb.
    now rewrite Ascii.eqb_refl.
  - change (seq (map ci_char (c :: c' :: l)))
      with (Cat (ci_char c) (seq (map ci_char (c' :: l)))).
    cbn [m ci_char]. change (after (c :: c' :: l) st)
      with (after (c' :: l)
              {| prev := Some c; rest := tl (rest st); caps := caps st |}).
    rewrite E. cbn [app tl]. unfold chr_eqb at 1. rewrite Ascii.eqb_refl.
    now apply IH with (tl' := tl').
Qed.

Lemma starts_with_parts p s :
  starts_with p s = true <-> exists post, s = p ++ post.
Proof.
  revert s. induction p as [|x p IH]; intros s.
  - split; [now exists s | reflexivity].
  - destruct s as [|y s]; cbn [starts_with].
    + split; [discriminate | intros (post & H); discriminate].
    + rewrite andb_true_iff, IH. unfold chr_eqb. rewrite Ascii.eqb_eq.
      split.
      * intros (-> & post & ->). now exists post.
      * intros (post & H). inversion H; subst. split; [reflexivity|].
        now exists post.
Qed.

Lemma start_pattern_found (w : string) l :
  forallb is_lower (js w) = true -> js w <> [] -> lowered l ->
  matches l (start_pattern w) = starts_with (js w) l.
Proof.
  intros Hw Hne Hl. unfold matches.
  destruct (starts_with (js w) l) eqn:Esw.
  - apply starts_with_parts in Esw. destruct Esw as (post & ->).
    unfold str_match, exec_from. cbn [Nat.ltb Nat.leb]. cbn [search_from].
    unfold match_at, start_pattern, liti. cbn [seq m skipn char_before prev].
    now rewrite (blind_literal_reads (js w) _ _ post).
  - destruct (str_match (start_pattern w) l) as [mt|] eqn:E; [|reflexivity].
    exfalso. pose proof (str_match_genuine _ _ _ E) as G.
    destruct (str_match_at _ _ _ E) as (j & Hj).
    pose proof (@RegexFacts.match_at_sound _ _ _ _ Hj) as [Hi _].
    assert (Hb : char_before l j = None).
    { unfold match_at, start_pattern in Hj. cbn [seq m prev] in Hj.
      destruct (char_before l j); [discriminate | reflexivity]. }
    apply str_match_shape in E. destruct E as [S _].
    unfold start_pattern in S. cbn [seq shape] in S.
    destruct S as (e1 & x & Em & He1 & Sx). subst e1. cbn [app] in Em.
    apply literal_shape in Sx.
    unfold DocumentOrder.genuine, DocumentOrder.occurs_at in G.
    rewrite Hi, Em in G.
    assert (Hx : x <> []).
    { intros ->. destruct (js w); [congruence | cbn in Sx; inversion Sx]. }
    assert (Hj0 : j = 0).
    { destruct j as [|j]; [reflexivity|]. cbn [char_before] in Hb.
      apply nth_error_None in Hb. rewrite skipn_all2 in G by lia.
      rewrite firstn_nil in G. congruence. }
    rewrite Hj0 in G. cbn [skipn] in G.
    assert (Hlx : lowered x).
    { rewrite <- (firstn_skipn (length x) l), G in Hl.
      now apply lowered_app in Hl. }
    rewrite (lowered_literal _ _ Hw Hlx Sx) in G.
    assert (Hs : starts_with (js w) l = true).
    { apply starts_with_parts. exists (skipn (length (js w)) l).
      rewrite <- G at 1. now rewrite firstn_skipn. }
    congruence.
Qed.

Lemma starts_with_found p s : starts_with p s = true -> includes s p = true.
Proof.
  intros H. destruct s; cbn [includes]; now rewrite H.
Qed.

(** X24. The file type depends on the name through its lower-cased form alone,
    and on that through substrings and two prefixes: the six regular
    expressions of the conversion never change the answer. *)
Theorem file_type_by_substrings (filename : jsstring) :
  file_type_of filename = plain_file_type (toLowerCase filename).
Proof.
  unfold file_type_of, plain_file_type.
  set (l := toLowerCase filename).
  pose proof (lowered_toLowerCase filename) as Hl. fold l in Hl.
  pose proof (word_pattern_found "ppf" l eq_refl ltac:(discriminate) Hl) as A1.
  pose proof (word_pattern_found "ppb" l eq_refl ltac:(discriminate) Hl) as A2.
  pose proof (passport_pattern_found "front" l eq_refl ltac:(discriminate) Hl)
    as A3.
  pose proof (passport_pattern_found "back" l eq_refl ltac:(discriminate) Hl)
    as A4.
  rewrite (start_pattern_found "front" l eq_refl ltac:(discriminate) Hl).
  rewrite (start_pattern_found "back" l eq_refl ltac:(discriminate) Hl).
  pose proof (starts_with_found (js "front") l) as A5.
  pose proof (starts_with_found (js "back") l) as A6.
  unfold has_word in *.
  destruct (includes l (js "ppf")); cbn [orb];
    [reflexivity | destruct (matches l (word_pattern "ppf")); [now specialize (A1 eq_refl)|]].
  destruct (includes l (js "ppb")); cbn [orb];
    [reflexivity | destruct (matches l (word_pattern "ppb")); [now specialize (A2 eq_refl)|]].
  destruct (includes l (js "passport")); cbn [orb].
  - destruct (includes l (js "front")); cbn [orb]; [reflexivity|].
    destruct (matches l (passport_pattern "front"));
      [now specialize (A3 eq_refl)|].
    rewrite orb_false_r.
    destruct (includes l (js "_f")); [reflexivity|].
    destruct (includes l (js "back")); cbn [orb]; [reflexivity|].
    destruct (matches l (passport_pattern "back"));
      [now specialize (A4 eq_refl)|].
    now rewrite orb_false_r.
  - destruct (starts_with (js "front") l);
      [now rewrite (A5 eq_refl) | rewrite andb_false_r].
    destruct (starts_with (js "back") l);
      [now rewrite (A6 eq_refl) | rewrite andb_false_r].
    reflexivity.
Qed.

End FileTypeFacts.

(** ** The publisher when Redis cannot be reached *)

Module RedisClientFacts.

Import Router RedisClient.

Local Unset Implicit Arguments.

Lemma dummy_publishes_nothing server messages : forall s,
  redis_publisher s = Some Dummy ->
  publish_all swallowing server messages s
  = (map (fun _ => None) messages, s).
Proof.
  induction messages as [|[channel message] rest IH]; intros s Hs;
    [reflexivity|].
  cbn [publish_all map]. unfold publish_to_redis, get_redis_publisher.
  rewrite Hs. now rewrite (IH s Hs).
Qed.

(** X25. When the client cannot be created, the second version keeps a
    stand-in for good: every later publish returns normally, nothing is
    delivered and the constructor is not called again.  The first version
    throws and calls the constructor again at every publish. *)
Theorem uncreated_publisher
    (server : Server) (messages : list (jsstring * jsstring)) (s : Store) :
  redis_publisher s = None ->
  (forall i, i < length messages -> construct server (constructions s + i) <> None) ->
  messages <> [] ->
  (let '(outcomes, s') := publish_all swallowing server messages s in
   outcomes = map (fun _ => None) messages
   /\ redis_publisher s' = Some Dummy
   /\ constructions s' = S (constructions s)
   /\ delivered s' = delivered s)
  /\
  (let '(outcomes, s') := publish_all rethrowing server messages s in
   outcomes = map (fun i => construct server (constructions s + i))
                  (seq 0 (length messages))
   /\ redis_publisher s' = None
   /\ constructions s' = constructions s + length messages
   /\ delivered s' = delivered s).
Proof.
  intros Hs Hc Hne. split.
  - destruct messages as [|[channel message] rest]; [congruence|].
    cbn [publish_all]. unfold publish_to_redis, get_redis_publisher.
    rewrite Hs. specialize (Hc 0 ltac:(cbn; lia)). rewrite Nat.add_0_r in Hc.
    destruct (construct server (constructions s)) as [e|]; [|congruence].
    rewrite dummy_publishes_nothing by reflexivity. cbn. auto.
  - clear Hne. revert s Hs Hc.
    induction messages as [|[channel message] rest IH]; intros s Hs Hc.
    + cbn. rewrite Nat.add_0_r. auto.
    + cbn [publish_all]. unfold publish_to_redis, get_redis_publisher.
      rewrite Hs. pose proof (Hc 0 ltac:(cbn; lia)) as H0.
      rewrite Nat.add_0_r in H0.
      destruct (construct server (constructions s)) as [e|] eqn:E;
        [|congruence].
      set (s1 := {| redis_publisher := None;
                    constructions := S (constructions s);
                    sent := sent s; delivered := delivered s |}).
      specialize (IH s1 eq_refl).
      destruct (publish_all rethrowing server rest s1) as [outcomes s2].
      destruct IH as (Ho & Hp & Hn & Hd).
      { intros i Hi. cbn [constructions s1].
        replace (S (constructions s) + i) with (constructions s + S i) by lia.
        apply Hc. cbn. lia. }
      cbn [length seq map]. rewrite Nat.add_0_r, E, Ho.
      repeat split; auto.
      * f_equal. rewrite <- seq_shift, map_map. apply map_ext.
        intros i. cbn [constructions s1]. f_equal. lia.
      * rewrite Hn. cbn [constructions s1]. lia.
Qed.

Lemma uncreated_publisher_witness :
  (let '(outcomes, s') :=
     publish_all swallowing Cases.refusing Cases.two_messages Cases.unopened in
   outcomes = map (fun _ => None) Cases.two_messages
   /\ redis_publisher s' = Some Dummy
   /\ constructions s' = S (constructions Cases.unopened)
   /\ delivered s' = delivered Cases.unopened)
  /\
  (let '(outcomes, s') :=
     publish_all rethrowing Cases.refusing Cases.two_messages Cases.unopened in
   outcomes = map (fun i => construct Cases.refusing
                              (constructions Cases.unopened + i))
                  (seq 0 (length Cases.two_messages))
   /\ redis_publisher s' = None
   /\ constructions s'
      = constructions Cases.unopened + length Cases.two_messages
   /\ delivered s' = delivered Cases.unopened).
Proof.
  apply (uncreated_publisher Cases.refusing Cases.two_messages Cases.unopened).
  - reflexivity.
  - intros i _. discriminate.
  - discriminate.
Defined.

End RedisClientFacts.
